(** * SHACLtoXSD: the SHACL-to-XSD lowering engine of xsd2shacl

    A shallow embedding of [src/xsd2shacl/SHACLtoXSD.py].  The shape graph is
    a read-only list of triples; the [xml.etree] elements the converter
    builds are objects shared by reference, so they live in a store indexed
    by address; the converter's own fields ([processed_shapes],
    [node_shape_map], [property_shape_map], [xsd_root]) are threaded through
    a state monad whose outcomes are a normal return, a Python exception, or
    running out of fuel (a loop or recursion that does not come back). *)

From stdpp Require Import gmap strings list fin_maps fin_sets.
From Stdlib Require Import ZArith Lia Ascii.

(** ** Python strings

    A [str] is modelled as the sequence of its code points, each below 256
    (Latin-1); text with other characters is outside the model. *)

Module PyStr.

(** [s.startswith(p)] *)
Definition startswith (p s : string) : bool := String.prefix p s.

(** [s[n:]] *)
Fixpoint drop (n : nat) (s : string) : string :=
  match n, s with
  | O, _ => s
  | S _, EmptyString => EmptyString
  | S n', String _ s' => drop n' s'
  end.

(** [s.endswith(p)] *)
Definition endswith (p s : string) : bool :=
  let n := String.length s in
  let m := String.length p in
  if m <=? n then String.eqb (drop (n - m) s) p else false.

(** Left-to-right scan for the non-overlapping matches of [sep], as
    [str.split] finds them.  [skip] counts the characters of [s] that still
    belong to the match found last.  The result is the piece after the last
    match, or [None] when [sep] does not occur. *)
Fixpoint scan (sep : string) (skip : nat) (s : string) : option string :=
  match s with
  | EmptyString => None
  | String _ s' =>
      match skip with
      | S k => scan sep k s'
      | O =>
          if String.prefix sep s
          then Some (match scan sep (String.length sep - 1) s' with
                     | Some piece => piece
                     | None => drop (String.length sep) s
                     end)
          else scan sep O s'
      end
  end.

(** [sep in s], for a non-empty [sep] *)
Definition contains (sep s : string) : bool :=
  match scan sep O s with Some _ => true | None => false end.

(** [s.split(sep)[-1]], for a non-empty [sep] *)
Definition split_last (sep s : string) : string :=
  match scan sep O s with Some piece => piece | None => s end.

(** [sep.join(l)] *)
Definition join (sep : string) (l : list string) : string := String.concat sep l.

Definition is_digit (c : ascii) : bool :=
  let n := nat_of_ascii c in (48 <=? n) && (n <=? 57).

(** [c.isspace()], the characters that [str.strip] removes: below 256 these
    are the code points 9-13, 28-32, 133 and 160 *)
Definition is_ws (c : ascii) : bool :=
  let n := nat_of_ascii c in
  (n =? 32) || ((9 <=? n) && (n <=? 13)) || ((28 <=? n) && (n <=? 31))
  || (n =? 133) || (n =? 160).

Fixpoint lstrip (s : string) : string :=
  match s with
  | String c s' => if is_ws c then lstrip s' else s
  | EmptyString => s
  end.

(** *** [int(s)] on a [str]

    CPython first rewrites a string that is not pure ASCII: a code point
    from 127 on becomes a blank when it is white space (133 and 160, below
    256) and otherwise must be a decimal digit (there is none from 127 to
    255), so it is an error.  The result is read as a decimal literal:
    blanks (9-13 and 32 only; 28-31 are no blanks here), an optional sign,
    digits with single underscores between them, blanks.  A literal of more
    than [max_str_digits] digits is refused. *)

Definition is_int_space (c : ascii) : bool :=
  let n := nat_of_ascii c in
  (n =? 32) || ((9 <=? n) && (n <=? 13)) || (n =? 133) || (n =? 160).

Fixpoint int_lstrip (s : string) : string :=
  match s with
  | String c s' => if is_int_space c then int_lstrip s' else s
  | EmptyString => s
  end.

(** blanks are all that may follow the digits *)
Fixpoint all_int_space (s : string) : bool :=
  match s with
  | EmptyString => true
  | String c s' => is_int_space c && all_int_space s'
  end.

(** [sys.get_int_max_str_digits()], as CPython sets it by default *)
Definition max_str_digits : nat := 4300.

(** Digits of a decimal integer literal, single underscores allowed between
    digits; [acc] is the value read so far, [count] the number of digits
    read, [prev] tells whether the previous character was a digit. *)
Fixpoint digits (acc : Z) (count : nat) (prev : bool) (s : string) : option Z :=
  match s with
  | EmptyString =>
      if prev && (count <=? max_str_digits) then Some acc else None
  | String c s' =>
      if is_digit c
      then digits (10 * acc + Z.of_nat (nat_of_ascii c - 48))%Z (S count) true s'
      else if Ascii.eqb c "_"%char
           then (if prev then digits acc count false s' else None)
           else if prev && all_int_space s && (count <=? max_str_digits)
                then Some acc else None
  end.

(** [int(s)] on a string: [None] stands for [ValueError]. *)
Definition int (s : string) : option Z :=
  match int_lstrip s with
  | String "-"%char s' => Z.opp <$> digits 0%Z 0 false s'
  | String "+"%char s' => digits 0%Z 0 false s'
  | s' => digits 0%Z 0 false s'
  end.

End PyStr.

(** ** RDF terms, as rdflib hands them to the converter *)

(** A [Literal] is a [str] subclass: the lexical form, the datatype IRI, the
    language tag, and the Python value rdflib converted the lexical form to.
    The converter observes that value only through truth tests ([if item:]),
    so the model keeps its truth value: [None] when rdflib has no value (the
    test then falls back on the lexical form being non-empty), [Some b] when
    [bool(value) = b] (so [Some false] for the integer 0, [false], or an empty
    plain literal). *)
Inductive term : Type :=
| URIRef (iri : string)
| BNode (id : string)
| Literal (lexical : string) (datatype language : option string) (value : option bool).

#[global] Instance term_eq_dec : EqDecision term.
Proof. solve_decision. Defined.

Definition term_encode (t : term) : string + string + (string * option string * option string * option bool) :=
  match t with
  | URIRef s => inl (inl s)
  | BNode s => inl (inr s)
  | Literal l d g v => inr (l, d, g, v)
  end.

Definition term_decode (x : string + string + (string * option string * option string * option bool)) : term :=
  match x with
  | inl (inl s) => URIRef s
  | inl (inr s) => BNode s
  | inr (l, d, g, v) => Literal l d g v
  end.

#[global] Instance term_countable : Countable term.
Proof.
  refine (inj_countable' term_encode term_decode _).
  intros []; reflexivity.
Defined.

(** [str(t)] *)
Definition str (t : term) : string :=
  match t with
  | URIRef s => s
  | BNode s => s
  | Literal l _ _ _ => l
  end.

(** [bool(t)]: identifiers are plain strings; [Literal.__bool__] asks the
    Python value first. *)
Definition truthy (t : term) : bool :=
  match t with
  | URIRef s | BNode s => negb (String.eqb s "")
  | Literal l _ _ (Some b) => b
  | Literal l _ _ None => negb (String.eqb l "")
  end.

(** [if x:] on the result of [Graph.value] *)
Definition truthy_opt (o : option term) : bool :=
  match o with Some t => truthy t | None => false end.

(** ** The shape graph (read-only) *)

Definition triple : Type := term * term * term.
Abbreviation Graph := (list triple).

Module NS.
Definition sh (l : string) : term := URIRef ("http://www.w3.org/ns/shacl#" +:+ l).
Definition rdf (l : string) : term := URIRef ("http://www.w3.org/1999/02/22-rdf-syntax-ns#" +:+ l).
Definition xsd (l : string) : term := URIRef ("http://www.w3.org/2001/XMLSchema#" +:+ l).
Definition xs : string := "http://www.w3.org/2001/XMLSchema".
(** the tag [f"{{{self.xsd_nsmap['xs']}}}local"] *)
Definition q (l : string) : string := "{" +:+ xs +:+ "}" +:+ l.
End NS.

Definition RDF_first : term := NS.rdf "first".
Definition RDF_rest : term := NS.rdf "rest".
Definition RDF_nil : term := NS.rdf "nil".
Definition RDF_type : term := NS.rdf "type".

Section Accessors.
Variable SHACL : Graph.

(** [list(SHACL.objects(subject=s, predicate=p))] *)
Definition objects (s p : term) : list term :=
  omap (λ t : triple, let '(s', p', o) := t in
          if decide (s' = s ∧ p' = p) then Some o else None) SHACL.

(** [list(SHACL.subjects(predicate=p, object=o))] *)
Definition subjects (p o : term) : list term :=
  omap (λ t : triple, let '(s, p', o') := t in
          if decide (p' = p ∧ o' = o) then Some s else None) SHACL.

(** [SHACL.value(subject=s, predicate=p)] *)
Definition value (s p : term) : option term := head (objects s p).

(** [(s, p, o) in SHACL] *)
Definition has_triple (s p o : term) : bool := bool_decide ((s, p, o) ∈ SHACL).

(** [(s, p, None) in SHACL] *)
Definition has_any (s p : term) : bool :=
  match objects s p with [] => false | _ => true end.

(** every subject and object of the graph *)
Definition nodes : gset term :=
  list_to_set (flat_map (λ t : triple, let '(s, _, o) := t in [s; o]) SHACL).
End Accessors.

(** ** List Walker *)

(** [get_rdf_list_items]: the [while] loop runs once per unit of fuel;
    [None] means the fuel ran out before the loop left. *)
Fixpoint get_rdf_list_items (fuel : nat) (SHACL : Graph) (list_node : term) : option (list term) :=
  match fuel with
  | O => None
  | S fuel' =>
      if decide (list_node = RDF_nil) then Some []
      else
        let item := value SHACL list_node RDF_first in
        let items := match item with
                     | Some i => if truthy i then [i] else []
                     | None => []
                     end in
        match value SHACL list_node RDF_rest with
        | Some next =>
            if truthy next
            then app items <$> get_rdf_list_items fuel' SHACL next
            else Some items
        | None => Some items
        end
  end.

(** ** Constraint classifiers and names *)

Section Classifiers.
Variable SHACL : Graph.

(** [get_shape_name] *)
Definition get_shape_name (shape_uri : term) : string :=
  let name_literal := value SHACL shape_uri (NS.sh "name") in
  match name_literal with
  | Some n => if truthy n then str n else
      let uri_str := str shape_uri in
      if PyStr.contains "NodeShape/" uri_str then PyStr.split_last "NodeShape/" uri_str
      else if PyStr.contains "PropertyShape/" uri_str then
        let path := PyStr.split_last "PropertyShape/" uri_str in
        if PyStr.startswith "@" path then PyStr.drop 1 path else path
      else PyStr.split_last "/" uri_str
  | None =>
      let uri_str := str shape_uri in
      if PyStr.contains "NodeShape/" uri_str then PyStr.split_last "NodeShape/" uri_str
      else if PyStr.contains "PropertyShape/" uri_str then
        let path := PyStr.split_last "PropertyShape/" uri_str in
        if PyStr.startswith "@" path then PyStr.drop 1 path else path
      else PyStr.split_last "/" uri_str
  end.

(** [str(datatype).split('#')[-1]] *)
Definition local_name (datatype : term) : string := PyStr.split_last "#" (str datatype).

(** [are_simple_type_constraints] *)
Fixpoint are_simple_type_constraints (item_list : list term) : bool :=
  match item_list with
  | [] => true
  | item :: rest =>
      let datatype := value SHACL item (NS.sh "datatype") in
      if negb (truthy_opt datatype) then false
      else are_simple_type_constraints rest
  end.

(** the [member_types] loop shared by both disjunction sites *)
Definition member_types (items : list term) : list string :=
  omap (λ item,
          match value SHACL item (NS.sh "datatype") with
          | Some datatype => if truthy datatype then Some (local_name datatype) else None
          | None => None
          end) items.
End Classifiers.

(** ** xml.etree elements *)

(** An [ET.Element]: tag, attribute dictionary, and the addresses of its
    children. *)
Record Elem : Type := mkElem {
  tag : string;
  attrib : gmap string string;
  children : list nat
}.

(** The objects created so far, by address; a new object takes the next
    address. *)
Abbreviation store := (list Elem).

Module ET.
Definition Element (t : string) (h : store) : nat * store :=
  (length h, h ++ [mkElem t ∅ []]).

Definition set (e : nat) (k v : string) (h : store) : store :=
  alter (λ el, mkElem (tag el) (<[k := v]> (attrib el)) (children el)) e h.

(** [del e.attrib[k]] *)
Definition del (e : nat) (k : string) (h : store) : store :=
  alter (λ el, mkElem (tag el) (delete k (attrib el)) (children el)) e h.

Definition append (parent child : nat) (h : store) : store :=
  alter (λ el, mkElem (tag el) (attrib el) (children el ++ [child])) parent h.

Definition SubElement (parent : nat) (t : string) (h : store) : nat * store :=
  let '(e, h) := Element t h in (e, append parent e h).

(** [e.get(k)] *)
Definition get (e : nat) (k : string) (h : store) : option string :=
  el ← h !! e; attrib el !! k.

(** [k in e.attrib] *)
Definition has (e : nat) (k : string) (h : store) : bool :=
  match get e k h with Some _ => true | None => false end.

Definition tag_of (e : nat) (h : store) : string :=
  match h !! e with Some el => tag el | None => "" end.

Definition children_of (e : nat) (h : store) : list nat :=
  match h !! e with Some el => children el | None => [] end.

(** [if k in e.attrib: del e.attrib[k]] *)
Definition discard (e : nat) (k : string) (h : store) : store :=
  if has e k h then del e k h else h.

(** the first child whose tag ends with [suffix]
    ([for child in e: if child.tag.endswith(suffix): ...; break]) *)
Definition find_child (suffix : string) (e : nat) (h : store) : option nat :=
  List.find (λ c, PyStr.endswith suffix (tag_of c h)) (children_of e h).
End ET.

(** ** Facet and enumeration compilation (element tree only) *)

Section Facets.
Variable SHACL : Graph.

(** [if v is not None: facet = SubElement(restriction, name); facet.set("value", str(v))] *)
Definition add_facet (restriction : nat) (name : string) (v : option term) (h : store) : store :=
  match v with
  | Some t =>
      let '(facet, h) := ET.SubElement restriction (NS.q name) h in
      ET.set facet "value" (str t) h
  | None => h
  end.

(** lines 453-476: the inline simpleType and its restriction, taken from the
    element when it has them, created otherwise *)
Definition ensure_restriction (base_type : string) (element : nat) (h : store)
  : nat * store :=
  let '(simple_type, h) :=
    match ET.find_child "simpleType" element h with
    | Some s => (s, h)
    | None => ET.SubElement element (NS.q "simpleType") h
    end in
  match ET.find_child "restriction" simple_type h with
  | Some r => (r, h)
  | None =>
      let '(r, h) := ET.SubElement simple_type (NS.q "restriction") h in
      let h := ET.set r "base" base_type h in
      (r, ET.discard element "type" h)
  end.

(** [process_facet_constraints] *)
Definition process_facet_constraints (shape_uri : term) (element : nat) (h : store) : store :=
  let pattern := value SHACL shape_uri (NS.sh "pattern") in
  let datatype := value SHACL shape_uri (NS.sh "datatype") in
  let base_type := match datatype with
                   | Some d => if truthy d then local_name d else "decimal"
                   | None => "decimal"
                   end in
  let min_exclusive := value SHACL shape_uri (NS.sh "minExclusive") in
  let max_exclusive := value SHACL shape_uri (NS.sh "maxExclusive") in
  let min_inclusive := value SHACL shape_uri (NS.sh "minInclusive") in
  let max_inclusive := value SHACL shape_uri (NS.sh "maxInclusive") in
  (* needs_restriction is assigned from the four bounds and never read *)
  let min_length := value SHACL shape_uri (NS.sh "minLength") in
  let max_length := value SHACL shape_uri (NS.sh "maxLength") in
  let exact_length := value SHACL shape_uri (NS.sh "length") in
  if negb (truthy_opt pattern || bool_decide (min_length ≠ None)
           || bool_decide (max_length ≠ None) || bool_decide (exact_length ≠ None))
  then h
  else
    let '(restriction, h) := ensure_restriction base_type element h in
    let h := if truthy_opt pattern then add_facet restriction "pattern" pattern h else h in
    let h := add_facet restriction "minExclusive" min_exclusive h in
    let h := add_facet restriction "maxExclusive" max_exclusive h in
    let h := add_facet restriction "minInclusive" min_inclusive h in
    let h := add_facet restriction "maxInclusive" max_inclusive h in
    let exact_length :=
      if bool_decide (exact_length = None) && bool_decide (min_length ≠ None)
         && bool_decide (max_length ≠ None) && bool_decide (min_length = max_length)
      then min_length else exact_length in
    match exact_length with
    | Some _ => add_facet restriction "length" exact_length h
    | None =>
        let h := add_facet restriction "minLength" min_length h in
        add_facet restriction "maxLength" max_length h
    end.

(** the [for value in values] loop of [process_list_constraints] *)
Fixpoint add_enumerations (restriction : nat) (values : list term) (h : store) : store :=
  match values with
  | [] => h
  | v :: rest =>
      let '(enum, h) := ET.SubElement restriction (NS.q "enumeration") h in
      add_enumerations restriction rest (ET.set enum "value" (str v) h)
  end.

(** [process_list_constraints]; [None] when the list walk runs out of fuel *)
Definition process_list_constraints (fuel : nat) (shape_uri : term) (element : nat) (h : store)
  : option store :=
  let in_values := objects SHACL shape_uri (NS.sh "in") in
  match in_values with
  | [] => Some h
  | in_value :: _ =>
      if has_any SHACL in_value RDF_first then
        values ← get_rdf_list_items fuel SHACL in_value;
        match values with
        | [v] =>
            let h := ET.set element "fixed" (str v) h in
            Some (ET.discard element "type" h)
        | _ =>
            let datatype := value SHACL shape_uri (NS.sh "datatype") in
            let base_type := match datatype with
                             | Some d => if truthy d then local_name d else "string"
                             | None => "string"
                             end in
            match values with
            | [] => Some h
            | _ =>
                let '(simple_type, h) := ET.SubElement element (NS.q "simpleType") h in
                let '(restriction, h) := ET.SubElement simple_type (NS.q "restriction") h in
                let h := ET.set restriction "base" base_type h in
                let h := add_enumerations restriction values h in
                Some (ET.discard element "type" h)
            end
        end
      else if decide (in_value = RDF_nil) then Some h
      else Some (ET.set element "fixed" (str in_value) h)
  end.
End Facets.

(** ** Converter state and the lowering monad *)

(** The fields of a [SHACLtoXSD] object that a conversion pass writes.
    [xsd_root] holds the schema element itself: it is reached only through
    this field, never stored as a child or in a map, so it needs no address.
    Every other element lives in [elements]. *)
Record state : Type := mkState {
  processed_shapes : gset term;
  xsd_root : option Elem;
  node_shape_map : gmap term nat;
  property_shape_map : gmap term nat;
  elements : store
}.

(** [SHACLtoXSD.__init__] *)
Definition init : state := mkState ∅ None ∅ ∅ [].

Inductive result (A : Type) : Type :=
| Ok (a : A) (st : state)
| Raise (exn : string)
| Diverge.
Arguments Ok {A} a st.
Arguments Raise {A} exn.
Arguments Diverge {A}.

Definition M (A : Type) : Type := state → result A.

#[global] Instance M_ret : MRet M := λ A a st, Ok a st.
#[global] Instance M_bind : MBind M := λ A B f m st,
  match m st with
  | Ok a st' => f a st'
  | Raise e => Raise e
  | Diverge => Diverge
  end.

Definition gets {A} (f : state → A) : M A := λ st, Ok (f st) st.
Definition modify (f : state → state) : M unit := λ st, Ok tt (f st).
Definition raise {A} (exn : string) : M A := λ _, Raise exn.
Definition diverge {A} : M A := λ _, Diverge.

(** an element-tree operation that returns nothing *)
Definition on_store (f : store → store) : M unit :=
  modify (λ st, mkState (processed_shapes st) (xsd_root st) (node_shape_map st)
                        (property_shape_map st) (f (elements st))).

(** an element-tree operation that returns a new element *)
Definition new_elem (f : store → nat * store) : M nat := λ st,
  let '(e, h) := f (elements st) in
  Ok e (mkState (processed_shapes st) (xsd_root st) (node_shape_map st)
                (property_shape_map st) h).

(** a fuelled loop that may not come back *)
Definition of_walk {A} (o : option A) : M A :=
  match o with Some a => mret a | None => diverge end.

(** [for x in l: body(x)] *)
Fixpoint for_each {A} (l : list A) (body : A → M unit) : M unit :=
  match l with
  | [] => mret tt
  | x :: rest => body x ;; for_each rest body
  end.

(** [self.processed_shapes.add(shape_uri)] *)
Definition reserve (shape_uri : term) : M unit :=
  modify (λ st, mkState ({[shape_uri]} ∪ processed_shapes st) (xsd_root st)
                        (node_shape_map st) (property_shape_map st) (elements st)).

(** [self.node_shape_map[shape_uri] = complex_type] *)
Definition store_node_shape (shape_uri : term) (e : nat) : M unit :=
  modify (λ st, mkState (processed_shapes st) (xsd_root st)
                        (<[shape_uri := e]> (node_shape_map st))
                        (property_shape_map st) (elements st)).

(** [self.property_shape_map[shape_uri] = element] *)
Definition store_property_shape (shape_uri : term) (e : nat) : M unit :=
  modify (λ st, mkState (processed_shapes st) (xsd_root st) (node_shape_map st)
                        (<[shape_uri := e]> (property_shape_map st)) (elements st)).

(** [self.xsd_root.append(e)]; [xsd_root] is [None] until [create_xsd_root] *)
Definition root_append (e : nat) : M unit := λ st,
  match xsd_root st with
  | Some r =>
      Ok tt (mkState (processed_shapes st)
                     (Some (mkElem (tag r) (attrib r) (children r ++ [e])))
                     (node_shape_map st) (property_shape_map st) (elements st))
  | None => Raise "AttributeError"
  end.

(** ** Property Shape Lowering *)

Section Lowering.
Variable SHACL : Graph.

(** [is_attribute], and the display name with the marker stripped *)
Definition is_attribute (shape_uri : term) : bool :=
  PyStr.contains "@" (str shape_uri) || PyStr.startswith "@" (get_shape_name SHACL shape_uri).

Definition display_name (shape_uri : term) : string :=
  let shape_name := get_shape_name SHACL shape_uri in
  if is_attribute shape_uri && PyStr.startswith "@" shape_name
  then PyStr.drop 1 shape_name else shape_name.

(** lines 285-320: the property-level [sh:or] *)
Definition property_disjunction (fuel : nat) (shape_uri or_node : term) (element : nat)
  : M (option nat) :=
  simple_type ← new_elem (ET.SubElement element (NS.q "simpleType"));
  items ← of_walk (get_rdf_list_items fuel SHACL or_node);
  (if are_simple_type_constraints SHACL items
   then
     union ← new_elem (ET.SubElement simple_type (NS.q "union"));
     on_store (ET.set union "memberTypes" (PyStr.join " " (member_types SHACL items)))
   else
     restriction ← new_elem (ET.SubElement simple_type (NS.q "restriction"));
     on_store (ET.set restriction "base" "string")) ;;
  on_store (ET.discard element "type") ;;
  store_property_shape shape_uri element ;;
  mret (Some element).

(** lines 329-350: [sh:minCount] and [sh:maxCount] *)
Definition cardinality (shape_uri : term) (element : nat) : M unit :=
  let is_attr := is_attribute shape_uri in
  let min_count := value SHACL shape_uri (NS.sh "minCount") in
  match min_count with
  | Some mc =>
      if is_attr then
        match PyStr.int (str mc) with
        | Some n =>
            if (0 <? n)%Z then on_store (ET.set element "use" "required")
            else on_store (ET.set element "use" "optional")
        | None => raise "ValueError"
        end
      else if negb (String.eqb (str mc) "1")
           then on_store (ET.set element "minOccurs" (str mc))
           else mret tt
  | None =>
      if is_attr then on_store (ET.set element "use" "optional") else mret tt
  end ;;
  let max_count := value SHACL shape_uri (NS.sh "maxCount") in
  match max_count with
  | Some mc =>
      if negb is_attr && negb (String.eqb (str mc) "1")
      then on_store (ET.set element "maxOccurs" (str mc))
      else mret tt
  | None => mret tt
  end.

(** [process_property_shape] *)
Definition process_property_shape (fuel : nat) (shape_uri : term) : M (option nat) :=
  seen ← gets processed_shapes;
  if decide (shape_uri ∈ seen) then gets (λ st, property_shape_map st !! shape_uri)
  else
    reserve shape_uri ;;
    let is_attr := is_attribute shape_uri in
    let shape_name := display_name shape_uri in
    let path := value SHACL shape_uri (NS.sh "path") in
    if negb (truthy_opt path) then mret None
    else
      let element_type := if is_attr then "attribute" else "element" in
      element ← new_elem (ET.Element (NS.q element_type));
      on_store (ET.set element "name" shape_name) ;;
      let or_nodes := objects SHACL shape_uri (NS.sh "or") in
      match or_nodes, is_attr with
      | or_node :: _, false => property_disjunction fuel shape_uri or_node element
      | _, _ =>
          let datatype := value SHACL shape_uri (NS.sh "datatype") in
          match datatype with
          | Some d =>
              if truthy d then on_store (ET.set element "type" (local_name d)) else mret tt
          | None => mret tt
          end ;;
          cardinality shape_uri element ;;
          h ← gets elements;
          h ← of_walk (process_list_constraints SHACL fuel shape_uri element h);
          on_store (λ _, h) ;;
          on_store (process_facet_constraints SHACL shape_uri element) ;;
          store_property_shape shape_uri element ;;
          mret (Some element)
      end.

(** ** Node Shape Lowering *)

(** [process_rdf_list]; [lower] is the recursive [self.process_node_shape] *)
Definition process_rdf_list (lower : term → M (option nat)) (fuel : nat)
    (list_node : term) (parent_element : nat) : M unit :=
  items ← of_walk (get_rdf_list_items fuel SHACL list_node);
  for_each items (λ item,
    let is_property := has_triple SHACL item RDF_type (NS.sh "PropertyShape") in
    if is_property then
      prop_elem ← process_property_shape fuel item;
      match prop_elem with
      | Some e => on_store (ET.append parent_element e)
      | None => mret tt
      end
    else
      node_elem ← lower item;
      match node_elem with
      | Some _ =>
          ref_elem ← new_elem (ET.Element (NS.q "element"));
          on_store (ET.set ref_elem "ref" (get_shape_name SHACL item)) ;;
          on_store (ET.append parent_element ref_elem)
      | None => mret tt
      end).

(** [process_choice_constraint] *)
Definition process_choice_constraint (lower : term → M (option nat)) (fuel : nat)
    (list_node : term) (parent_element : nat) (is_xone : bool) : M unit :=
  if is_xone then
    choice ← new_elem (ET.SubElement parent_element (NS.q "choice"));
    process_rdf_list lower fuel list_node choice
  else
    items ← of_walk (get_rdf_list_items fuel SHACL list_node);
    if are_simple_type_constraints SHACL items then
      simple_type ← new_elem (ET.SubElement parent_element (NS.q "simpleType"));
      union ← new_elem (ET.SubElement simple_type (NS.q "union"));
      on_store (ET.set union "memberTypes" (PyStr.join " " (member_types SHACL items)))
    else
      choice ← new_elem (ET.SubElement parent_element (NS.q "choice"));
      process_rdf_list lower fuel list_node choice.

(** lines 101-112: [sh:node], inheritance by extension; returns [extension] *)
Definition extend_base (lower : term → M (option nat)) (shape_uri : term)
    (complex_type : nat) : M (option nat) :=
  let node_values := objects SHACL shape_uri (NS.sh "node") in
  match node_values with
  | base_shape_uri :: _ =>
      base_complex_type ← lower base_shape_uri;
      match base_complex_type with
      | Some _ =>
          complex_content ← new_elem (ET.SubElement complex_type (NS.q "complexContent"));
          extension ← new_elem (ET.SubElement complex_content (NS.q "extension"));
          on_store (ET.set extension "base" (get_shape_name SHACL base_shape_uri)) ;;
          mret (Some extension)
      | None => mret None
      end
  | [] => mret None
  end.

(** lines 127-147: [sh:property] *)
Definition lower_properties (fuel : nat) (shape_uri : term)
    (complex_type : nat) (extension : option nat) : M unit :=
  let xone_nodes := objects SHACL shape_uri (NS.sh "xone") in
  let or_nodes := objects SHACL shape_uri (NS.sh "or") in
  let property_nodes := objects SHACL shape_uri (NS.sh "property") in
  match property_nodes with
  | [] => mret tt
  | _ =>
      let container := match extension with Some e => e | None => complex_type end in
      container ←
        match xone_nodes, or_nodes with
        | [], [] => new_elem (ET.SubElement container (NS.q "all"))
        | _, _ => mret container
        end;
      for_each property_nodes (λ prop,
        prop_elem ← process_property_shape fuel prop;
        match prop_elem with
        | Some e =>
            h ← gets elements;
            if PyStr.endswith "element" (ET.tag_of e h)
            then on_store (ET.append container e)
            else if PyStr.endswith "attribute" (ET.tag_of e h)
                 then on_store (ET.append complex_type e)
                 else mret tt
        | None => mret tt
        end)
  end.

(** lines 152-170: one top-level element per [sh:targetClass] *)
Definition emit_target_elements (shape_uri : term) (shape_name : string)
    (complex_type : nat) (extension : option nat) : M unit :=
  let target_classes := objects SHACL shape_uri (NS.sh "targetClass") in
  for_each target_classes (λ _,
    element ← new_elem (ET.Element (NS.q "element"));
    on_store (ET.set element "name" (get_shape_name SHACL shape_uri)) ;;
    h ← gets elements;
    match extension with
    | Some ext =>
        if forallb (λ child, PyStr.endswith "complexContent" (ET.tag_of child h))
                   (ET.children_of complex_type h)
           && match objects SHACL shape_uri (NS.sh "property") with [] => true | _ => false end
        then
          (* [base] was set when the extension was created *)
          let base_type_name := default "" (ET.get ext "base" h) in
          on_store (ET.set element "type" base_type_name)
        else on_store (ET.set element "type" shape_name)
    | None => on_store (ET.set element "type" shape_name)
    end ;;
    root_append element).

(** the body of [process_node_shape] *)
Definition process_node_shape_body (lower : term → M (option nat)) (fuel : nat)
    (shape_uri : term) : M (option nat) :=
  seen ← gets processed_shapes;
  if decide (shape_uri ∈ seen) then gets (λ st, node_shape_map st !! shape_uri)
  else
    reserve shape_uri ;;
    let shape_name := get_shape_name SHACL shape_uri in
    complex_type ← new_elem (ET.Element (NS.q "complexType"));
    on_store (ET.set complex_type "name" shape_name) ;;
    extension ← extend_base lower shape_uri complex_type;
    let container := match extension with Some e => e | None => complex_type end in
    let xone_nodes := objects SHACL shape_uri (NS.sh "xone") in
    match xone_nodes with
    | xone :: _ => process_choice_constraint lower fuel xone container true
    | [] => mret tt
    end ;;
    let or_nodes := objects SHACL shape_uri (NS.sh "or") in
    match or_nodes with
    | or_node :: _ => process_choice_constraint lower fuel or_node container false
    | [] => mret tt
    end ;;
    lower_properties fuel shape_uri complex_type extension ;;
    store_node_shape shape_uri complex_type ;;
    emit_target_elements shape_uri shape_name complex_type extension ;;
    root_append complex_type ;;
    mret (Some complex_type).

(** [process_node_shape]: one unit of fuel per level of recursion; the list
    walks below a level run on what is left. *)
Fixpoint process_node_shape (fuel : nat) (shape_uri : term) {struct fuel} : M (option nat) :=
  match fuel with
  | O => diverge
  | S fuel' => process_node_shape_body (process_node_shape fuel') fuel' shape_uri
  end.
End Lowering.

(** ** Schema Emitter *)

(** A value of [ns_prefix_map].  [load_shacl_file] stores what
    [Graph.namespaces()] yields, which are rdflib [URIRef]s (line 560); a
    caller that fills the map by hand may store plain strings.  A [URIRef]
    never equals a [str], whatever its text. *)
Inductive namespace : Type :=
| PlainStr (s : string)
| NsURIRef (iri : string).

#[global] Instance namespace_eq_dec : EqDecision namespace.
Proof. solve_decision. Defined.

(** What [load_shacl_file] leaves in the converter before [convert] runs. *)
Record converter : Type := mkConverter {
  SHACL : Graph;
  ns_prefix_map : gmap string namespace;
  tns : string;           (* [xsd_nsmap['tns']] *)
  xsdTargetNS : string
}.

(** the rest of the prefix is made of digits, at least one, up to the end
    of the string or to a line break that ends it ([\d+$]) *)
Fixpoint digits_to_end (seen : bool) (s : string) : bool :=
  match s with
  | EmptyString => seen
  | String c s' =>
      if PyStr.is_digit c then digits_to_end true s'
      else seen && Ascii.eqb c (Ascii.ascii_of_nat 10) && String.eqb s' EmptyString
  end.

(** [re.match(r"ns\d+$", prefix)]: the prefixes that
    [ET.register_namespace] refuses with a [ValueError] *)
Definition reserved_prefix (prefix : string) : bool :=
  match prefix with
  | String "n" (String "s" rest) => digits_to_end false rest
  | _ => false
  end.

(** some prefix of the map is refused by the loop of lines 39-40 *)
Definition refused_prefix (c : converter) : bool :=
  existsb (λ kv : string * namespace, reserved_prefix kv.1)
          (map_to_list (ns_prefix_map c)).

(** [create_xsd_root].  [ET.register_namespace] feeds the serializer's
    prefix table, which is outside this model; what the model keeps of the
    loop of lines 39-40 is its [ValueError].  The test of line 46 compares
    the map's value with a [str]. *)
Definition create_xsd_root (c : converter) : M unit :=
  if refused_prefix c then raise "ValueError"
  else
    let use_xsd_prefix :=
      bool_decide (ns_prefix_map c !! "xsd" =
                   Some (PlainStr "http://www.w3.org/2001/XMLSchema")) in
    let schema_prefix := if use_xsd_prefix then "xsd" else "xs" in
    let a : gmap string string := <["xmlns:" +:+ schema_prefix := NS.xs]> ∅ in
    let a := <["xmlns:tns" := tns c]> a in
    let a := <["targetNamespace" := xsdTargetNS c]> a in
    let a := <["elementFormDefault" := "qualified"]> a in
    let a := <["attributeFormDefault" := "unqualified"]> a in
    modify (λ st, mkState (processed_shapes st) (Some (mkElem (NS.q "schema") a []))
                          (node_shape_map st) (property_shape_map st) (elements st)).

(** lines 530-535 of [convert]: every node shape *)
Definition lower_node_shapes (fuel : nat) (c : converter) : M unit :=
  let node_shapes := subjects (SHACL c) RDF_type (NS.sh "NodeShape") in
  for_each node_shapes (λ node_shape,
    _ ← process_node_shape (SHACL c) fuel node_shape; mret tt).

(** lines 537-547 of [convert]: the property shapes no node shape reached *)
Definition lower_standalone_properties (fuel : nat) (c : converter) : M unit :=
  let all_property_shapes := subjects (SHACL c) RDF_type (NS.sh "PropertyShape") in
  seen ← gets processed_shapes;
  let unprocessed_property_shapes :=
    List.filter (λ ps, bool_decide (ps ∉ seen)) all_property_shapes in
  for_each unprocessed_property_shapes (λ property_shape,
    property_element ← process_property_shape (SHACL c) fuel property_shape;
    match property_element with
    | Some e =>
        h ← gets elements;
        if PyStr.endswith "element" (ET.tag_of e h) then root_append e else mret tt
    | None => mret tt
    end).

(** [convert]; the finished tree is the [xsd_root] of the final state *)
Definition convert (fuel : nat) (c : converter) : M unit :=
  create_xsd_root c ;;
  lower_node_shapes fuel c ;;
  lower_standalone_properties fuel c.

(** * Reasoning about the lowering monad *)

(** [wp m st Q E D]: from [st], [m] returns with [Q], or raises and [E]
    holds, or does not come back and [D] holds. *)
Definition wp {A} (m : M A) (st : state) (Q : A → state → Prop) (E D : Prop) : Prop :=
  match m st with
  | Ok a st' => Q a st'
  | Raise _ => E
  | Diverge => D
  end.

Lemma wp_bind {A B} (m : M A) (k : A → M B) st Q E D :
  wp m st (λ a st1, wp (k a) st1 Q E D) E D → wp (m ≫= k) st Q E D.
Proof.
  unfold wp, mbind, M_bind. destruct (m st); auto.
Qed.

Lemma wp_mono {A} (m : M A) st (Q Q' : A → state → Prop) (E E' D D' : Prop) :
  wp m st Q E D →
  (∀ a st', Q a st' → Q' a st') → (E → E') → (D → D') →
  wp m st Q' E' D'.
Proof.
  unfold wp. destruct (m st); auto.
Qed.

Lemma wp_ret {A} (a : A) st Q E D : Q a st → wp (mret a) st Q E D.
Proof. auto. Qed.

Lemma wp_gets {A} (f : state → A) st Q E D : Q (f st) st → wp (gets f) st Q E D.
Proof. auto. Qed.

Lemma wp_modify f st (Q : unit → state → Prop) E D : Q tt (f st) → wp (modify f) st Q E D.
Proof. auto. Qed.

Lemma wp_raise {A} e st (Q : A → state → Prop) (E D : Prop) : E → wp (raise e) st Q E D.
Proof. auto. Qed.

Lemma wp_of_walk {A} (o : option A) st Q E D :
  (∀ a, o = Some a → Q a st) → (o = None → D) → wp (of_walk o) st Q E D.
Proof. destruct o; cbn; auto. Qed.

(** a loop invariant for [for_each] *)
Lemma wp_for_each {A} (l : list A) (body : A → M unit) (I : state → Prop) st E D :
  I st →
  (∀ x st1, x ∈ l → I st1 → wp (body x) st1 (λ _, I) E D) →
  wp (for_each l body) st (λ _, I) E D.
Proof.
  revert st. induction l as [|x l IH]; intros st HI Hbody; cbn [for_each].
  - apply wp_ret, HI.
  - apply wp_bind. eapply wp_mono; [apply Hbody; [left | exact HI] | | auto | auto].
    intros [] st1 HI1. cbn beta. apply IH; [exact HI1 |].
    intros y st2 Hy. apply Hbody. by right.
Qed.

(** ** The element store *)

Definition with_elements (st : state) (h : store) : state :=
  mkState (processed_shapes st) (xsd_root st) (node_shape_map st) (property_shape_map st) h.

Lemma wp_on_store f st (Q : unit → state → Prop) E D :
  Q tt (with_elements st (f (elements st))) → wp (on_store f) st Q E D.
Proof. auto. Qed.

Lemma wp_new_elem f st (Q : nat → state → Prop) E D :
  (∀ e h, f (elements st) = (e, h) → Q e (with_elements st h)) → wp (new_elem f) st Q E D.
Proof.
  intros H. unfold wp, new_elem. destruct (f (elements st)) as [e h] eqn:Hf. by apply H.
Qed.

(** Tags never change once an element exists. *)
Definition tags_stable (h h' : store) : Prop :=
  ∀ i el, h !! i = Some el → ∃ el', h' !! i = Some el' ∧ tag el' = tag el.

(** The elements below address [n] are untouched. *)
Definition same_below (n : nat) (h h' : store) : Prop :=
  ∀ i, i < n → h' !! i = h !! i.

Definition grows (n : nat) (h h' : store) : Prop :=
  tags_stable h h' ∧ same_below n h h'.

(** Elements from address [n] on only have children from [n] on. *)
Definition seg_ok (n : nat) (h : store) : Prop :=
  ∀ i el, n ≤ i → h !! i = Some el → Forall (λ c, n ≤ c) (children el).

Lemma tags_stable_length h h' : tags_stable h h' → length h ≤ length h'.
Proof.
  intros Ht. destruct (decide (length h ≤ length h')) as [|Hn]; [done|].
  destruct (lookup_lt_is_Some_2 h (length h')) as [el Hel]; [lia|].
  destruct (Ht _ _ Hel) as (el' & Hel' & _).
  apply lookup_lt_Some in Hel'. lia.
Qed.

Lemma grows_refl n h : grows n h h.
Proof. split; [intros i el ?; eauto | by intros i ?]. Qed.

Lemma grows_trans n n' h1 h2 h3 :
  n ≤ n' → grows n h1 h2 → grows n' h2 h3 → grows n h1 h3.
Proof.
  intros Hn [Ht1 Hs1] [Ht2 Hs2]. split.
  - intros i el Hi. destruct (Ht1 _ _ Hi) as (el1 & H1 & E1).
    destruct (Ht2 _ _ H1) as (el2 & H2 & E2). exists el2. split; [done | congruence].
  - intros i Hi. rewrite Hs2 by lia. by apply Hs1.
Qed.

Lemma grows_weaken n n' h h' : n ≤ n' → grows n' h h' → grows n h h'.
Proof. intros Hn [Ht Hs]. split; [done|]. intros i Hi. apply Hs. lia. Qed.

Lemma grows_length n h h' : grows n h h' → length h ≤ length h'.
Proof. intros [Ht _]. by apply tags_stable_length. Qed.

Lemma grows_tag_of n h h' i : grows n h h' → i < length h → ET.tag_of i h' = ET.tag_of i h.
Proof.
  intros [Ht _] Hi. unfold ET.tag_of.
  destruct (lookup_lt_is_Some_2 h i Hi) as [el Hel].
  destruct (Ht _ _ Hel) as (el' & Hel' & E). by rewrite Hel, Hel'.
Qed.

(** an in-place update that keeps the tag *)
Lemma grows_alter n (f : Elem → Elem) e h :
  (∀ el, tag (f el) = tag el) → n ≤ e → grows n h (alter f e h).
Proof.
  intros Hf He. split.
  - intros i el Hi. destruct (decide (e = i)) as [->|Hne].
    + exists (f el). rewrite list_lookup_alter, decide_True by done.
      rewrite Hi. split; [done | apply Hf].
    + exists el. by rewrite list_lookup_alter_ne.
  - intros i Hi. apply list_lookup_alter_ne. lia.
Qed.

Lemma seg_ok_alter n (f : Elem → Elem) e h :
  (∀ el, Forall (λ c, n ≤ c) (children el) → Forall (λ c, n ≤ c) (children (f el))) →
  seg_ok n h → seg_ok n (alter f e h).
Proof.
  intros Hf Hseg i el Hi Hel. destruct (decide (e = i)) as [->|Hne].
  - rewrite list_lookup_alter, decide_True in Hel by done.
    destruct (h !! i) as [el0|] eqn:H0; [|done]. injection Hel as <-.
    apply Hf. by eapply Hseg.
  - rewrite list_lookup_alter_ne in Hel by done. by eapply Hseg.
Qed.

Lemma grows_set n e k v h : n ≤ e → grows n h (ET.set e k v h).
Proof. intros. by apply grows_alter. Qed.

Lemma grows_del n e k h : n ≤ e → grows n h (ET.del e k h).
Proof. intros. by apply grows_alter. Qed.

Lemma grows_discard n e k h : n ≤ e → grows n h (ET.discard e k h).
Proof. intros. unfold ET.discard. destruct (ET.has e k h); [by apply grows_del | apply grows_refl]. Qed.

Lemma grows_append n p c h : n ≤ p → grows n h (ET.append p c h).
Proof. intros. by apply grows_alter. Qed.

Lemma grows_snoc n h el : n ≤ length h → grows n h (h ++ [el]).
Proof.
  intros Hn. split.
  - intros i el0 Hi. exists el0. split; [|done]. by apply lookup_app_l_Some.
  - intros i Hi. apply lookup_app_l. lia.
Qed.

Lemma ET_Element_eq t h e h' :
  ET.Element t h = (e, h') → e = length h ∧ h' = h ++ [mkElem t ∅ []].
Proof. unfold ET.Element. intros [= <- <-]. done. Qed.

Lemma ET_SubElement_eq p t h e h' :
  ET.SubElement p t h = (e, h') →
  e = length h ∧ h' = ET.append p (length h) (h ++ [mkElem t ∅ []]).
Proof. unfold ET.SubElement, ET.Element. intros [= <- <-]. done. Qed.

Lemma grows_Element n t h e h' : n ≤ length h → ET.Element t h = (e, h') → grows n h h'.
Proof. intros Hn [-> ->]%ET_Element_eq. by apply grows_snoc. Qed.

Lemma grows_SubElement n p t h e h' :
  n ≤ length h → n ≤ p → ET.SubElement p t h = (e, h') → grows n h h'.
Proof.
  intros Hn Hp [-> ->]%ET_SubElement_eq.
  eapply grows_trans; [done | by apply grows_snoc | by apply grows_append].
Qed.

Lemma length_ET_set e k v h : length (ET.set e k v h) = length h.
Proof. apply length_alter. Qed.
Lemma length_ET_del e k h : length (ET.del e k h) = length h.
Proof. apply length_alter. Qed.
Lemma length_ET_append p c h : length (ET.append p c h) = length h.
Proof. apply length_alter. Qed.
Lemma length_ET_discard e k h : length (ET.discard e k h) = length h.
Proof. unfold ET.discard. destruct (ET.has e k h); [apply length_ET_del | done]. Qed.

Lemma seg_ok_set n e k v h : seg_ok n h → seg_ok n (ET.set e k v h).
Proof. apply seg_ok_alter. auto. Qed.
Lemma seg_ok_del n e k h : seg_ok n h → seg_ok n (ET.del e k h).
Proof. apply seg_ok_alter. auto. Qed.
Lemma seg_ok_discard n e k h : seg_ok n h → seg_ok n (ET.discard e k h).
Proof. unfold ET.discard. destruct (ET.has e k h); [apply seg_ok_del | done]. Qed.
Lemma seg_ok_append n p c h : n ≤ c → seg_ok n h → seg_ok n (ET.append p c h).
Proof.
  intros Hc. apply seg_ok_alter. intros el Hel. cbn.
  apply Forall_app. split; [done | by constructor].
Qed.
Lemma seg_ok_snoc n t h : seg_ok n h → seg_ok n (h ++ [mkElem t ∅ []]).
Proof.
  intros Hseg i el Hi Hel. apply lookup_app_Some in Hel as [Hel | [_ Hel]].
  - by eapply Hseg.
  - apply list_lookup_singleton_Some in Hel as [_ <-]. constructor.
Qed.
Lemma seg_ok_SubElement n p t h e h' :
  n ≤ length h → seg_ok n h → ET.SubElement p t h = (e, h') → seg_ok n h'.
Proof.
  intros Hn Hseg [-> ->]%ET_SubElement_eq.
  apply seg_ok_append; [done|]. by apply seg_ok_snoc.
Qed.

(** ** How a lowering call may change the converter *)

(** What the schema root gains: children only, at addresses from [b] on. *)
Definition root_grows (b : nat) (st st' : state) : Prop :=
  match xsd_root st, xsd_root st' with
  | Some r, Some r' =>
      tag r' = tag r ∧ attrib r' = attrib r ∧
      ∃ new, children r' = children r ++ new ∧
             Forall (λ i, b ≤ i < length (elements st')) new
  | None, None => True
  | _, _ => False
  end.

(** [evolves n b st st']: the pass moved from [st] to [st'].  Shapes stay
    processed, the registry entries of processed shapes are frozen, elements
    below [n] are untouched, tags are stable, and the root gained children
    at addresses from [b] on. *)
Record evolves (n b : nat) (st st' : state) : Prop := mkEvolves {
  ev_processed : processed_shapes st ⊆ processed_shapes st';
  ev_nodes : ∀ v, v ∈ processed_shapes st → node_shape_map st' !! v = node_shape_map st !! v;
  ev_props : ∀ v, v ∈ processed_shapes st →
                  property_shape_map st' !! v = property_shape_map st !! v;
  ev_store : grows n (elements st) (elements st');
  ev_root : root_grows b st st'
}.

(** A child of the root is a live top-level element or a complex type. *)
Definition top_level (h : store) (i : nat) : Prop :=
  i < length h ∧
  (PyStr.endswith "element" (ET.tag_of i h) = true ∨ ET.tag_of i h = NS.q "complexType").

(** Invariant of a conversion pass. *)
Record inv (g : Graph) (st : state) : Prop := mkInv {
  inv_path : ∀ u e, property_shape_map st !! u = Some e →
                    truthy_opt (value g u (NS.sh "path")) = true;
  inv_dom : ∀ u e, node_shape_map st !! u = Some e → u ∈ processed_shapes st;
  inv_pdom : ∀ u e, property_shape_map st !! u = Some e → u ∈ processed_shapes st;
  inv_root : ∀ r, xsd_root st = Some r → Forall (top_level (elements st)) (children r)
}.

Lemma inv_init g : inv g init.
Proof. split; cbn; intros; simplify_map_eq. Qed.

Lemma root_grows_refl b st : root_grows b st st.
Proof.
  unfold root_grows. destruct (xsd_root st); [|done].
  repeat split. exists []. by rewrite app_nil_r.
Qed.

Lemma evolves_refl n b st : evolves n b st st.
Proof. split; auto using grows_refl, root_grows_refl. Qed.

Lemma evolves_length n b st st' : evolves n b st st' → length (elements st) ≤ length (elements st').
Proof. intros H. eapply grows_length, ev_store, H. Qed.

Lemma root_grows_trans b b' s0 s1 s2 :
  b ≤ b' → length (elements s1) ≤ length (elements s2) →
  root_grows b s0 s1 → root_grows b' s1 s2 → root_grows b s0 s2.
Proof.
  unfold root_grows. intros Hb Hl H1 H2.
  destruct (xsd_root s0) as [r0|], (xsd_root s1) as [r1|], (xsd_root s2) as [r2|]; try done.
  destruct H1 as (T1 & A1 & new1 & C1 & F1), H2 as (T2 & A2 & new2 & C2 & F2).
  split; [congruence|]. split; [congruence|].
  exists (new1 ++ new2). split; [by rewrite C2, C1, app_assoc|].
  apply Forall_app. split.
  - eapply Forall_impl; [exact F1|]. cbn. lia.
  - eapply Forall_impl; [exact F2|]. cbn. lia.
Qed.

Lemma evolves_trans n n' b b' s0 s1 s2 :
  n ≤ n' → b ≤ b' → evolves n b s0 s1 → evolves n' b' s1 s2 → evolves n b s0 s2.
Proof.
  intros Hn Hb [P1 N1 R1 S1 G1] [P2 N2 R2 S2 G2]. split.
  - set_solver.
  - intros v Hv. rewrite N2 by set_solver. by apply N1.
  - intros v Hv. rewrite R2 by set_solver. by apply R1.
  - by eapply grows_trans.
  - eapply root_grows_trans; [done | by eapply grows_length | done..].
Qed.

Lemma evolves_weaken n n' b b' st st' :
  n ≤ n' → b ≤ b' → evolves n' b' st st' → evolves n b st st'.
Proof.
  intros Hn Hb H. eapply (evolves_trans n n b b st st st'); [done | done | apply evolves_refl |].
  destruct H as [P N R S G]. split; auto.
  - by eapply grows_weaken.
  - unfold root_grows in *. destruct (xsd_root st), (xsd_root st'); try done.
    destruct G as (T & A & new & C & F). repeat split; try done.
    exists new. split; [done|]. eapply Forall_impl; [exact F|]. cbn. lia.
Qed.

(** The assertion carried through a lowering call that started in [st0]. *)
Record track (g : Graph) (n b : nat) (st0 st : state) : Prop := mkTrack {
  tr_ev : evolves n b st0 st;
  tr_inv : inv g st
}.

Lemma track_start g n b st : inv g st → track g n b st st.
Proof. split; [apply evolves_refl | done]. Qed.

Lemma root_grows_store b st0 st h :
  length (elements st) ≤ length h → root_grows b st0 st → root_grows b st0 (with_elements st h).
Proof.
  unfold root_grows. cbn. destruct (xsd_root st0), (xsd_root st); try done.
  intros Hl (T & A & new & C & F). repeat split; try done.
  exists new. split; [done|]. eapply Forall_impl; [exact F|]. cbn. lia.
Qed.

Lemma top_level_grows n h h' i : grows n h h' → top_level h i → top_level h' i.
Proof.
  intros Hg [Hi Ht]. split.
  - pose proof (grows_length _ _ _ Hg). lia.
  - by rewrite (grows_tag_of _ _ _ _ Hg Hi).
Qed.

(** an element-tree step that touches nothing below [n] *)
Lemma track_store g n b st0 st h :
  track g n b st0 st → grows n (elements st) h → track g n b st0 (with_elements st h).
Proof.
  intros [[P N R S G] [IP ID IPD IR]] Hg. split; [split | split]; cbn; auto.
  - eapply grows_trans; [reflexivity | exact S | exact Hg].
  - apply root_grows_store; [by eapply grows_length | done].
  - intros r Hr. eapply Forall_impl; [by apply IR|]. intros i. by apply top_level_grows with n.
Qed.

Lemma track_reserve g n b st0 st u :
  track g n b st0 st →
  track g n b st0 (mkState ({[u]} ∪ processed_shapes st) (xsd_root st) (node_shape_map st)
                           (property_shape_map st) (elements st)).
Proof.
  intros [[P N R S G] [IP ID IPD IR]]. split; [split | split]; cbn; auto.
  - set_solver.
  - intros v e Hv. apply ID in Hv. set_solver.
  - intros v e Hv. apply IPD in Hv. set_solver.
Qed.

Lemma track_store_node g n b st0 st u e :
  track g n b st0 st → u ∉ processed_shapes st0 → u ∈ processed_shapes st →
  track g n b st0 (mkState (processed_shapes st) (xsd_root st) (<[u := e]> (node_shape_map st))
                           (property_shape_map st) (elements st)).
Proof.
  intros [[P N R S G] [IP ID IPD IR]] Hu0 Hu. split; [split | split]; cbn; auto.
  - intros v Hv. rewrite lookup_insert_ne by congruence. by apply N.
  - intros v e'. rewrite lookup_insert. case_decide; [by subst | by apply ID].
Qed.

Lemma track_store_prop g n b st0 st u e :
  track g n b st0 st → u ∉ processed_shapes st0 → u ∈ processed_shapes st →
  truthy_opt (value g u (NS.sh "path")) = true →
  track g n b st0 (mkState (processed_shapes st) (xsd_root st) (node_shape_map st)
                           (<[u := e]> (property_shape_map st)) (elements st)).
Proof.
  intros [[P N R S G] [IP ID IPD IR]] Hu0 Hu Hp. split; [split | split]; cbn; auto.
  - intros v Hv. rewrite lookup_insert_ne by congruence. by apply R.
  - intros v e'. rewrite lookup_insert. case_decide; [by subst | by apply IP].
  - intros v e'. rewrite lookup_insert. case_decide; [by subst | by apply IPD].
Qed.

Lemma track_root_append g n b st0 st r e :
  track g n b st0 st → xsd_root st = Some r → b ≤ e → top_level (elements st) e →
  track g n b st0 (mkState (processed_shapes st)
                           (Some (mkElem (tag r) (attrib r) (children r ++ [e])))
                           (node_shape_map st) (property_shape_map st) (elements st)).
Proof.
  intros [[P N R S G] [IP ID IPD IR]] Hr Hb He. split; [split | split]; cbn; auto.
  - unfold root_grows in *. cbn. rewrite Hr in G. destruct (xsd_root st0) as [r0|]; [|done].
    destruct G as (T & A & new & C & F). repeat split; try done.
    exists (new ++ [e]). split; [by rewrite C, app_assoc|].
    apply Forall_app. split; [done|]. constructor; [|done]. destruct He. lia.
  - intros r' [= <-]. cbn. apply Forall_app. split; [by apply IR|]. by constructor.
Qed.

(** ** Facts about the graph accessors and the list walk *)

Lemma objects_elem g s p o : o ∈ objects g s p ↔ (s, p, o) ∈ g.
Proof.
  unfold objects. rewrite list_elem_of_omap. split.
  - intros ([[s' p'] o'] & Hin & Hx). case_decide as Hd; [|done].
    destruct Hd as [-> ->]. by injection Hx as ->.
  - intros Hin. exists (s, p, o). split; [done|]. by rewrite decide_True.
Qed.

Lemma subjects_elem g p o s : s ∈ subjects g p o ↔ (s, p, o) ∈ g.
Proof.
  unfold subjects. rewrite list_elem_of_omap. split.
  - intros ([[s' p'] o'] & Hin & Hx). case_decide as Hd; [|done].
    destruct Hd as [-> ->]. by injection Hx as ->.
  - intros Hin. exists (s, p, o). split; [done|]. by rewrite decide_True.
Qed.

Lemma value_objects g s p o : value g s p = Some o → o ∈ objects g s p.
Proof. unfold value. destruct (objects g s p); [done|]. intros [= ->]. left. Qed.

Lemma triple_nodes g s p o : (s, p, o) ∈ g → s ∈ nodes g ∧ o ∈ nodes g.
Proof.
  intros Hin. unfold nodes.
  split; apply elem_of_list_to_set, list_elem_of_In, in_flat_map;
    exists (s, p, o); (split; [by apply list_elem_of_In | cbn; auto]).
Qed.

Lemma objects_nodes g s p o : o ∈ objects g s p → o ∈ nodes g.
Proof. intros H%objects_elem. by apply triple_nodes in H as [_ ?]. Qed.

Lemma subjects_nodes g p o s : s ∈ subjects g p o → s ∈ nodes g.
Proof. intros H%subjects_elem. by apply triple_nodes in H as [? _]. Qed.

Lemma get_rdf_list_items_mono g fuel fuel' l items :
  get_rdf_list_items fuel g l = Some items → fuel ≤ fuel' →
  get_rdf_list_items fuel' g l = Some items.
Proof.
  revert fuel' l items. induction fuel as [|fuel IH]; intros fuel' l items; [done|].
  destruct fuel' as [|fuel']; [lia|]. cbn. intros H Hle.
  case_decide; [done|].
  destruct (value g l RDF_rest) as [next|]; [|done].
  destruct (truthy next); [|done].
  destruct (get_rdf_list_items fuel g next) as [rest|] eqn:Hr; [|done].
  by rewrite (IH fuel' next rest Hr) by lia.
Qed.

Lemma get_rdf_list_items_nodes g fuel l items :
  get_rdf_list_items fuel g l = Some items → ∀ x, x ∈ items → x ∈ nodes g.
Proof.
  revert l items. induction fuel as [|fuel IH]; intros l items; [done|]. cbn.
  case_decide; [intros [= <-] x Hx; by apply elem_of_nil in Hx|].
  set (here := match value g l RDF_first with
               | Some i => if truthy i then [i] else []
               | None => []
               end).
  assert (Hhere : ∀ x, x ∈ here → x ∈ nodes g).
  { subst here. intros x. destruct (value g l RDF_first) as [i|] eqn:Hv.
    - destruct (truthy i); [|by intros ?%elem_of_nil].
      intros ->%list_elem_of_singleton. eapply objects_nodes, value_objects, Hv.
    - by intros ?%elem_of_nil. }
  destruct (value g l RDF_rest) as [next|]; [|by intros [= <-]].
  destruct (truthy next); [|by intros [= <-]].
  destruct (get_rdf_list_items fuel g next) as [rest|] eqn:Hr; [|done].
  cbn. intros [= <-] x [Hx|Hx]%elem_of_app; [by apply Hhere | by eapply IH].
Qed.

(** Every list that hangs off a triple of the graph is walked within [w]
    rounds. *)
Definition walks_finite (w : nat) (g : Graph) : bool :=
  forallb (λ t : triple, match get_rdf_list_items w g t.2 with Some _ => true | None => false end) g.

Lemma walks_finite_walk w g fuel s p o :
  walks_finite w g = true → o ∈ objects g s p → w ≤ fuel →
  ∃ items, get_rdf_list_items fuel g o = Some items.
Proof.
  intros Hw Ho%objects_elem Hle. unfold walks_finite in Hw.
  rewrite forallb_forall in Hw. apply list_elem_of_In, Hw in Ho. cbn in Ho.
  destruct (get_rdf_list_items w g o) as [items|] eqn:Hi; [|done].
  exists items. by eapply get_rdf_list_items_mono.
Qed.

(** [int(min_count)] succeeds on every [sh:minCount] of the graph. *)
Definition minCounts_ok (g : Graph) : bool :=
  forallb (λ t : triple, let '(_, p, o) := t in
             if decide (p = NS.sh "minCount")
             then match PyStr.int (str o) with Some _ => true | None => false end
             else true) g.

Lemma minCounts_ok_int g s o :
  minCounts_ok g = true → value g s (NS.sh "minCount") = Some o →
  ∃ n, PyStr.int (str o) = Some n.
Proof.
  intros Hm Hv%value_objects%objects_elem. unfold minCounts_ok in Hm.
  rewrite forallb_forall in Hm. apply list_elem_of_In, Hm in Hv. cbn in Hv.
  rewrite decide_True in Hv by done. destruct (PyStr.int (str o)); [eauto | done].
Qed.

(** ** The element tree under facet and enumeration compilation *)

(** A step on a fresh element at or above [n]: nothing below [n] moves, and
    the elements from [n] on keep their children from [n] on. *)
Definition pgrows (n : nat) (h h' : store) : Prop :=
  n ≤ length h → grows n h h' ∧ (seg_ok n h → seg_ok n h').

Lemma pgrows_refl n h : pgrows n h h.
Proof. intros _. split; [apply grows_refl | done]. Qed.

Lemma pgrows_trans n h1 h2 h3 : pgrows n h1 h2 → pgrows n h2 h3 → pgrows n h1 h3.
Proof.
  intros H1 H2 Hn. destruct (H1 Hn) as [G1 S1].
  destruct H2 as [G2 S2]; [pose proof (grows_length _ _ _ G1); lia|].
  split; [eapply grows_trans; [reflexivity | exact G1 | exact G2] | auto].
Qed.

Lemma pgrows_set n e k v h : n ≤ e → pgrows n h (ET.set e k v h).
Proof. intros He _. split; [by apply grows_set | apply seg_ok_set]. Qed.

Lemma pgrows_discard n e k h : n ≤ e → pgrows n h (ET.discard e k h).
Proof. intros He _. split; [by apply grows_discard | apply seg_ok_discard]. Qed.

Lemma pgrows_SubElement n p t h e h' :
  n ≤ p → ET.SubElement p t h = (e, h') → pgrows n h h'.
Proof.
  intros Hp Hs Hn. split; [eapply grows_SubElement; [exact Hn | exact Hp | exact Hs]|].
  intros Hseg. eapply seg_ok_SubElement; [exact Hn | exact Hseg | exact Hs].
Qed.

Lemma SubElement_fresh p t h e h' :
  ET.SubElement p t h = (e, h') → e = length h ∧ length h' = S (length h).
Proof.
  intros [-> ->]%ET_SubElement_eq. split; [done|].
  rewrite length_ET_append, length_app. cbn. lia.
Qed.

Lemma pgrows_add_facet n r name v h : n ≤ r → pgrows n h (add_facet r name v h).
Proof.
  intros Hr. unfold add_facet. destruct v as [t|]; [|apply pgrows_refl].
  destruct (ET.SubElement r (NS.q name) h) as [f h1] eqn:Hs.
  intros Hn. pose proof (SubElement_fresh _ _ _ _ _ Hs) as [-> Hl]. generalize Hn.
  eapply pgrows_trans; [eapply pgrows_SubElement; [exact Hr | exact Hs]|].
  intros _. apply pgrows_set; lia.
Qed.

Lemma pgrows_add_enumerations n r values h : n ≤ r → pgrows n h (add_enumerations r values h).
Proof.
  intros Hr. revert h. induction values as [|v values IH]; intros h;
    cbn [add_enumerations]; [apply pgrows_refl|].
  destruct (ET.SubElement r (NS.q "enumeration") h) as [f h1] eqn:Hs.
  intros Hn. pose proof (SubElement_fresh _ _ _ _ _ Hs) as [-> Hl]. generalize Hn.
  eapply pgrows_trans; [eapply pgrows_SubElement; [exact Hr | exact Hs]|].
  eapply pgrows_trans; [|apply IH].
  intros _. apply pgrows_set; lia.
Qed.

Lemma process_list_constraints_pgrows g fuel u e n h h' :
  n ≤ e → process_list_constraints g fuel u e h = Some h' → pgrows n h h'.
Proof.
  intros He. unfold process_list_constraints.
  destruct (objects g u (NS.sh "in")) as [|in_value ?]; [intros [= <-]; apply pgrows_refl|].
  destruct (has_any g in_value RDF_first).
  - destruct (get_rdf_list_items fuel g in_value) as [values|]; [cbn [mbind option_bind]|done].
    assert (Hfixed : ∀ v, pgrows n h (ET.discard e "type" (ET.set e "fixed" (str v) h))).
    { intros v. eapply pgrows_trans; [|by apply pgrows_discard]. by apply pgrows_set. }
    assert (Henum : ∀ vs base,
      pgrows n h
        (let '(simple_type, h) := ET.SubElement e (NS.q "simpleType") h in
         let '(restriction, h) := ET.SubElement simple_type (NS.q "restriction") h in
         ET.discard e "type"
           (add_enumerations restriction vs (ET.set restriction "base" base h)))).
    { intros vs base.
      destruct (ET.SubElement e (NS.q "simpleType") h) as [s h1] eqn:H1.
      destruct (ET.SubElement s (NS.q "restriction") h1) as [r h2] eqn:H2.
      intros Hn. pose proof (SubElement_fresh _ _ _ _ _ H1) as [Hs Hl1].
      pose proof (SubElement_fresh _ _ _ _ _ H2) as [Hr Hl2].
      generalize Hn.
      eapply pgrows_trans; [|by apply pgrows_discard].
      eapply pgrows_trans; [|apply pgrows_add_enumerations; lia].
      eapply pgrows_trans; [|apply pgrows_set; lia].
      eapply pgrows_trans; [eapply pgrows_SubElement; [exact He | exact H1]|].
      eapply pgrows_SubElement; [|exact H2]. lia. }
    destruct values as [|v [|v' values]].
    + intros [= <-]. apply pgrows_refl.
    + intros [= <-]. apply Hfixed.
    + intros H. specialize (Henum (v :: v' :: values)
        match value g u (NS.sh "datatype") with
        | Some d => if truthy d then local_name d else "string"
        | None => "string"
        end).
      destruct (ET.SubElement e (NS.q "simpleType") h) as [s h1].
      destruct (ET.SubElement s (NS.q "restriction") h1) as [r h2].
      by injection H as <-.
  - case_decide; intros [= <-]; [apply pgrows_refl | by apply pgrows_set].
Qed.

Lemma find_child_elem suffix e h c :
  ET.find_child suffix e h = Some c → c ∈ ET.children_of e h.
Proof. unfold ET.find_child. intros H%find_some. apply list_elem_of_In, H. Qed.

Lemma seg_ok_child n h e c :
  seg_ok n h → n ≤ e → c ∈ ET.children_of e h → n ≤ c.
Proof.
  unfold ET.children_of. intros Hseg He Hc.
  destruct (h !! e) as [el|] eqn:Hel; [|by apply elem_of_nil in Hc].
  pose proof (Hseg _ _ He Hel) as HF. rewrite Forall_forall in HF. by apply HF.
Qed.

Lemma ensure_restriction_pgrows base e n h r h2 :
  n ≤ e → seg_ok n h → n ≤ length h →
  ensure_restriction base e h = (r, h2) → pgrows n h h2 ∧ n ≤ r.
Proof.
  intros He Hseg Hn. unfold ensure_restriction.
  (* the simpleType: found among the children, or new *)
  assert (Hs : ∃ s h1, match ET.find_child "simpleType" e h with
                       | Some s => (s, h)
                       | None => ET.SubElement e (NS.q "simpleType") h
                       end = (s, h1) ∧ pgrows n h h1 ∧ n ≤ s).
  { destruct (ET.find_child "simpleType" e h) as [s|] eqn:Hf.
    - exists s, h. split; [done|]. split; [apply pgrows_refl|].
      eapply (seg_ok_child n h e s Hseg He), find_child_elem, Hf.
    - destruct (ET.SubElement e (NS.q "simpleType") h) as [s h1] eqn:H1.
      exists s, h1. split; [done|].
      split; [eapply pgrows_SubElement; [exact He | exact H1]|].
      apply SubElement_fresh in H1 as [-> _]. done. }
  destruct Hs as (s & h1 & -> & G1 & Hsn).
  destruct (G1 Hn) as [Gr1 Sg1]. specialize (Sg1 Hseg).
  pose proof (grows_length _ _ _ Gr1) as Hl1.
  destruct (ET.find_child "restriction" s h1) as [r'|] eqn:Hf.
  - intros [= <- <-]. split; [done|].
    eapply (seg_ok_child n h1 s r' Sg1 Hsn), find_child_elem, Hf.
  - destruct (ET.SubElement s (NS.q "restriction") h1) as [r' h2'] eqn:H2.
    intros [= <- <-].
    pose proof (SubElement_fresh _ _ _ _ _ H2) as [Hr _]. split; [|lia].
    eapply pgrows_trans; [exact G1|].
    eapply pgrows_trans; [|by apply pgrows_discard].
    eapply pgrows_trans; [|apply pgrows_set; lia].
    eapply pgrows_SubElement; [exact Hsn | exact H2].
Qed.

Lemma process_facet_constraints_pgrows g u e n h :
  n ≤ e → seg_ok n h → pgrows n h (process_facet_constraints g u e h).
Proof.
  intros He Hseg. unfold process_facet_constraints.
  destruct (negb _); [apply pgrows_refl|].
  set (base := match value g u (NS.sh "datatype") with
               | Some d => if truthy d then local_name d else "decimal"
               | None => "decimal"
               end).
  destruct (ensure_restriction base e h) as [r h2] eqn:Hens.
  intros Hn. destruct (ensure_restriction_pgrows _ _ _ _ _ _ He Hseg Hn Hens) as [G2 Hrn].
  generalize Hn. eapply pgrows_trans; [exact G2|].
  assert (Hlen : ∀ h3 x, pgrows n h2 h3 →
            pgrows n h2 match x with
                        | Some _ => add_facet r "length" x h3
                        | None => add_facet r "maxLength" (value g u (NS.sh "maxLength"))
                                    (add_facet r "minLength" (value g u (NS.sh "minLength")) h3)
                        end).
  { intros h3 x G3. destruct x.
    - eapply pgrows_trans; [exact G3 | by apply pgrows_add_facet].
    - eapply pgrows_trans; [|by apply pgrows_add_facet].
      eapply pgrows_trans; [exact G3 | by apply pgrows_add_facet]. }
  apply Hlen.
  eapply pgrows_trans; [|by apply pgrows_add_facet].
  eapply pgrows_trans; [|by apply pgrows_add_facet].
  eapply pgrows_trans; [|by apply pgrows_add_facet].
  eapply pgrows_trans; [|by apply pgrows_add_facet].
  destruct (truthy_opt _); [by apply pgrows_add_facet | apply pgrows_refl].
Qed.

(** ** Property Shape Lowering: what a call does *)

#[local] Arguments ET.set : simpl never.
#[local] Arguments ET.del : simpl never.
#[local] Arguments ET.discard : simpl never.
#[local] Arguments ET.append : simpl never.
#[local] Arguments ET.Element : simpl never.
#[local] Arguments ET.SubElement : simpl never.
#[local] Arguments ET.tag_of : simpl never.
#[local] Arguments ET.children_of : simpl never.
#[local] Arguments ET.get : simpl never.
#[local] Arguments process_list_constraints : simpl never.
#[local] Arguments process_facet_constraints : simpl never.
#[local] Arguments get_rdf_list_items : simpl never.
#[local] Arguments get_shape_name : simpl never.
#[local] Arguments NS.q : simpl never.
#[local] Arguments NS.sh : simpl never.
#[local] Arguments PyStr.endswith : simpl never.
#[local] Arguments PyStr.join : simpl never.
#[local] Arguments PyStr.int : simpl never.

(** Input conditions under which no call raises. *)
Definition raises_ok (g : Graph) (st : state) : Prop :=
  is_Some (xsd_root st) ∧ minCounts_ok g = true.

(** Input conditions under which no call runs out of fuel: the list walks
    end within [w] rounds, and the fuel covers them plus one level of
    recursion per shape of [N] not yet processed. *)
Definition enough (g : Graph) (w : nat) (N : gset term) (fuel : nat) (st : state) : Prop :=
  walks_finite w g = true ∧ nodes g ⊆ N ∧ w + size (N ∖ processed_shapes st) < fuel.

(** only the element store changed, by [R] *)
Definition store_post (st : state) (R : store → store → Prop) : unit → state → Prop :=
  λ _ st', ∃ h', st' = with_elements st h' ∧ R (elements st) h'.

Lemma cardinality_wp g u e st :
  wp (cardinality g u e) st
     (store_post st (λ h h', length h' = length h ∧ ∀ n, n ≤ e → pgrows n h h'))
     (minCounts_ok g = true → False) False.
Proof.
  unfold cardinality, store_post.
  assert (Hset : ∀ h k v, length (ET.set e k v h) = length h ∧
                          ∀ n, n ≤ e → pgrows n h (ET.set e k v h)).
  { intros. split; [apply length_ET_set | intros; by apply pgrows_set]. }
  assert (Hmax : ∀ st1 h1,
    st1 = with_elements st h1 →
    (length h1 = length (elements st) ∧ ∀ n, n ≤ e → pgrows n (elements st) h1) →
    wp match value g u (NS.sh "maxCount") with
       | Some mc =>
           if negb (is_attribute g u) && negb (String.eqb (str mc) "1")
           then on_store (ET.set e "maxOccurs" (str mc))
           else mret tt
       | None => mret tt
       end st1
       (λ _ st', ∃ h', st' = with_elements st h' ∧
                       length h' = length (elements st) ∧
                       ∀ n, n ≤ e → pgrows n (elements st) h')
       (minCounts_ok g = true → False) False).
  { intros st1 h1 -> [Hl Hg].
    destruct (value g u (NS.sh "maxCount")) as [mc|]; [|apply wp_ret; eauto].
    destruct (_ && _); [|apply wp_ret; eauto].
    apply wp_on_store. eexists. split; [reflexivity|]. cbn.
    split; [by rewrite length_ET_set|].
    intros n Hn. eapply pgrows_trans; [by apply Hg | by apply pgrows_set]. }
  apply wp_bind.
  destruct (value g u (NS.sh "minCount")) as [mc|] eqn:Hmc.
  - destruct (is_attribute g u) eqn:Ha.
    + destruct (PyStr.int (str mc)) as [z|] eqn:Hz.
      * destruct (0 <? z)%Z; apply wp_on_store; (eapply Hmax; [reflexivity | apply Hset]).
      * apply wp_raise. intros Hm.
        destruct (minCounts_ok_int _ _ _ Hm Hmc) as [z Hz']. congruence.
    + destruct (negb (String.eqb (str mc) "1")).
      * apply wp_on_store. eapply Hmax; [reflexivity | apply Hset].
      * apply wp_ret. eapply (Hmax st (elements st)); [by destruct st|].
        split; [done | intros; apply pgrows_refl].
  - destruct (is_attribute g u) eqn:Ha.
    + apply wp_on_store. eapply Hmax; [reflexivity | apply Hset].
    + apply wp_ret. eapply (Hmax st (elements st)); [by destruct st|].
      split; [done | intros; apply pgrows_refl].
Qed.

(** What a call of [process_property_shape] on [u] from [st] guarantees. *)
Record prop_post (g : Graph) (u : term) (st : state) (r : option nat) (st' : state)
  : Prop := mkPropPost {
  pp_track : track g (length (elements st)) (length (elements st)) st st';
  pp_root : xsd_root st' = xsd_root st;
  pp_nodes : node_shape_map st' = node_shape_map st;
  pp_processed : processed_shapes st' = {[u]} ∪ processed_shapes st;
  pp_result : r = property_shape_map st' !! u;
  pp_cached : u ∈ processed_shapes st → st' = st;
  pp_fresh : ∀ e, r = Some e → u ∉ processed_shapes st →
             e = length (elements st) ∧
             ET.tag_of e (elements st') =
               NS.q (if is_attribute g u then "attribute" else "element");
  pp_made : u ∉ processed_shapes st →
            truthy_opt (value g u (NS.sh "path")) = true →
            r = Some (length (elements st))
}.

(** the state in which a fresh property shape [u] leaves the converter *)
Definition lowered_prop (st : state) (u : term) (e : nat) (h : store) : state :=
  mkState ({[u]} ∪ processed_shapes st) (xsd_root st) (node_shape_map st)
          (<[u := e]> (property_shape_map st)) h.

Lemma prop_post_fresh g u st h et :
  inv g st → u ∉ processed_shapes st →
  truthy_opt (value g u (NS.sh "path")) = true →
  et = (if is_attribute g u then "attribute" else "element") →
  grows (length (elements st)) (elements st) h →
  ET.tag_of (length (elements st)) h = NS.q et →
  prop_post g u st (Some (length (elements st)))
            (lowered_prop st u (length (elements st)) h).
Proof.
  intros Hinv Hu Hp -> Hg Ht. split; cbn; try done.
  - set (n := length (elements st)).
    pose proof (track_reserve g n n st st u (track_start g n n st Hinv)) as T1.
    pose proof (track_store g n n st _ h T1 Hg) as T2.
    refine (track_store_prop g n n st _ u n T2 Hu _ Hp). cbn. set_solver.
  - by rewrite lookup_insert_eq.
  - intros e [= <-] _. done.
Qed.

(** the element store of a property shape under construction at address [n] *)
Definition building (n : nat) (et : string) (h0 h : store) : Prop :=
  grows n h0 h ∧ seg_ok n h ∧ n < length h ∧ ET.tag_of n h = NS.q et.

Lemma building_step n et h0 h h' : building n et h0 h → pgrows n h h' → building n et h0 h'.
Proof.
  intros (G & S & L & T) H. destruct H as [G' S']; [lia|].
  pose proof (grows_length _ _ _ G').
  split; [eapply grows_trans; [reflexivity | exact G | exact G']|].
  split; [auto|]. split; [lia|]. by rewrite (grows_tag_of _ _ _ _ G' L).
Qed.

Lemma building_start t h e h' :
  ET.Element (NS.q t) h = (e, h') → e = length h ∧ building (length h) t h h'.
Proof.
  intros [-> ->]%ET_Element_eq. split; [done|]. split; [by apply grows_snoc|].
  split.
  { apply seg_ok_snoc. intros i el Hi Hel. apply lookup_lt_Some in Hel. lia. }
  split; [rewrite length_app; cbn; lia|].
  unfold ET.tag_of. by rewrite list_lookup_middle.
Qed.

Lemma process_list_constraints_None g fuel u e h :
  process_list_constraints g fuel u e h = None →
  ∃ in_value, in_value ∈ objects g u (NS.sh "in") ∧
              get_rdf_list_items fuel g in_value = None.
Proof.
  unfold process_list_constraints.
  destruct (objects g u (NS.sh "in")) as [|in_value rest]; [done|].
  destruct (has_any g in_value RDF_first).
  - destruct (get_rdf_list_items fuel g in_value) as [values|] eqn:Hw.
    + cbn [mbind option_bind]. destruct values as [|v [|v' values]]; [done..|].
      destruct (ET.SubElement e (NS.q "simpleType") h) as [s h1].
      destruct (ET.SubElement s (NS.q "restriction") h1) as [r h2]. done.
    + intros _. exists in_value. split; [left | done].
  - by case_decide.
Qed.

(** projections of an explicit converter state *)
Ltac norm_state :=
  cbn [elements with_elements processed_shapes xsd_root node_shape_map property_shape_map].

Ltac flat_state :=
  unfold with_elements;
  cbn [elements processed_shapes xsd_root node_shape_map property_shape_map].

Section PropertyShape.
Variables (g : Graph) (fuel : nat) (u : term) (st : state).

(** [st] once [u] is reserved, with element store [h] *)
Local Abbreviation reserved h :=
  (mkState ({[u]} ∪ processed_shapes st) (xsd_root st) (node_shape_map st)
           (property_shape_map st) h).
Local Abbreviation e := (length (elements st)).
Local Abbreviation et := (if is_attribute g u then "attribute" else "element").
Local Abbreviation NoRaise := (minCounts_ok g = true → False).
Local Abbreviation NoDiverge := (∀ w, walks_finite w g = true → w ≤ fuel → False).

Hypothesis Hinv : inv g st.
Hypothesis Hu : u ∉ processed_shapes st.
Hypothesis Hp : truthy_opt (value g u (NS.sh "path")) = true.

(** how every path ends *)
Lemma property_end_wp h :
  building e et (elements st) h →
  wp (store_property_shape u e ;; mret (Some e)) (reserved h) (prop_post g u st)
     NoRaise NoDiverge.
Proof.
  intros (G & _ & _ & T). apply wp_bind, wp_modify, wp_ret.
  by apply (prop_post_fresh g u st h et).
Qed.

Lemma property_disjunction_wp or_node rest h1 :
  objects g u (NS.sh "or") = or_node :: rest →
  building e et (elements st) h1 →
  wp (property_disjunction g fuel u or_node e) (reserved h1) (prop_post g u st)
     NoRaise NoDiverge.
Proof.
  intros Hor Hb. unfold property_disjunction.
  apply wp_bind, wp_new_elem. norm_state. intros s h2 Hs.
  pose proof (SubElement_fresh _ _ _ _ _ Hs) as [Hse Hl2].
  assert (Hb2 : building e et (elements st) h2).
  { eapply building_step; [exact Hb|]. eapply pgrows_SubElement; [|exact Hs]. done. }
  destruct Hb as (_ & _ & Hl1 & _).
  apply wp_bind, wp_of_walk.
  2:{ intros Hnone w Hw Hle.
      destruct (walks_finite_walk w g fuel u (NS.sh "or") or_node Hw) as [items Hi];
        [rewrite Hor; left | done | congruence]. }
  intros items _. cbn beta. apply wp_bind.
  assert (Hrest : ∀ h, building e et (elements st) h →
            wp (on_store (ET.discard e "type") ;; store_property_shape u e ;; mret (Some e))
               (reserved h) (prop_post g u st) NoRaise NoDiverge).
  { intros h Hbh. apply wp_bind, wp_on_store. norm_state. apply property_end_wp.
    eapply building_step; [exact Hbh|]. by apply pgrows_discard. }
  destruct (are_simple_type_constraints g items).
  - apply wp_bind, wp_new_elem. norm_state. intros un h3 Hun.
    pose proof (SubElement_fresh _ _ _ _ _ Hun) as [Hune Hl3].
    apply wp_on_store. norm_state. apply Hrest.
    eapply building_step; [|apply pgrows_set; lia].
    eapply building_step; [exact Hb2|]. eapply pgrows_SubElement; [|exact Hun]. lia.
  - apply wp_bind, wp_new_elem. norm_state. intros rs h3 Hrs.
    pose proof (SubElement_fresh _ _ _ _ _ Hrs) as [Hrse Hl3].
    apply wp_on_store. norm_state. apply Hrest.
    eapply building_step; [|apply pgrows_set; lia].
    eapply building_step; [exact Hb2|]. eapply pgrows_SubElement; [|exact Hrs]. lia.
Qed.

Lemma property_plain_wp h1 :
  building e et (elements st) h1 →
  wp (match value g u (NS.sh "datatype") with
      | Some d =>
          if truthy d then on_store (ET.set e "type" (local_name d)) else mret tt
      | None => mret tt
      end ;;
      cardinality g u e ;;
      h ← gets elements;
      h ← of_walk (process_list_constraints g fuel u e h);
      on_store (λ _, h) ;;
      on_store (process_facet_constraints g u e) ;;
      store_property_shape u e ;;
      mret (Some e)) (reserved h1) (prop_post g u st) NoRaise NoDiverge.
Proof.
  intros Hb. apply wp_bind.
  assert (Hty : ∃ h2, building e et (elements st) h2 ∧
            ∀ Q E D, Q tt (reserved h2) →
              wp match value g u (NS.sh "datatype") with
                 | Some d =>
                     if truthy d then on_store (ET.set e "type" (local_name d)) else mret tt
                 | None => mret tt
                 end (reserved h1) Q E D).
  { destruct (value g u (NS.sh "datatype")) as [d|]; [destruct (truthy d)|].
    - eexists. split; [eapply building_step; [exact Hb | by apply pgrows_set]|].
      intros Q E D HQ. by apply wp_on_store.
    - exists h1. split; [done|]. intros Q E D HQ. by apply wp_ret.
    - exists h1. split; [done|]. intros Q E D HQ. by apply wp_ret. }
  destruct Hty as (h2 & Hb2 & Hty). apply Hty. clear Hty.
  apply wp_bind. eapply wp_mono; [apply cardinality_wp | | auto | done].
  intros [] st2 (h3 & -> & Hl3 & Hg3). norm_state. cbn [elements] in Hl3, Hg3.
  assert (Hb3 : building e et (elements st) h3) by (eapply building_step; eauto).
  apply wp_bind, wp_gets. apply wp_bind, wp_of_walk.
  2:{ norm_state. intros Hnone w Hw Hle.
      apply process_list_constraints_None in Hnone as (iv & Hiv & Hnone).
      destruct (walks_finite_walk w g fuel u (NS.sh "in") iv Hw Hiv Hle) as [? ?].
      congruence. }
  norm_state. intros h4 Hh4.
  assert (Hb4 : building e et (elements st) h4).
  { eapply building_step; [exact Hb3|].
    eapply process_list_constraints_pgrows; [|exact Hh4]. done. }
  apply wp_bind, wp_on_store. apply wp_bind, wp_on_store. norm_state.
  apply property_end_wp. eapply building_step; [exact Hb4|].
  apply process_facet_constraints_pgrows; [done|]. by destruct Hb4 as (_ & ? & _).
Qed.
End PropertyShape.

Lemma process_property_shape_wp g fuel u st :
  inv g st →
  wp (process_property_shape g fuel u) st (prop_post g u st)
     (minCounts_ok g = true → False)
     (∀ w, walks_finite w g = true → w ≤ fuel → False).
Proof.
  intros Hinv. unfold process_property_shape.
  apply wp_bind, wp_gets. cbn beta.
  destruct (decide (u ∈ processed_shapes st)) as [Hu|Hu].
  { apply wp_gets. split; try done.
    - by apply track_start.
    - set_solver. }
  apply wp_bind, wp_modify. cbn beta.
  destruct (truthy_opt (value g u (NS.sh "path"))) eqn:Hp; cbn [negb].
  2:{ apply wp_ret. split; cbn; try done.
      - apply (track_reserve g _ _ st st). by apply track_start.
      - destruct (property_shape_map st !! u) as [e|] eqn:He; [|done].
        by apply (inv_pdom _ _ Hinv) in He.
      - intros _ Hp'. congruence. }
  apply wp_bind, wp_new_elem. norm_state. intros e h0 [-> Hb]%building_start.
  cbn beta. apply wp_bind, wp_on_store. norm_state.
  assert (Hb1 := building_step _ _ _ _ _ Hb
                   (pgrows_set _ (length (elements st)) "name" (display_name g u) h0
                      (PeanoNat.Nat.le_refl _))).
  pose proof (property_plain_wp g fuel u st Hinv Hu Hp _ Hb1) as Hplain.
  pose proof (λ or_node rest Hor,
                property_disjunction_wp g fuel u st Hinv Hu Hp or_node rest _ Hor Hb1)
    as Hdisj.
  clear Hb Hb1.
  destruct (objects g u (NS.sh "or")) as [|or_node rest]; [exact Hplain|].
  destruct (is_attribute g u); [exact Hplain | by eapply Hdisj].
Qed.

Lemma lookup_SubElement p t h c h' el :
  ET.SubElement p t h = (c, h') → h !! p = Some el →
  c = length h ∧
  h' !! p = Some (mkElem (tag el) (attrib el) (children el ++ [c])) ∧
  h' !! c = Some (mkElem t ∅ []).
Proof.
  intros [-> ->]%ET_SubElement_eq Hel. split; [done|].
  pose proof (lookup_lt_Some _ _ _ Hel) as Hlt. unfold ET.append. split.
  - rewrite list_lookup_alter, decide_True by done.
    by rewrite lookup_app_l, Hel by done.
  - rewrite list_lookup_alter_ne by lia. by rewrite list_lookup_middle.
Qed.

Lemma tag_of_lookup h i el : h !! i = Some el → ET.tag_of i h = tag el.
Proof. unfold ET.tag_of. by intros ->. Qed.

(** ** Node Shape Lowering: what a call does *)

(** a loop invariant that knows which items are done *)
Lemma wp_for_each_ind {A} (l : list A) (body : A → M unit)
    (I : list A → state → Prop) st E D :
  I [] st →
  (∀ pre x post st1, l = pre ++ x :: post → I pre st1 →
     wp (body x) st1 (λ _, I (pre ++ [x])) E D) →
  wp (for_each l body) st (λ _, I l) E D.
Proof.
  intros H0 Hbody.
  assert (Hgen : ∀ rest pre st1, l = pre ++ rest → I pre st1 →
            wp (for_each rest body) st1 (λ _, I l) E D).
  { induction rest as [|x rest IH]; intros pre st1 Hl HI; cbn [for_each].
    - apply wp_ret. by rewrite Hl, app_nil_r.
    - apply wp_bind. eapply wp_mono; [exact (Hbody pre x rest st1 Hl HI) | | auto | auto].
      intros [] st2 HI2. cbn beta. apply (IH (pre ++ [x])); [|done].
      by rewrite Hl, <- app_assoc. }
  by apply (Hgen l []).
Qed.

(** The top-level element emitted for a target class of [u]. *)
Definition target_element (g : Graph) (u : term) (type_name : string) : Elem :=
  mkElem (NS.q "element")
         (<["type" := type_name]> (<["name" := get_shape_name g u]> ∅)) [].

(** The base of [u] whose lowering returned a complex type: the first
    [sh:node] value, when it is not [u] itself and the registry holds a type
    for it. *)
Definition extension_base (g : Graph) (u : term) (st : state) : option term :=
  match objects g u (NS.sh "node") with
  | base :: _ =>
      if decide (base ≠ u ∧ is_Some (node_shape_map st !! base)) then Some base else None
  | [] => None
  end.

(** The type the code gives the top-level elements of [u]. *)
Definition top_type (g : Graph) (u : term) (st : state) : string :=
  match extension_base g u st, objects g u (NS.sh "property") with
  | Some base, [] => get_shape_name g base
  | _, _ => get_shape_name g u
  end.

(** What the first lowering of node shape [u] leaves behind: its complex
    type at the first free address, and on the root whatever the nested
    lowerings appended, then one element per target class, then the
    complex type. *)
Definition fresh_node (g : Graph) (u : term) (st st' : state) : Prop :=
  let ct := length (elements st) in
  ∃ r0 r1 inner elems,
    xsd_root st = Some r0 ∧ xsd_root st' = Some r1 ∧
    children r1 = children r0 ++ inner ++ elems ++ [ct] ∧
    length elems = length (objects g u (NS.sh "targetClass")) ∧
    Forall (λ i, ct < i) (inner ++ elems) ∧
    Forall (λ i, elements st' !! i = Some (target_element g u (top_type g u st'))) elems ∧
    ET.tag_of ct (elements st') = NS.q "complexType" ∧
    (∀ base rest, objects g u (NS.sh "node") = base :: rest →
                  base ≠ u → base ∉ processed_shapes st →
                  is_Some (node_shape_map st' !! base)).

Record node_post (g : Graph) (u : term) (st : state) (r : option nat) (st' : state)
  : Prop := mkNodePost {
  np_track : track g (length (elements st)) (length (elements st)) st st';
  np_done : u ∈ processed_shapes st';
  np_result : r = node_shape_map st' !! u;
  np_cached : u ∈ processed_shapes st → st' = st;
  np_fresh : u ∉ processed_shapes st →
             r = Some (length (elements st)) ∧ fresh_node g u st st'
}.

Lemma enough_mono g w N fuel fuel' st st' :
  enough g w N fuel st → processed_shapes st ⊆ processed_shapes st' → fuel ≤ fuel' →
  enough g w N fuel' st'.
Proof.
  intros (Hw & HN & Hf) Hsub Hle. split; [done|]. split; [done|].
  assert (size (N ∖ processed_shapes st') ≤ size (N ∖ processed_shapes st)).
  { apply subseteq_size. set_solver. }
  lia.
Qed.

Lemma enough_step g w N fuel st st' u :
  enough g w N (S fuel) st → u ∈ N → u ∉ processed_shapes st →
  {[u]} ∪ processed_shapes st ⊆ processed_shapes st' →
  enough g w N fuel st'.
Proof.
  intros (Hw & HN & Hf) HuN Hu Hsub. split; [done|]. split; [done|].
  assert (size (N ∖ processed_shapes st') < size (N ∖ processed_shapes st)).
  { apply subset_size. set_solver. }
  lia.
Qed.

Lemma raises_ok_track g n b st st' :
  track g n b st st' → raises_ok g st → raises_ok g st'.
Proof.
  intros [[_ _ _ _ G] _] [[r Hr] Hm]. split; [|done].
  unfold root_grows in G. rewrite Hr in G. destruct (xsd_root st'); [eauto | done].
Qed.

Lemma track_trans g n n' b b' s0 s1 s2 :
  n ≤ n' → b ≤ b' → track g n b s0 s1 → track g n' b' s1 s2 → track g n b s0 s2.
Proof.
  intros Hn Hb [E1 _] [E2 I2]. split; [by eapply evolves_trans | done].
Qed.

Section NodeShape.
Variables (g : Graph) (fuel : nat) (lower : term → M (option nat)).

(** the recursive call behaves as a lowering with [fuel] left *)
Hypothesis Hlower : ∀ v s, inv g s →
  wp (lower v) s (node_post g v s) (¬ raises_ok g s)
     (∀ w N, enough g w N fuel s → v ∈ N → False).

Lemma enough_walk w N s x p l :
  enough g w N fuel s → l ∈ objects g x p →
  ∃ items, get_rdf_list_items fuel g l = Some items.
Proof.
  intros (Hw & _ & Hf) Hl. eapply walks_finite_walk; [done.. | lia].
Qed.

Lemma process_rdf_list_wp l p s x q :
  inv g s → p < length (elements s) → l ∈ objects g x q →
  wp (process_rdf_list g lower fuel l p) s
     (λ _ s', track g p (length (elements s)) s s' ∧
              ∀ items, get_rdf_list_items fuel g l = Some items →
                       Forall (λ i, i ∈ processed_shapes s') items)
     (¬ raises_ok g s) (∀ w N, enough g w N fuel s → False).
Proof.
  intros Hinv Hp Hl. unfold process_rdf_list.
  apply wp_bind, wp_of_walk.
  2:{ intros Hnone w N Hen. destruct (enough_walk _ _ _ _ _ _ Hen Hl). congruence. }
  intros items Hitems. cbn beta.
  eapply wp_mono; [| | intros H; exact H | intros H; exact H].
  { apply (wp_for_each_ind items _
             (λ done s', track g p (length (elements s)) s s' ∧
                         Forall (λ i, i ∈ processed_shapes s') done)).
    { split; [by apply track_start | constructor]. }
    intros pre item post s1 Hsplit [Ht Hdone].
    assert (Hitem : item ∈ nodes g).
    { eapply get_rdf_list_items_nodes; [exact Hitems|]. rewrite Hsplit.
      apply elem_of_app. right. left. }
    pose proof (evolves_length _ _ _ _ (tr_ev _ _ _ _ _ Ht)) as Hlen.
    assert (Hstable : ∀ s2 n b, track g n b s1 s2 →
              Forall (λ i, i ∈ processed_shapes s2) pre).
    { intros s2 n b [[Hsub _ _ _ _] _].
      eapply Forall_impl; [exact Hdone|]. cbn. intros i Hi. by apply Hsub. }
    destruct (has_triple g item RDF_type (NS.sh "PropertyShape")).
    - apply wp_bind.
      eapply wp_mono; [apply process_property_shape_wp, (tr_inv _ _ _ _ _ Ht) | | | ].
      2:{ intros H [_ Hm]. auto. }
      2:{ intros H w N (Hw & _ & Hf). apply (H w Hw). lia. }
      intros r s2 Hpost. cbn beta.
      pose proof (pp_track _ _ _ _ _ Hpost) as Ht2.
      assert (Ht' : track g p (length (elements s)) s s2).
      { eapply track_trans; [| |exact Ht|exact Ht2]; lia. }
      assert (Hd' : Forall (λ i, i ∈ processed_shapes s2) (pre ++ [item])).
      { apply Forall_app. split; [by eapply Hstable|]. constructor; [|constructor].
        rewrite (pp_processed _ _ _ _ _ Hpost). set_solver. }
      destruct r as [e|]; [|by apply wp_ret].
      apply wp_on_store. split; [|exact Hd'].
      apply track_store; [exact Ht'|]. by apply grows_append.
    - apply wp_bind.
      eapply wp_mono; [apply Hlower, (tr_inv _ _ _ _ _ Ht) | | | ].
      2:{ intros H Hok. apply H. by eapply raises_ok_track. }
      2:{ intros H w N Hen. apply (H w N).
          - eapply enough_mono; [exact Hen | | done].
            by destruct Ht as [[? _ _ _ _] _].
          - destruct Hen as (_ & HN & _). by apply HN. }
      intros r s2 Hpost. cbn beta.
      pose proof (np_track _ _ _ _ _ Hpost) as Ht2.
      assert (Ht' : track g p (length (elements s)) s s2).
      { eapply track_trans; [| |exact Ht|exact Ht2]; lia. }
      assert (Hd' : Forall (λ i, i ∈ processed_shapes s2) (pre ++ [item])).
      { apply Forall_app. split; [by eapply Hstable|]. constructor; [|constructor].
        apply (np_done _ _ _ _ _ Hpost). }
      pose proof (evolves_length _ _ _ _ (tr_ev _ _ _ _ _ Ht')) as Hlen2.
      destruct r as [e|]; [|by apply wp_ret].
      apply wp_bind, wp_new_elem. intros re h1 Hre.
      pose proof (ET_Element_eq _ _ _ _ Hre) as [Hree Hh1].
      apply wp_bind, wp_on_store, wp_on_store. norm_state.
      split; [|exact Hd'].
      pose proof (track_store g _ _ s s2 h1 Ht') as T1.
      pose proof (track_store g _ _ s _
                    (ET.set re "ref" (get_shape_name g item) h1) (T1 ltac:(
                      eapply grows_Element; [|exact Hre]; lia))) as T2.
      cbn [elements with_elements] in T2.
      assert (Hl1 : length h1 = S (length (elements s2))).
      { rewrite Hh1, length_app. cbn. lia. }
      pose proof (track_store g _ _ s _
                    (ET.append p re (ET.set re "ref" (get_shape_name g item) h1))
                    (T2 ltac:(apply grows_set; lia))) as T3.
      cbn [elements with_elements] in T3. apply T3. by apply grows_append. }
  intros [] s' [Ht Hdone]. split; [done|]. intros items' Hi'. congruence.
Qed.

(** What [process_choice_constraint] does to its parent: one new child,
    at the first free address. *)
Record choice_post (l : term) (p : nat) (is_xone : bool) (s s' : state) : Prop :=
  mkChoicePost {
  cp_track : track g p (length (elements s)) s s';
  cp_parent : ∀ el, elements s !! p = Some el →
                elements s' !! p =
                  Some (mkElem (tag el) (attrib el) (children el ++ [length (elements s)]));
  cp_choice : ∀ items, get_rdf_list_items fuel g l = Some items →
                is_xone = true ∨ are_simple_type_constraints g items = false →
                ET.tag_of (length (elements s)) (elements s') = NS.q "choice" ∧
                Forall (λ i, i ∈ processed_shapes s') items
}.

Lemma choice_branch_wp l p s x q is_xone :
  inv g s → p < length (elements s) → l ∈ objects g x q →
  (∀ items, get_rdf_list_items fuel g l = Some items →
            is_xone = true ∨ are_simple_type_constraints g items = false) →
  wp (choice ← new_elem (ET.SubElement p (NS.q "choice"));
      process_rdf_list g lower fuel l choice) s
     (λ _, choice_post l p is_xone s) (¬ raises_ok g s)
     (∀ w N, enough g w N fuel s → False).
Proof.
  intros Hinv Hp Hl Hcase.
  apply wp_bind, wp_new_elem. intros c h1 Hc.
  destruct (lookup_lt_is_Some_2 _ _ Hp) as [el Hel].
  pose proof (lookup_SubElement _ _ _ _ _ _ Hc Hel) as (Hce & Hp1 & Hc1).
  pose proof (SubElement_fresh _ _ _ _ _ Hc) as [_ Hl1].
  assert (T1 : track g p (length (elements s)) s (with_elements s h1)).
  { apply track_store; [by apply track_start|].
    eapply grows_SubElement; [| |exact Hc]; lia. }
  eapply wp_mono;
    [eapply (process_rdf_list_wp l c (with_elements s h1)); [exact (tr_inv _ _ _ _ _ T1) | | exact Hl] | | | ].
  { norm_state. lia. }
  2:{ intros H Hok. apply H. by eapply raises_ok_track. }
  2:{ intros H w N Hen. apply (H w N). eapply enough_mono; [exact Hen | done | done]. }
  norm_state. intros [] s' [T2 Hdone]. split.
  - eapply track_trans; [| |exact T1|exact T2]; [lia | norm_state; lia].
  - intros el' Hel'. assert (el' = el) as -> by congruence.
    destruct T2 as [[_ _ _ [_ Hsame] _] _]. cbn [elements with_elements] in Hsame.
    rewrite Hsame by lia. by rewrite Hp1, Hce.
  - intros items Hitems _. split; [|by apply Hdone].
    destruct T2 as [[_ _ _ Hg _] _]. cbn [elements with_elements] in Hg.
    rewrite (grows_tag_of _ _ _ _ Hg) by lia.
    rewrite <- Hce. by rewrite (tag_of_lookup _ _ _ Hc1).
Qed.

Lemma process_choice_constraint_wp l p s x q is_xone :
  inv g s → p < length (elements s) → l ∈ objects g x q →
  wp (process_choice_constraint g lower fuel l p is_xone) s
     (λ _, choice_post l p is_xone s) (¬ raises_ok g s)
     (∀ w N, enough g w N fuel s → False).
Proof.
  intros Hinv Hp Hl. unfold process_choice_constraint.
  destruct is_xone; [by eapply choice_branch_wp; eauto|].
  apply wp_bind, wp_of_walk.
  2:{ intros Hnone w N Hen. destruct (enough_walk _ _ _ _ _ _ Hen Hl). congruence. }
  intros items Hitems. cbn beta.
  destruct (are_simple_type_constraints g items) eqn:Hsimple.
  2:{ eapply choice_branch_wp; eauto. intros items' Hi'. right. congruence. }
  apply wp_bind, wp_new_elem. intros sty h1 Hs.
  destruct (lookup_lt_is_Some_2 _ _ Hp) as [el Hel].
  pose proof (lookup_SubElement _ _ _ _ _ _ Hs Hel) as (Hse & Hp1 & Hs1).
  pose proof (SubElement_fresh _ _ _ _ _ Hs) as [_ Hl1].
  apply wp_bind, wp_new_elem. norm_state. intros un h2 Hun.
  pose proof (SubElement_fresh _ _ _ _ _ Hun) as [Hune Hl2].
  apply wp_on_store. norm_state.
  assert (G1 : grows p (elements s) h1).
  { eapply grows_SubElement; [| |exact Hs]; lia. }
  assert (G2 : grows (S p) h1 h2).
  { eapply grows_SubElement; [| |exact Hun]; lia. }
  assert (G3 : grows (S p) h2 (ET.set un "memberTypes"
                                 (PyStr.join " " (member_types g items)) h2)).
  { apply grows_set. lia. }
  split.
  - refine (track_store g _ _ s s _ (track_start _ _ _ _ Hinv) _).
    eapply grows_trans; [reflexivity | exact G1 |].
    eapply grows_weaken; [|eapply grows_trans; [reflexivity | exact G2 | exact G3]]. lia.
  - intros el' Hel'. assert (el' = el) as -> by congruence. norm_state.
    destruct G3 as [_ S3], G2 as [_ S2]. rewrite S3, S2 by lia. by rewrite Hp1, Hse.
  - intros items' Hi' [?|Hf]; [done|]. congruence.
Qed.
End NodeShape.

(** ** The top-level elements of a node shape *)

(** the type attribute lines 161-168 choose, reading the element store [h] *)
Definition code_type (g : Graph) (u : term) (shape_name : string)
    (complex_type : nat) (extension : option nat) (h : store) : string :=
  match extension with
  | Some ext =>
      if forallb (λ child, PyStr.endswith "complexContent" (ET.tag_of child h))
                 (ET.children_of complex_type h)
         && match objects g u (NS.sh "property") with [] => true | _ => false end
      then default "" (ET.get ext "base" h)
      else shape_name
  | None => shape_name
  end.

Lemma ET_set_last h el k v :
  ET.set (length h) k v (h ++ [el]) =
  h ++ [mkElem (tag el) (<[k := v]> (attrib el)) (children el)].
Proof.
  unfold ET.set. rewrite <- (Nat.add_0_r (length h)) at 1. by rewrite alter_app_r.
Qed.

Lemma wp_type_branch g u shape_name ct ext element h s (Q : unit → state → Prop) E D :
  wp (on_store (ET.set element "type" (code_type g u shape_name ct ext h))) s Q E D →
  wp match ext with
     | Some ext =>
         if forallb (λ child, PyStr.endswith "complexContent" (ET.tag_of child h))
                    (ET.children_of ct h)
            && match objects g u (NS.sh "property") with [] => true | _ => false end
         then on_store (ET.set element "type" (default "" (ET.get ext "base" h)))
         else on_store (ET.set element "type" shape_name)
     | None => on_store (ET.set element "type" shape_name)
     end s Q E D.
Proof. unfold code_type. destruct ext; [destruct (_ && _)|]; auto. Qed.

Lemma emit_target_elements_wp g u shape_name ct ext T :
  ∀ s r,
  xsd_root s = Some r →
  (∀ h', same_below (length (elements s)) (elements s) h' →
         code_type g u shape_name ct ext h' = T) →
  wp (emit_target_elements g u shape_name ct ext) s
     (λ _ s',
        let k := length (objects g u (NS.sh "targetClass")) in
        s' = mkState (processed_shapes s)
                     (Some (mkElem (tag r) (attrib r)
                                   (children r ++ seq (length (elements s)) k)))
                     (node_shape_map s) (property_shape_map s)
                     (elements s ++ replicate k (target_element g u T)))
     False False.
Proof.
  unfold emit_target_elements.
  induction (objects g u (NS.sh "targetClass")) as [|tc tcs IH]; intros s r Hr HT.
  - apply wp_ret. cbn. rewrite !app_nil_r. destruct s, r; cbn in *. by subst.
  - cbn [for_each]. apply wp_bind. apply wp_bind, wp_new_elem.
    intros e h1 [-> ->]%ET_Element_eq. apply wp_bind, wp_on_store. norm_state.
    rewrite ET_set_last. cbn [tag attrib children].
    apply wp_bind, wp_gets. norm_state. apply wp_bind, wp_type_branch.
    rewrite (HT (elements s ++ [mkElem (NS.q "element")
                                  (<["name" := get_shape_name g u]> ∅) []])).
    2:{ intros i Hi. by rewrite lookup_app_l. }
    apply wp_on_store. norm_state. rewrite ET_set_last. cbn [tag attrib children].
    unfold wp at 1, root_append. norm_state. rewrite Hr.
    fold (target_element g u T).
    eapply wp_mono; [eapply (IH (mkState _ (Some _) _ _ _) _ eq_refl) | | done | done].
    + norm_state. intros h' Hh'. apply HT. intros i Hi.
      rewrite Hh' by (rewrite length_app; cbn; lia). by rewrite lookup_app_l.
    + norm_state. cbn [tag attrib children]. intros [] s' ->. cbn zeta. f_equal.
      * do 2 f_equal. rewrite <- app_assoc. f_equal. cbn.
        by rewrite length_app, Nat.add_1_r.
      * by rewrite <- app_assoc.
Qed.

Lemma emit_target_elements_noroot g u shape_name ct ext s :
  xsd_root s = None →
  wp (emit_target_elements g u shape_name ct ext) s
     (λ _ s', xsd_root s' = None) True False.
Proof.
  intros Hr. unfold emit_target_elements.
  destruct (objects g u (NS.sh "targetClass")) as [|tc tcs]; [by apply wp_ret|].
  cbn [for_each]. apply wp_bind. apply wp_bind, wp_new_elem. intros e h1 _.
  apply wp_bind, wp_on_store. apply wp_bind, wp_gets. apply wp_bind, wp_type_branch.
  apply wp_on_store. unfold wp, root_append. norm_state. by rewrite Hr.
Qed.

Lemma lookup_ET_set_ne e k v h i : i ≠ e → ET.set e k v h !! i = h !! i.
Proof. intros. unfold ET.set. by rewrite list_lookup_alter_ne. Qed.

Lemma lookup_ET_set_eq e k v h el :
  h !! e = Some el →
  ET.set e k v h !! e = Some (mkElem (tag el) (<[k := v]> (attrib el)) (children el)).
Proof. intros Hel. unfold ET.set. by rewrite list_lookup_alter, decide_True, Hel. Qed.

Lemma lookup_SubElement_other p t h c h' i :
  ET.SubElement p t h = (c, h') → i ≠ p → i < length h → h' !! i = h !! i.
Proof.
  intros [-> ->]%ET_SubElement_eq Hne Hlt. unfold ET.append.
  rewrite list_lookup_alter_ne by done. by rewrite lookup_app_l.
Qed.

Lemma grows_app n h l : n ≤ length h → grows n h (h ++ l).
Proof.
  intros Hn. split.
  - intros i el Hi. exists el. split; [|done]. by apply lookup_app_l_Some.
  - intros i Hi. apply lookup_app_l. lia.
Qed.

Lemma track_weaken g n n' b b' st st' :
  n ≤ n' → b ≤ b' → track g n' b' st st' → track g n b st st'.
Proof. intros Hn Hb [E I]. split; [by eapply evolves_weaken | done]. Qed.

(** several appends to the root at once *)
Lemma track_root_extend g n b st0 st r new :
  track g n b st0 st → xsd_root st = Some r →
  Forall (λ i, b ≤ i ∧ top_level (elements st) i) new →
  track g n b st0 (mkState (processed_shapes st)
                           (Some (mkElem (tag r) (attrib r) (children r ++ new)))
                           (node_shape_map st) (property_shape_map st) (elements st)).
Proof.
  intros [[P N R S G] [IP ID IPD IR]] Hr Hnew. split; [split | split]; cbn; auto.
  - unfold root_grows in *. cbn. rewrite Hr in G. destruct (xsd_root st0) as [r0|]; [|done].
    destruct G as (T & A & new0 & C & F). repeat split; try done.
    exists (new0 ++ new). split; [by rewrite C, app_assoc|].
    apply Forall_app. split; [done|].
    eapply Forall_impl; [exact Hnew|]. cbn. intros i [? [? _]]. lia.
  - intros r' [= <-]. cbn. apply Forall_app. split; [by apply IR|].
    eapply Forall_impl; [exact Hnew|]. cbn. by intros i [_ ?].
Qed.

Section NodeBody.
Variables (g : Graph) (fuel : nat) (lower : term → M (option nat)).

Hypothesis Hlower : ∀ v s, inv g s →
  wp (lower v) s (node_post g v s) (¬ raises_ok g s)
     (∀ w N, enough g w N fuel s → v ∈ N → False).

Variables (u : term) (st0 : state).
Hypothesis Hinv0 : inv g st0.
Hypothesis Hu0 : u ∉ processed_shapes st0.

Local Abbreviation ct := (length (elements st0)).
Local Abbreviation shape_name := (get_shape_name g u).
Local Abbreviation NoRaise := (¬ raises_ok g st0).
Local Abbreviation NoDiverge := (∀ w N, enough g w N (S fuel) st0 → u ∈ N → False).

(** the complex type while only its name is set *)
Definition bare_type : Elem :=
  mkElem (NS.q "complexType") (<["name" := shape_name]> ∅) [].

(** What holds of the converter while [u] is being lowered. *)
Record body_inv (s : state) : Prop := mkBodyInv {
  bi_track : track g ct (S ct) st0 s;
  bi_u : u ∈ processed_shapes s;
  bi_nsm : node_shape_map s !! u = None;
  bi_len : ct < length (elements s);
  bi_tag : ET.tag_of ct (elements s) = NS.q "complexType"
}.

Lemma body_inv_sub s s' n b :
  body_inv s → track g n b s s' → ct ≤ n → S ct ≤ b → body_inv s'.
Proof.
  intros [T U N L G] T' Hn Hb. pose proof (tr_ev _ _ _ _ _ T') as E'.
  pose proof (evolves_length _ _ _ _ E'). split.
  - eapply track_trans; [| |exact T|exact T']; lia.
  - by apply (ev_processed _ _ _ _ E').
  - by rewrite (ev_nodes _ _ _ _ E') by done.
  - lia.
  - by rewrite (grows_tag_of _ _ _ _ (ev_store _ _ _ _ E')).
Qed.

Lemma body_inv_store s h :
  body_inv s → grows ct (elements s) h → body_inv (with_elements s h).
Proof.
  intros [T U N L G] Hg. pose proof (grows_length _ _ _ Hg). split; norm_state; try done.
  - by apply track_store.
  - lia.
  - by rewrite (grows_tag_of _ _ _ _ Hg).
Qed.

Lemma body_inv_raise s : body_inv s → ¬ raises_ok g s → NoRaise.
Proof. intros [T _ _ _ _] H Hok. apply H. by eapply raises_ok_track. Qed.

Lemma body_inv_diverge s :
  body_inv s → (∀ w N, enough g w N fuel s → False) → NoDiverge.
Proof.
  intros [T U _ _ _] H w N Hen HuN. apply (H w N).
  eapply enough_step; [exact Hen | done | done |].
  destruct T as [[Hsub _ _ _ _] _]. set_solver.
Qed.

(** What is known of the extension once [extend_base] is through. *)
Definition ext_fact (ext : option nat) (s : state) : Prop :=
  match ext with
  | Some e =>
      ct < e < length (elements s) ∧
      ∃ base rest,
        objects g u (NS.sh "node") = base :: rest ∧ base ≠ u ∧
        base ∈ processed_shapes s ∧ is_Some (node_shape_map s !! base) ∧
        (objects g u (NS.sh "property") = [] →
         ET.get e "base" (elements s) = Some (get_shape_name g base) ∧
         ∃ cc, elements s !! ct =
                 Some (mkElem (NS.q "complexType") (<["name" := shape_name]> ∅) [cc]) ∧
               cc < length (elements s) ∧
               ET.tag_of cc (elements s) = NS.q "complexContent")
  | None =>
      objects g u (NS.sh "node") = [] ∨
      ∃ base rest,
        objects g u (NS.sh "node") = base :: rest ∧
        (base = u ∨ base ∈ processed_shapes st0) ∧
        base ∈ processed_shapes s ∧ node_shape_map s !! base = None
  end.

Lemma extend_base_wp s :
  body_inv s → elements s !! ct = Some bare_type →
  processed_shapes s = {[u]} ∪ processed_shapes st0 →
  wp (extend_base g lower u ct) s
     (λ ext s', body_inv s' ∧ ext_fact ext s') NoRaise NoDiverge.
Proof.
  intros Hb Hct Hproc0. unfold extend_base.
  destruct (objects g u (NS.sh "node")) as [|base rest] eqn:Hnode.
  { apply wp_ret. split; [done | by left]. }
  apply wp_bind.
  eapply wp_mono; [apply Hlower, (tr_inv _ _ _ _ _ (bi_track _ Hb)) | | | ].
  2:{ by apply body_inv_raise. }
  2:{ intros H. apply (body_inv_diverge s Hb). intros w N Hen. apply (H w N Hen).
      destruct Hen as (_ & HN & _). apply HN. eapply objects_nodes.
      rewrite Hnode. left. }
  intros r s1 Hpost. cbn beta.
  pose proof (np_track _ _ _ _ _ Hpost) as T1.
  pose proof (bi_len _ Hb) as Hlen.
  assert (Hb1 : body_inv s1) by (eapply body_inv_sub; [exact Hb | exact T1 | lia | lia]).
  assert (Hct1 : elements s1 !! ct = Some bare_type).
  { destruct T1 as [[_ _ _ [_ Hsame] _] _]. by rewrite Hsame. }
  destruct r as [bt|].
  2:{ apply wp_ret. split; [done|]. right. exists base, rest. split; [done|].
      split.
      { destruct (decide (base ∈ processed_shapes s)) as [Hin|Hnin].
        - rewrite Hproc0 in Hin. set_solver.
        - by destruct (np_fresh _ _ _ _ _ Hpost Hnin) as [? _]. }
      split; [apply (np_done _ _ _ _ _ Hpost) | symmetry; apply (np_result _ _ _ _ _ Hpost)]. }
  assert (Hbase : base ≠ u).
  { intros ->. pose proof (np_result _ _ _ _ _ Hpost) as Hr.
    rewrite (bi_nsm _ Hb1) in Hr. done. }
  apply wp_bind, wp_new_elem. intros cc h1 Hcc.
  pose proof (lookup_SubElement _ _ _ _ _ _ Hcc Hct1) as (Hcce & Hct2 & Hcc2).
  pose proof (SubElement_fresh _ _ _ _ _ Hcc) as [_ Hl1].
  apply wp_bind, wp_new_elem. norm_state. intros e h2 He.
  pose proof (lookup_SubElement _ _ _ _ _ _ He Hcc2) as (Hee & Hcc3 & He3).
  pose proof (SubElement_fresh _ _ _ _ _ He) as [_ Hl2].
  apply wp_bind, wp_on_store, wp_ret. norm_state.
  pose proof (bi_len _ Hb1) as Hlen1.
  assert (G1 : grows ct (elements s1) h1).
  { eapply grows_SubElement; [| |exact Hcc]; lia. }
  assert (G2 : grows ct h1 h2).
  { eapply grows_SubElement; [| |exact He]; lia. }
  assert (G3 : grows ct h2 (ET.set e "base" (get_shape_name g base) h2)).
  { apply grows_set. lia. }
  split.
  - apply (body_inv_store s1 _ Hb1).
    eapply grows_trans; [reflexivity | exact G1 |].
    eapply grows_trans; [reflexivity | exact G2 | exact G3].
  - cbn [ext_fact]. norm_state. rewrite length_ET_set. split; [lia|].
    exists base, rest. split; [done|]. split; [done|].
    split; [apply (np_done _ _ _ _ _ Hpost)|].
    split; [rewrite <- (np_result _ _ _ _ _ Hpost); eauto|].
    intros _. split.
    + unfold ET.get. rewrite (lookup_ET_set_eq _ _ _ _ _ He3). cbn.
      by rewrite lookup_insert_eq.
    + exists cc. rewrite lookup_ET_set_ne by lia.
      rewrite (lookup_SubElement_other _ _ _ _ _ _ He) by lia.
      split; [by rewrite Hct2|]. split; [lia|].
      unfold ET.tag_of. rewrite lookup_ET_set_ne by lia. by rewrite Hcc3.
Qed.

Lemma ext_fact_track ext s s' n b :
  ext_fact ext s → track g n b s s' →
  (objects g u (NS.sh "property") = [] → ∀ e, ext = Some e →
     ct < n ∧ ∀ el, elements s !! e = Some el →
                    ∃ el', elements s' !! e = Some el' ∧ attrib el' = attrib el) →
  ext_fact ext s'.
Proof.
  intros Hf T Hattr. pose proof (tr_ev _ _ _ _ _ T) as E.
  pose proof (evolves_length _ _ _ _ E) as Hlen.
  destruct ext as [e|]; cbn [ext_fact] in *.
  - destruct Hf as (He & base & rest & Hnode & Hbase & Hproc & Hsome & Hprops).
    split; [lia|]. exists base, rest. split; [done|]. split; [done|].
    split; [by apply (ev_processed _ _ _ _ E)|].
    split; [by rewrite (ev_nodes _ _ _ _ E)|].
    intros Hno. destruct (Hprops Hno) as (Hget & cc & Hct & Hcc & Htag).
    destruct (Hattr Hno e eq_refl) as (Hn & Hel).
    split.
    + unfold ET.get in *. destruct (elements s !! e) as [el|] eqn:Helq; [|done].
      destruct (Hel el eq_refl) as (el' & -> & Ha). cbn in *. by rewrite Ha.
    + exists cc. split; [|split; [lia|]].
      * destruct (ev_store _ _ _ _ E) as [_ Hsame]. by rewrite Hsame.
      * by rewrite (grows_tag_of _ _ _ _ (ev_store _ _ _ _ E)).
  - destruct Hf as [Hf|(base & rest & Hnode & Hwas & Hproc & Hnone)]; [by left|].
    right. exists base, rest. split; [done|]. split; [done|].
    split; [by apply (ev_processed _ _ _ _ E)|]. by rewrite (ev_nodes _ _ _ _ E).
Qed.

Lemma ext_fact_store ext s h :
  ext_fact ext s → inv g s → grows ct (elements s) h →
  objects g u (NS.sh "property") ≠ [] →
  ext_fact ext (with_elements s h).
Proof.
  intros Hf Hinv Hg Hprops.
  apply (ext_fact_track ext s (with_elements s h) ct 0 Hf); [|done].
  apply track_store; [by apply track_start | done].
Qed.

Definition container_of (ext : option nat) : nat :=
  match ext with Some e => e | None => ct end.

Lemma container_bounds ext s :
  body_inv s → ext_fact ext s → ct ≤ container_of ext < length (elements s).
Proof.
  intros Hb Hf. pose proof (bi_len _ Hb).
  destruct ext as [e|]; cbn in *; [destruct Hf as [? _]|]; lia.
Qed.

Lemma choice_step_wp ext s l x q is_xone :
  body_inv s → ext_fact ext s → l ∈ objects g x q →
  wp (process_choice_constraint g lower fuel l (container_of ext) is_xone) s
     (λ _ s', body_inv s' ∧ ext_fact ext s') NoRaise NoDiverge.
Proof.
  intros Hb Hf Hl. pose proof (container_bounds _ _ Hb Hf) as Hc.
  eapply wp_mono;
    [eapply (process_choice_constraint_wp g fuel lower Hlower l (container_of ext) s x q);
       [exact (tr_inv _ _ _ _ _ (bi_track _ Hb)) | lia | exact Hl] | | | ].
  2:{ by apply body_inv_raise. }
  2:{ by apply body_inv_diverge. }
  intros [] s' [T P _]. split.
  - eapply body_inv_sub; [exact Hb | exact T | lia | lia].
  - eapply ext_fact_track; [exact Hf | exact T |].
    intros _ e ->. cbn [container_of] in *. destruct Hf as [He _]. split; [lia|].
    intros el Hel. eexists. split; [by apply P | done].
Qed.

Lemma lower_properties_wp ext s :
  body_inv s → ext_fact ext s →
  wp (lower_properties g fuel u ct ext) s
     (λ _ s', body_inv s' ∧ ext_fact ext s') NoRaise NoDiverge.
Proof.
  intros Hb Hf. unfold lower_properties.
  destruct (objects g u (NS.sh "property")) as [|prop props] eqn:Hprops;
    [by apply wp_ret|].
  assert (Hne : objects g u (NS.sh "property") ≠ []) by (by rewrite Hprops).
  clear Hprops. revert Hne. generalize (prop :: props). clear prop props.
  intros props Hne. fold (container_of ext).
  pose proof (container_bounds _ _ Hb Hf) as Hc.
  apply wp_bind.
  (* the group the elements go to *)
  assert (Hgroup : ∀ (Q : nat → state → Prop),
            (∀ c s1, body_inv s1 → ext_fact ext s1 → ct ≤ c → Q c s1) →
            wp match objects g u (NS.sh "xone"), objects g u (NS.sh "or") with
               | [], [] => new_elem (ET.SubElement (container_of ext) (NS.q "all"))
               | _, _ => mret (container_of ext)
               end s Q NoRaise NoDiverge).
  { intros Q HQ.
    destruct (objects g u (NS.sh "xone")), (objects g u (NS.sh "or"));
      try (apply wp_ret, HQ; [done | done | lia]).
    apply wp_new_elem. intros c h1 Hsub.
    pose proof (SubElement_fresh _ _ _ _ _ Hsub) as [-> _].
    assert (G : grows ct (elements s) h1).
    { eapply grows_SubElement; [| |exact Hsub]; lia. }
    apply HQ; [by apply body_inv_store | | lia].
    apply ext_fact_store; [done | exact (tr_inv _ _ _ _ _ (bi_track _ Hb)) | done | done]. }
  apply Hgroup. clear Hgroup Hb Hf Hc s. intros c s Hb Hf Hc. cbn beta.
  apply (wp_for_each props _ (λ s', body_inv s' ∧ ext_fact ext s')); [done|].
  clear Hb Hf s. intros prop s _ [Hb Hf].
  apply wp_bind.
  eapply wp_mono;
    [apply process_property_shape_wp, (tr_inv _ _ _ _ _ (bi_track _ Hb)) | | | ].
  2:{ intros H [_ Hm]. auto. }
  2:{ intros H w N (Hw & _ & Hlt) _. apply (H w Hw). lia. }
  intros r s1 Hpost. cbn beta. pose proof (pp_track _ _ _ _ _ Hpost) as T.
  pose proof (bi_len _ Hb) as Hlen.
  assert (Hb1 : body_inv s1) by (eapply body_inv_sub; [exact Hb | exact T | lia | lia]).
  assert (Hf1 : ext_fact ext s1).
  { eapply ext_fact_track; [exact Hf | exact T |]. intros Hno. done. }
  destruct r as [e|]; [|by apply wp_ret].
  apply wp_bind, wp_gets. cbn beta.
  assert (Happ : ∀ p, ct ≤ p →
            wp (on_store (ET.append p e)) s1 (λ _ s', body_inv s' ∧ ext_fact ext s')
               NoRaise NoDiverge).
  { intros p Hp. apply wp_on_store.
    assert (G : grows ct (elements s1) (ET.append p e (elements s1)))
      by (by apply grows_append).
    split; [by apply body_inv_store|].
    apply ext_fact_store; [done | exact (tr_inv _ _ _ _ _ T) | done | done]. }
  destruct (PyStr.endswith "element" _); [by apply Happ|].
  destruct (PyStr.endswith "attribute" _); [by apply Happ | by apply wp_ret].
Qed.

(** the type the code computes is the one [top_type] names *)
Lemma code_type_top_type ext s s' h' :
  body_inv s → ext_fact ext s →
  node_shape_map s' = <[u := ct]> (node_shape_map s) →
  same_below (length (elements s)) (elements s) h' →
  code_type g u shape_name ct ext h' = top_type g u s'.
Proof.
  intros Hb Hf Hnsm Hsame. pose proof (bi_len _ Hb) as Hlen.
  unfold code_type, top_type, extension_base. rewrite Hnsm.
  destruct ext as [e|]; cbn [ext_fact] in Hf.
  - destruct Hf as (He & base & rest & Hnode & Hbase & Hproc & Hsome & Hprops).
    rewrite Hnode, decide_True by (by rewrite lookup_insert_ne).
    destruct (objects g u (NS.sh "property")) as [|pr prs];
      [|by rewrite andb_false_r].
    destruct (Hprops eq_refl) as (Hget & cc & Hct & Hcc & Htag).
    unfold ET.children_of, ET.get, ET.tag_of in *.
    rewrite !Hsame by lia. rewrite Hct. cbn [children forallb].
    rewrite Hsame by lia. rewrite Htag.
    destruct (elements s !! e) as [el|]; [|done]. cbn in Hget |- *.
    by rewrite Hget.
  - destruct Hf as [->|(base & rest & -> & _ & Hproc & Hnone)]; [done|].
    rewrite decide_False; [done|]. intros [Hne [x Hx]].
    rewrite lookup_insert_ne in Hx by done. congruence.
Qed.

(** the first lowering of [u] *)
Lemma lower_fresh_wp :
  wp (process_node_shape_body g lower fuel u) st0 (node_post g u st0) NoRaise NoDiverge.
Proof.
  unfold process_node_shape_body. apply wp_bind, wp_gets. cbn beta.
  rewrite decide_False by done.
  apply wp_bind, wp_modify. apply wp_bind, wp_new_elem. norm_state.
  intros c h0 [-> ->]%ET_Element_eq.
  apply wp_bind, wp_on_store. norm_state. rewrite ET_set_last. cbn [tag attrib children].
  fold bare_type. flat_state.
  set (sa := mkState ({[u]} ∪ processed_shapes st0) (xsd_root st0) (node_shape_map st0)
                     (property_shape_map st0) (elements st0 ++ [bare_type])).
  assert (Hba : body_inv sa).
  { split; subst sa; norm_state.
    - refine (track_store g _ _ st0 _ _ (track_reserve g _ _ st0 st0 u
                (track_start _ _ _ _ Hinv0)) _).
      norm_state. by apply grows_snoc.
    - set_solver.
    - destruct (node_shape_map st0 !! u) as [x|] eqn:Hx; [|done].
      by apply (inv_dom _ _ Hinv0) in Hx.
    - rewrite length_app. cbn. lia.
    - unfold ET.tag_of. by rewrite list_lookup_middle. }
  assert (Hcta : elements sa !! ct = Some bare_type).
  { subst sa. norm_state. by rewrite list_lookup_middle. }
  apply wp_bind.
  assert (Hpa : processed_shapes sa = {[u]} ∪ processed_shapes st0) by done.
  clearbody sa.
  eapply wp_mono; [by apply extend_base_wp | | auto | auto].
  clear sa Hba Hcta Hpa. intros ext s [Hb Hf]. cbn beta.
  fold (container_of ext).
  (* sh:xone *)
  apply wp_bind.
  assert (Hxone : wp match objects g u (NS.sh "xone") with
                     | xone :: _ =>
                         process_choice_constraint g lower fuel xone (container_of ext) true
                     | [] => mret tt
                     end s (λ _ s', body_inv s' ∧ ext_fact ext s') NoRaise NoDiverge).
  { destruct (objects g u (NS.sh "xone")) as [|xone ?] eqn:Hx; [by apply wp_ret|].
    eapply (choice_step_wp ext s xone u (NS.sh "xone")); [done | done |].
    rewrite Hx. left. }
  eapply wp_mono; [exact Hxone | | auto | auto].
  clear s Hb Hf Hxone. intros [] s [Hb Hf]. cbn beta.
  (* sh:or *)
  apply wp_bind.
  assert (Hor : wp match objects g u (NS.sh "or") with
                   | or_node :: _ =>
                       process_choice_constraint g lower fuel or_node (container_of ext) false
                   | [] => mret tt
                   end s (λ _ s', body_inv s' ∧ ext_fact ext s') NoRaise NoDiverge).
  { destruct (objects g u (NS.sh "or")) as [|or_node ?] eqn:Hx; [by apply wp_ret|].
    eapply (choice_step_wp ext s or_node u (NS.sh "or")); [done | done |].
    rewrite Hx. left. }
  eapply wp_mono; [exact Hor | | auto | auto].
  clear s Hb Hf Hor. intros [] s [Hb Hf]. cbn beta.
  (* sh:property *)
  apply wp_bind.
  eapply wp_mono; [by apply lower_properties_wp | | auto | auto].
  clear s Hb Hf. intros [] s [Hb Hf]. cbn beta.
  (* registry, target classes, root *)
  apply wp_bind, wp_modify. apply wp_bind.
  set (se := mkState (processed_shapes s) (xsd_root s)
                     (<[u := ct]> (node_shape_map s)) (property_shape_map s) (elements s)).
  pose proof (bi_track _ Hb) as T. pose proof (bi_len _ Hb) as Hlen.
  destruct (xsd_root s) as [rd|] eqn:Hrd.
  2:{ assert (HE : NoRaise).
      { intros Hok. pose proof (raises_ok_track _ _ _ _ _ T Hok) as [[? Hr] _]. congruence. }
      eapply wp_mono; [by apply emit_target_elements_noroot | | auto | done].
      intros [] s1 Hr1. cbn beta. apply wp_bind.
      unfold wp, root_append. by rewrite Hr1. }
  set (k := length (objects g u (NS.sh "targetClass"))).
  set (te := target_element g u (top_type g u se)).
  eapply wp_mono;
    [apply (emit_target_elements_wp g u shape_name ct ext (top_type g u se) se rd eq_refl)
    | | done | done].
  { intros h' Hh'. by apply (code_type_top_type ext s se h'). }
  subst se. norm_state. cbn zeta. fold k. fold te. intros [] s1 ->. cbn beta.
  apply wp_bind. unfold wp at 1, root_append. norm_state. cbn [tag attrib children].
  apply wp_ret.
  (* the final state *)
  set (h1 := elements s ++ replicate k te).
  assert (G1 : grows ct (elements s) h1) by (apply grows_app; lia).
  assert (Hte : ∀ i, i ∈ seq (length (elements s)) k → h1 !! i = Some te).
  { intros i [Hi1 Hi2]%elem_of_seq. subst h1.
    rewrite lookup_app_r by lia. apply lookup_replicate. split; [done | lia]. }
  assert (Htag : ET.tag_of ct h1 = NS.q "complexType").
  { rewrite (grows_tag_of _ _ _ _ G1) by lia. apply (bi_tag _ Hb). }
  assert (Hlen1 : length h1 = length (elements s) + k).
  { subst h1. by rewrite length_app, length_replicate. }
  assert (T1 : track g ct ct st0
                 (mkState (processed_shapes s) (Some rd) (<[u := ct]> (node_shape_map s))
                          (property_shape_map s) h1)).
  { pose proof (track_weaken g ct ct ct (S ct) st0 s (Nat.le_refl _)
                  (Nat.le_succ_diag_r _) T) as Ta.
    pose proof (track_store_node g ct ct st0 s u ct Ta Hu0 (bi_u _ Hb)) as Tb.
    pose proof (track_store g ct ct st0 _ h1 Tb G1) as Tc.
    unfold with_elements in Tc.
    cbn [elements processed_shapes xsd_root node_shape_map property_shape_map] in Tc.
    by rewrite Hrd in Tc. }
  pose proof (track_root_extend g ct ct st0 _ rd (seq (length (elements s)) k ++ [ct])
                T1 eq_refl) as T2.
  cbn [elements processed_shapes xsd_root node_shape_map property_shape_map] in T2.
  norm_state. rewrite <- app_assoc.
  split.
  - apply T2. apply Forall_app. split.
    + apply Forall_forall. intros i Hi. pose proof (Hte i Hi) as Hl.
      apply elem_of_seq in Hi. split; [lia|]. split; [lia|]. left.
      by rewrite (tag_of_lookup _ _ _ Hl).
    + constructor; [|done]. split; [done|]. split; [lia | by right].
  - norm_state. apply (bi_u _ Hb).
  - norm_state. by rewrite lookup_insert_eq.
  - done.
  - intros _. split; [done|]. unfold fresh_node. norm_state.
    destruct T as [[_ _ _ _ G] _]. unfold root_grows in G. rewrite Hrd in G.
    destruct (xsd_root st0) as [r0|]; [|done].
    destruct G as (_ & _ & inner & Hch & Hin).
    eexists r0, _, inner, (seq (length (elements s)) k).
    split; [done|]. split; [reflexivity|]. cbn [children].
    split; [by rewrite Hch, <- !app_assoc|].
    split; [by rewrite length_seq|].
    split.
    { apply Forall_app. split.
      - eapply Forall_impl; [exact Hin|]. cbn. lia.
      - apply Forall_forall. intros i [? ?]%elem_of_seq. lia. }
    split; [apply Forall_forall; intros i Hi; by apply Hte|].
    split; [done|].
    intros base rest Hnode Hne Hnin. destruct ext as [e|]; cbn [ext_fact] in Hf.
    + destruct Hf as (_ & base' & rest' & Hnode' & _ & _ & Hsome & _).
      assert (base' = base) as -> by congruence. by rewrite lookup_insert_ne.
    + destruct Hf as [Hf|(base' & rest' & Hnode' & Hwas & _)]; [congruence|].
      assert (base' = base) as -> by congruence. by destruct Hwas.
Qed.
End NodeBody.

(** ** The lowering, for any fuel *)

Lemma process_node_shape_body_wp g fuel lower u st :
  (∀ v s, inv g s →
     wp (lower v) s (node_post g v s) (¬ raises_ok g s)
        (∀ w N, enough g w N fuel s → v ∈ N → False)) →
  inv g st →
  wp (process_node_shape_body g lower fuel u) st (node_post g u st) (¬ raises_ok g st)
     (∀ w N, enough g w N (S fuel) st → u ∈ N → False).
Proof.
  intros Hlower Hinv. destruct (decide (u ∈ processed_shapes st)) as [Hu|Hu].
  - unfold process_node_shape_body. apply wp_bind, wp_gets. cbn beta.
    rewrite decide_True by done. apply wp_gets. split; try done.
    by apply track_start.
  - by apply lower_fresh_wp.
Qed.

Lemma process_node_shape_wp g fuel u st :
  inv g st →
  wp (process_node_shape g fuel u) st (node_post g u st) (¬ raises_ok g st)
     (∀ w N, enough g w N fuel st → u ∈ N → False).
Proof.
  revert u st. induction fuel as [|fuel IH]; intros u st Hinv.
  - unfold wp. cbn. intros w N (_ & _ & Hlt) _. lia.
  - cbn [process_node_shape]. by apply process_node_shape_body_wp.
Qed.

(** ** The Schema Emitter's two phases *)

Lemma endswith_element_valid i (h : store) :
  PyStr.endswith "element" (ET.tag_of i h) = true → i < length h.
Proof.
  unfold ET.tag_of. destruct (h !! i) as [el|] eqn:Hel; [|done].
  intros _. by eapply lookup_lt_Some.
Qed.

Lemma lower_node_shapes_wp c fuel s0 :
  inv (SHACL c) s0 →
  wp (lower_node_shapes fuel c) s0
     (λ _ s1, track (SHACL c) 0 0 s0 s1)
     (¬ raises_ok (SHACL c) s0)
     (∀ w, walks_finite w (SHACL c) = true →
           w + size (nodes (SHACL c) ∖ processed_shapes s0) < fuel → False).
Proof.
  intros Hinv. unfold lower_node_shapes.
  apply wp_for_each; [by apply track_start|].
  intros v s Hv T. apply wp_bind.
  eapply wp_mono; [apply process_node_shape_wp, (tr_inv _ _ _ _ _ T) | | | ].
  - intros r s' Hpost. apply wp_ret.
    eapply track_trans; [| |exact T|exact (np_track _ _ _ _ _ Hpost)]; lia.
  - intros H Hok. apply H. by eapply raises_ok_track.
  - intros H w Hw Hlt. apply (H w (nodes (SHACL c))).
    + eapply (enough_mono _ _ _ fuel fuel s0); [done| |done].
      by destruct T as [[? _ _ _ _] _].
    + by eapply subjects_nodes.
Qed.

Lemma lower_standalone_properties_wp c fuel s1 r1 :
  inv (SHACL c) s1 → xsd_root s1 = Some r1 →
  wp (lower_standalone_properties fuel c) s1
     (λ _ st', track (SHACL c) 0 0 s1 st' ∧
               ∃ r pp, xsd_root st' = Some r ∧ children r = children r1 ++ pp ∧
                       Forall (λ i, PyStr.endswith "element"
                                      (ET.tag_of i (elements st')) = true) pp)
     (minCounts_ok (SHACL c) = true → False)
     (∀ w, walks_finite w (SHACL c) = true → w ≤ fuel → False).
Proof.
  intros Hinv Hr1. unfold lower_standalone_properties.
  apply wp_bind, wp_gets. cbn beta.
  apply wp_for_each.
  { split; [by apply track_start|]. exists r1, []. by rewrite app_nil_r. }
  intros v s _ [T (r & pp & Hr & Hch & Hpp)]. apply wp_bind.
  eapply wp_mono; [apply process_property_shape_wp, (tr_inv _ _ _ _ _ T) | | auto | auto].
  intros res s' Hpost. cbn beta.
  pose proof (pp_track _ _ _ _ _ Hpost) as T'.
  assert (T2 : track (SHACL c) 0 0 s1 s') by (eapply track_trans; [| |exact T|exact T']; lia).
  assert (Hpp' : Forall (λ i, PyStr.endswith "element" (ET.tag_of i (elements s')) = true) pp).
  { eapply Forall_impl; [exact Hpp|]. cbn. intros i Hi.
    rewrite (grows_tag_of _ _ _ _ (ev_store _ _ _ _ (tr_ev _ _ _ _ _ T'))); [done|].
    by apply endswith_element_valid. }
  assert (Hkeep : track (SHACL c) 0 0 s1 s' ∧
            ∃ r pp, xsd_root s' = Some r ∧ children r = children r1 ++ pp ∧
                    Forall (λ i, PyStr.endswith "element"
                                   (ET.tag_of i (elements s')) = true) pp).
  { split; [done|]. exists r, pp. by rewrite (pp_root _ _ _ _ _ Hpost). }
  destruct res as [e|]; [|by apply wp_ret].
  apply wp_bind, wp_gets. cbn beta.
  destruct (PyStr.endswith "element" (ET.tag_of e (elements s'))) eqn:He; [|by apply wp_ret].
  unfold wp, root_append. rewrite (pp_root _ _ _ _ _ Hpost), Hr.
  split.
  - apply (track_root_append _ 0 0 s1 s' r e T2); [by rewrite (pp_root _ _ _ _ _ Hpost) | lia |].
    split; [by apply endswith_element_valid | by left].
  - eexists _, (pp ++ [e]). split; [reflexivity|]. cbn.
    split; [by rewrite Hch, app_assoc|]. apply Forall_app. split; [done | by constructor].
Qed.

Lemma inv_create_xsd_root g st r :
  inv g st →
  children r = [] →
  inv g (mkState (processed_shapes st) (Some r) (node_shape_map st)
                 (property_shape_map st) (elements st)).
Proof.
  intros [IP ID IPD IR] Hr. split; cbn; auto.
  intros r' [= <-]. rewrite Hr. constructor.
Qed.

(** ** From [wp] to outcomes *)

Lemma wp_Ok {A} (m : M A) st Q E D a st' :
  wp m st Q E D → m st = Ok a st' → Q a st'.
Proof. unfold wp. intros H Hm. by rewrite Hm in H. Qed.

Lemma wp_total {A} (m : M A) st Q (E D : Prop) :
  wp m st Q E D → ¬ E → ¬ D → ∃ a st', m st = Ok a st' ∧ Q a st'.
Proof. unfold wp. destruct (m st) as [a st'| |]; [eauto | done | done]. Qed.

(** a run that returns, whatever else it may do *)
Lemma wp_returns {A} (m : M A) st Q (E D : Prop) :
  wp m st Q E D → wp m st Q True True.
Proof. intros H. eapply wp_mono; [exact H | done | done | done]. Qed.

(** the moves of [convert], one after the other *)
Lemma convert_steps c fuel st st' :
  convert fuel c st = Ok tt st' →
  ∃ s0 s1, create_xsd_root c st = Ok tt s0 ∧
           lower_node_shapes fuel c s0 = Ok tt s1 ∧
           lower_standalone_properties fuel c s1 = Ok tt st'.
Proof.
  unfold convert, mbind, M_bind.
  destruct (create_xsd_root c st) as [[] s0| |] eqn:H0; [|done|done].
  destruct (lower_node_shapes fuel c s0) as [[] s1| |] eqn:H1; [|done|done].
  intros H. by exists s0, s1.
Qed.

(** a prefix that [ET.register_namespace] refuses stops [create_xsd_root] *)
Lemma create_xsd_root_refused c st :
  refused_prefix c = true → create_xsd_root c st = Raise "ValueError".
Proof. intros H. unfold create_xsd_root. by rewrite H. Qed.

Lemma create_xsd_root_not_refused c st s0 :
  create_xsd_root c st = Ok tt s0 → refused_prefix c = false.
Proof. unfold create_xsd_root. by destruct (refused_prefix c). Qed.

(** the schema element that [create_xsd_root] makes *)
Lemma create_xsd_root_run c st :
  refused_prefix c = false →
  ∃ r0, create_xsd_root c st =
          Ok tt (mkState (processed_shapes st) (Some r0) (node_shape_map st)
                         (property_shape_map st) (elements st)) ∧
        tag r0 = NS.q "schema" ∧ children r0 = [] ∧
        attrib r0 !! "targetNamespace" = Some (xsdTargetNS c) ∧
        attrib r0 !! "xmlns:tns" = Some (tns c) ∧
        attrib r0 !! "elementFormDefault" = Some "qualified" ∧
        attrib r0 !! "attributeFormDefault" = Some "unqualified" ∧
        (if bool_decide (ns_prefix_map c !! "xsd" =
                         Some (PlainStr "http://www.w3.org/2001/XMLSchema"))
         then attrib r0 !! "xmlns:xsd" = Some NS.xs ∧ attrib r0 !! "xmlns:xs" = None
         else attrib r0 !! "xmlns:xs" = Some NS.xs ∧ attrib r0 !! "xmlns:xsd" = None).
Proof.
  intros Hok. unfold create_xsd_root, modify. rewrite Hok.
  eexists. split; [reflexivity|]. cbn [tag children attrib].
  split; [done|]. split; [done|].
  destruct (bool_decide _); by simplify_map_eq.
Qed.

Lemma process_node_shape_total g w N fuel u st :
  inv g st → raises_ok g st → enough g w N fuel st → u ∈ N →
  ∃ r st', process_node_shape g fuel u st = Ok r st' ∧ node_post g u st r st'.
Proof.
  intros Hinv Hok Hen Hu.
  eapply wp_total; [by apply process_node_shape_wp | by intros H | intros H; by apply (H w N)].
Qed.

(** a call on a shape already in the processed-set comes back at once *)
Lemma process_node_shape_seen g fuel u st :
  u ∈ processed_shapes st →
  process_node_shape g (S fuel) u st = Ok (node_shape_map st !! u) st.
Proof.
  intros Hu. cbn [process_node_shape]. unfold process_node_shape_body.
  unfold mbind, M_bind, gets. by rewrite decide_True.
Qed.

Lemma process_property_shape_seen g fuel u st :
  u ∈ processed_shapes st →
  process_property_shape g fuel u st = Ok (property_shape_map st !! u) st.
Proof.
  intros Hu. unfold process_property_shape, mbind, M_bind, gets. by rewrite decide_True.
Qed.

(** ** The rest of a conversion pass *)

(** [later g st st']: [st'] is reached from [st] by further lowering calls. *)
Inductive later (g : Graph) : state → state → Prop :=
| later_now st : later g st st
| later_node st st1 st2 fuel v r :
    later g st st1 → process_node_shape g fuel v st1 = Ok r st2 → later g st st2
| later_property st st1 st2 fuel v r :
    later g st st1 → process_property_shape g fuel v st1 = Ok r st2 → later g st st2.

Lemma later_track g st st2 :
  inv g st → later g st st2 →
  track g (length (elements st)) (length (elements st)) st st2.
Proof.
  intros Hinv. induction 1 as [st|st st1 st2 fuel v r _ IH Hcall|st st1 st2 fuel v r _ IH Hcall].
  - by apply track_start.
  - specialize (IH Hinv).
    pose proof (wp_Ok _ _ _ _ _ _ _ (process_node_shape_wp g fuel v st1 (tr_inv _ _ _ _ _ IH))
                  Hcall) as Hpost.
    pose proof (evolves_length _ _ _ _ (tr_ev _ _ _ _ _ IH)).
    eapply track_trans; [| |exact IH|exact (np_track _ _ _ _ _ Hpost)]; lia.
  - specialize (IH Hinv).
    pose proof (wp_Ok _ _ _ _ _ _ _
                  (process_property_shape_wp g fuel v st1 (tr_inv _ _ _ _ _ IH)) Hcall)
      as Hpost.
    pose proof (evolves_length _ _ _ _ (tr_ev _ _ _ _ _ IH)).
    eapply track_trans; [| |exact IH|exact (pp_track _ _ _ _ _ Hpost)]; lia.
Qed.

(** * Example graphs *)

Module Ex.
Definition ex (l : string) : term := URIRef ("http://example.com/" +:+ l).
Definition A : term := ex "NodeShape/A".
Definition B : term := ex "NodeShape/B".
Definition P : term := ex "PropertyShape/p".
Definition typed_int (lexical : string) (truth : bool) : term :=
  Literal lexical (Some "http://www.w3.org/2001/XMLSchema#integer") None (Some truth).
Definition conv (g : Graph) : converter :=
  mkConverter g ∅ "http://example.com/" "http://example.com/".
(** the converter right after [create_xsd_root] *)
Definition rooted (g : Graph) : state :=
  match create_xsd_root (conv g) init with Ok _ st => st | _ => init end.

(** a node shape whose [sh:xone] list loops back on its own cell *)
Definition looping_list : Graph :=
  [ (A, RDF_type, NS.sh "NodeShape");
    (A, NS.sh "xone", BNode "l");
    (BNode "l", RDF_first, P);
    (BNode "l", RDF_rest, BNode "l") ].

(** two node shapes that name each other as base; [B] has a target class *)
Definition mutual_bases : Graph :=
  [ (A, RDF_type, NS.sh "NodeShape");
    (A, NS.sh "node", B);
    (B, RDF_type, NS.sh "NodeShape");
    (B, NS.sh "node", A);
    (B, NS.sh "targetClass", ex "B") ].

(** a node shape that is its own base *)
Definition self_base : Graph :=
  [ (A, RDF_type, NS.sh "NodeShape");
    (A, NS.sh "node", A) ].

(** two node shapes with a target class each, and a stand-alone property *)
Definition two_targets : Graph :=
  [ (A, RDF_type, NS.sh "NodeShape");
    (A, NS.sh "targetClass", ex "A");
    (B, RDF_type, NS.sh "NodeShape");
    (B, NS.sh "targetClass", ex "B");
    (P, RDF_type, NS.sh "PropertyShape");
    (P, NS.sh "path", ex "p") ].

(** what a run returned, and the converter it left *)
Definition value_of {A} (r : result A) : option A :=
  match r with Ok a _ => Some a | _ => None end.
Definition state_of {A} (r : result A) : state :=
  match r with Ok _ st => st | _ => init end.
Definition root_children (st : state) : list nat :=
  match xsd_root st with Some r => children r | None => [] end.
(** the converter after [convert] on graph [g] *)
Definition converted (g : Graph) : state := state_of (convert 5 (conv g) init).

Lemma result_eq {A} (r : result A) a :
  value_of r = Some a → r = Ok a (state_of r).
Proof. destruct r; cbn; congruence. Qed.

Lemma inv_rooted g : inv g (rooted g).
Proof. apply (inv_create_xsd_root g init _ (inv_init g)). reflexivity. Qed.
End Ex.

(** * Cycle containment (C4) *)

Lemma looping_list_walk fuel :
  get_rdf_list_items fuel Ex.looping_list (BNode "l") = None.
Proof.
  induction fuel as [|fuel IH]; [done|].
  change (get_rdf_list_items (S fuel) Ex.looping_list (BNode "l"))
    with (app [Ex.P] <$> get_rdf_list_items fuel Ex.looping_list (BNode "l")).
  by rewrite IH.
Qed.

(** C4, as stated, fails: lowering the node shape of [Ex.looping_list], whose
    sh:xone list has a cell that is its own rest, does not come back for any
    amount of fuel: the list walk in [get_rdf_list_items] never reaches the
    terminator. *)
Lemma looping_list_never_returns :
  value Ex.looping_list (BNode "l") RDF_rest = Some (BNode "l") ∧
  ∀ fuel, process_node_shape Ex.looping_list fuel Ex.A init = Diverge.
Proof.
  split; [reflexivity|]. intros [|fuel]; [done|].
  cbn [process_node_shape]. unfold process_node_shape_body.
  change (objects Ex.looping_list Ex.A (NS.sh "xone")) with [BNode "l"].
  change (objects Ex.looping_list Ex.A (NS.sh "node")) with (@nil term).
  unfold extend_base, process_choice_constraint, process_rdf_list.
  change (objects Ex.looping_list Ex.A (NS.sh "node")) with (@nil term).
  rewrite looping_list_walk. reflexivity.
Qed.

(** C4, amended: on every shape graph whose list walks end (within [w]
    rounds), lowering a node shape comes back once the fuel covers the walks
    and one level of recursion per shape not yet processed, whatever cycles
    the sh:node references form; and a call on a shape that is already in the
    processed-set returns at once without touching the converter. *)
Theorem lowering_terminates g w u st fuel :
  walks_finite w g = true → inv g st →
  w + size ((nodes g ∪ {[u]}) ∖ processed_shapes st) < fuel →
  process_node_shape g fuel u st ≠ Diverge ∧
  (u ∈ processed_shapes st →
   process_node_shape g fuel u st = Ok (node_shape_map st !! u) st).
Proof.
  intros Hw Hinv Hfuel. split.
  - pose proof (process_node_shape_wp g fuel u st Hinv) as H. unfold wp in H.
    intros Hd. rewrite Hd in H. apply (H w (nodes g ∪ {[u]})); [|set_solver].
    split; [done|]. split; [set_solver | done].
  - intros Hu. destruct fuel as [|fuel]; [lia|]. by apply process_node_shape_seen.
Qed.

Lemma lowering_terminates_witness :
  walks_finite 1 Ex.mutual_bases = true ∧
  1 + size ((nodes Ex.mutual_bases ∪ {[Ex.A]}) ∖ processed_shapes init) < 6 ∧
  process_node_shape Ex.mutual_bases 6 Ex.A init ≠ Diverge.
Proof.
  split; [vm_compute; reflexivity|]. split; [vm_compute; lia|].
  apply (lowering_terminates Ex.mutual_bases 1 Ex.A init 6).
  - vm_compute; reflexivity.
  - apply inv_init.
  - vm_compute; lia.
Defined.

(** * Idempotent caching (C3) *)

(** C3, as stated, fails on the re-entrant call: in [Ex.self_base] the node
    shape [A] is its own base.  [sa] is the converter at line 107, where the
    first lowering of [A] calls itself: [A] is reserved, its complexType is
    created and named.  The re-entrant lowering returns none, not the node
    (address 0) that the first lowering returns. *)
Lemma reentrant_lowering_returns_none :
  let sa := Ex.state_of
              ((reserve Ex.A ;;
                complex_type ← new_elem (ET.Element (NS.q "complexType"));
                on_store (ET.set complex_type "name" "A")) (Ex.rooted Ex.self_base)) in
  process_node_shape Ex.self_base 1 Ex.A sa = Ok None sa ∧
  Ex.value_of (process_node_shape Ex.self_base 2 Ex.A (Ex.rooted Ex.self_base))
    = Some (Some 0).
Proof. split; vm_compute; reflexivity. Qed.

Lemma count_occ_fresh (l : list nat) (n : nat) :
  Forall (λ i, i ≠ n) l → count_occ Nat.eq_dec l n = 0.
Proof.
  intros H. apply count_occ_not_In. intros Hin.
  rewrite Forall_forall in H. apply (H n); [by apply list_elem_of_In | done].
Qed.

(** ** Calls made while a lowering is in progress *)

(** [process_node_shape] with the call stack made explicit: [stack] holds
    the node shapes whose first lowering is in progress.  A call on one of
    them (a re-entrant call) returns none at once and touches nothing; any
    other call runs the body of [process_node_shape], with the shape pushed
    for the calls made from it. *)
Fixpoint process_node_shape_on_stack (g : Graph) (stack : gset term) (fuel : nat)
    (shape_uri : term) {struct fuel} : M (option nat) :=
  match fuel with
  | O => diverge
  | S fuel' =>
      if decide (shape_uri ∈ stack) then mret None
      else process_node_shape_body g
             (process_node_shape_on_stack g ({[shape_uri]} ∪ stack) fuel') fuel' shape_uri
  end.

(** the converter while the first lowerings of the shapes of [stack] are in
    progress: each is reserved, and none is in the registry yet *)
Definition in_progress (g : Graph) (stack : gset term) (s : state) : Prop :=
  inv g s ∧ ∀ x, x ∈ stack → x ∈ processed_shapes s ∧ node_shape_map s !! x = None.

Lemma in_progress_track g stack n b s s' :
  in_progress g stack s → track g n b s s' → in_progress g stack s'.
Proof.
  intros [_ Hs] [E Hinv]. split; [done|]. intros x Hx. destruct (Hs x Hx) as [Hp Hn].
  split; [by apply (ev_processed _ _ _ _ E)|]. by rewrite (ev_nodes _ _ _ _ E x Hp).
Qed.

Lemma in_progress_store g stack s h :
  in_progress g stack s → grows 0 (elements s) h → in_progress g stack (with_elements s h).
Proof.
  intros HJ Hg. eapply (in_progress_track g stack 0 0 s); [done|].
  apply track_store; [apply track_start, HJ | done].
Qed.

(** [agree J K m1 m2]: from a state in [J], [m1] and [m2] do the same, and
    end in [K] when they return *)
Definition agree {A} (J K : state → Prop) (m1 m2 : M A) : Prop :=
  ∀ s, J s → m1 s = m2 s ∧ ∀ a s', m1 s = Ok a s' → K s'.

Lemma agree_eq {A} J K (m1 m2 : M A) s : agree J K m1 m2 → J s → m1 s = m2 s.
Proof. intros H HJ. by destruct (H s HJ). Qed.

Lemma agree_bind {A B} J K L (m1 m2 : M A) (k1 k2 : A → M B) :
  agree J K m1 m2 → (∀ a, agree K L (k1 a) (k2 a)) →
  agree J L (m1 ≫= k1) (m2 ≫= k2).
Proof.
  intros Hm Hk s HJ. destruct (Hm s HJ) as [Heq HK]. unfold mbind, M_bind.
  rewrite <- Heq. destruct (m1 s) as [a s1| |]; [|done|done].
  by apply Hk, (HK a).
Qed.

Lemma agree_same {A} J K (m : M A) :
  (∀ s a s', J s → m s = Ok a s' → K s') → agree J K m m.
Proof. intros H s HJ. split; [done|]. intros a s'. by apply H. Qed.

Lemma agree_any {A} J (m : M A) : agree J (λ _, True) m m.
Proof. by apply agree_same. Qed.

Lemma agree_ret {A} J (a : A) : agree J J (mret a) (mret a).
Proof. apply agree_same. by intros s a' s' HJ [= _ <-]. Qed.

Lemma agree_for_each {A} J (l : list A) (b1 b2 : A → M unit) :
  (∀ x, agree J J (b1 x) (b2 x)) → agree J J (for_each l b1) (for_each l b2).
Proof.
  intros Hb. induction l as [|x l IH]; cbn [for_each]; [apply agree_ret|].
  eapply agree_bind; [apply Hb | intros _; apply IH].
Qed.

Section Stack.
Variables (g : Graph) (stack : gset term) (fuel : nat).
Variables (lower1 lower2 : term → M (option nat)).

Local Abbreviation J := (in_progress g stack).

Hypothesis Hlower1 : ∀ v s, inv g s → wp (lower1 v) s (node_post g v s) True True.
Hypothesis Hlower : ∀ v s, J s → lower1 v s = lower2 v s.

Lemma agree_on_store f :
  (∀ h, grows 0 h (f h)) → agree J J (on_store f) (on_store f).
Proof.
  intros Hf. apply agree_same. intros s [] s' HJ [= <-].
  by apply (in_progress_store g stack s (f (elements s))).
Qed.

Lemma agree_new_elem f :
  (∀ h e h', f h = (e, h') → grows 0 h h') → agree J J (new_elem f) (new_elem f).
Proof.
  intros Hf. apply agree_same. intros s e s' HJ. unfold new_elem.
  destruct (f (elements s)) as [e' h'] eqn:Hfe. intros [= _ <-].
  apply (in_progress_store g stack s h' HJ). by eapply Hf.
Qed.

Lemma agree_Element t : agree J J (new_elem (ET.Element t)) (new_elem (ET.Element t)).
Proof. apply agree_new_elem. intros h e h' H. eapply grows_Element; [|exact H]. lia. Qed.

Lemma agree_SubElement p t :
  agree J J (new_elem (ET.SubElement p t)) (new_elem (ET.SubElement p t)).
Proof. apply agree_new_elem. intros h e h' H. eapply grows_SubElement; [| |exact H]; lia. Qed.

Lemma agree_set e k v : agree J J (on_store (ET.set e k v)) (on_store (ET.set e k v)).
Proof. apply agree_on_store. intros h. apply grows_set. lia. Qed.

Lemma agree_append p e : agree J J (on_store (ET.append p e)) (on_store (ET.append p e)).
Proof. apply agree_on_store. intros h. apply grows_append. lia. Qed.

Lemma agree_of_walk {A} (o : option A) : agree J J (of_walk o) (of_walk o).
Proof. apply agree_same. intros s a s' HJ. destruct o; [by intros [= _ <-] | done]. Qed.

Lemma agree_property v :
  agree J J (process_property_shape g fuel v) (process_property_shape g fuel v).
Proof.
  apply agree_same. intros s r s' HJ Hcall.
  pose proof (wp_Ok _ _ _ _ _ _ _
                (process_property_shape_wp g fuel v s (proj1 HJ)) Hcall) as Hpost.
  exact (in_progress_track g stack _ _ s s' HJ (pp_track _ _ _ _ _ Hpost)).
Qed.

Lemma agree_lower v : agree J J (lower1 v) (lower2 v).
Proof.
  intros s HJ. split; [by apply Hlower|]. intros r s' Hcall.
  pose proof (wp_Ok _ _ _ _ _ _ _ (Hlower1 v s (proj1 HJ)) Hcall) as Hpost.
  exact (in_progress_track g stack _ _ s s' HJ (np_track _ _ _ _ _ Hpost)).
Qed.

Lemma agree_process_rdf_list l p :
  agree J J (process_rdf_list g lower1 fuel l p) (process_rdf_list g lower2 fuel l p).
Proof.
  unfold process_rdf_list.
  eapply agree_bind; [apply agree_of_walk|]. intros items.
  apply agree_for_each. intros item. cbv zeta.
  destruct (has_triple g item RDF_type (NS.sh "PropertyShape")).
  - eapply agree_bind; [apply agree_property|]. intros [e|]; [apply agree_append | apply agree_ret].
  - eapply agree_bind; [apply agree_lower|]. intros [e|]; [|apply agree_ret].
    eapply agree_bind; [apply agree_Element|]. intros re.
    eapply agree_bind; [apply agree_set|]. intros _. apply agree_append.
Qed.

Lemma agree_process_choice_constraint l p is_xone :
  agree J J (process_choice_constraint g lower1 fuel l p is_xone)
            (process_choice_constraint g lower2 fuel l p is_xone).
Proof.
  unfold process_choice_constraint. destruct is_xone.
  - eapply agree_bind; [apply agree_SubElement|]. intros c. apply agree_process_rdf_list.
  - eapply agree_bind; [apply agree_of_walk|]. intros items.
    destruct (are_simple_type_constraints g items).
    + eapply agree_bind; [apply agree_SubElement|]. intros st.
      eapply agree_bind; [apply agree_SubElement|]. intros un. apply agree_set.
    + eapply agree_bind; [apply agree_SubElement|]. intros c. apply agree_process_rdf_list.
Qed.

Lemma agree_extend_base u ct :
  agree J J (extend_base g lower1 u ct) (extend_base g lower2 u ct).
Proof.
  unfold extend_base. destruct (objects g u (NS.sh "node")) as [|base rest]; [apply agree_ret|].
  eapply agree_bind; [apply agree_lower|]. intros [b|]; [|apply agree_ret].
  eapply agree_bind; [apply agree_SubElement|]. intros cc.
  eapply agree_bind; [apply agree_SubElement|]. intros ext.
  eapply agree_bind; [apply agree_set|]. intros _. apply agree_ret.
Qed.
End Stack.

(** the body of [process_node_shape] on [u] does the same with two
    recursive lowerings that agree while [u] is in progress *)
Lemma process_node_shape_body_agrees g stack fuel lower1 lower2 u s :
  (∀ v s, inv g s → wp (lower1 v) s (node_post g v s) True True) →
  (∀ v s, in_progress g ({[u]} ∪ stack) s → lower1 v s = lower2 v s) →
  in_progress g stack s →
  process_node_shape_body g lower1 fuel u s = process_node_shape_body g lower2 fuel u s.
Proof.
  intros H1 H12 HJ. unfold process_node_shape_body.
  unfold mbind at 1 12, M_bind at 1 12, gets.
  destruct (decide (u ∈ processed_shapes s)) as [Hu|Hu]; [done|].
  set (J' := in_progress g ({[u]} ∪ stack)).
  apply (agree_eq (λ s', s' = s) (λ _, True)); [|done].
  eapply (agree_bind _ J').
  { apply agree_same. intros ? [] s' -> [= <-].
    destruct HJ as [Hinv Hs].
    pose proof (track_reserve g 0 0 s s u (track_start g 0 0 s Hinv)) as T.
    split; [exact (tr_inv _ _ _ _ _ T)|]. cbn. intros x [->%elem_of_singleton|Hx]%elem_of_union.
    - split; [set_solver|].
      destruct (node_shape_map s !! u) as [e|] eqn:He; [|done].
      by apply (inv_dom _ _ Hinv) in He.
    - destruct (Hs x Hx). split; [set_solver | done]. }
  intros _. eapply agree_bind; [apply agree_Element|]. intros ct.
  eapply agree_bind; [apply agree_set|]. intros _.
  eapply agree_bind; [by apply agree_extend_base|]. intros ext.
  eapply agree_bind.
  { destruct (objects g u (NS.sh "xone")) as [|xone ?]; [apply agree_ret|].
    by apply agree_process_choice_constraint. }
  intros _. eapply agree_bind.
  { destruct (objects g u (NS.sh "or")) as [|or_node ?]; [apply agree_ret|].
    by apply agree_process_choice_constraint. }
  intros _. apply agree_any.
Qed.

(** [process_node_shape] is [process_node_shape_on_stack]: on a converter
    in which the shapes of [stack] are in progress, the code does what the
    version with the explicit call stack does. *)
Lemma process_node_shape_stack g fuel :
  ∀ stack v s, in_progress g stack s →
    process_node_shape g fuel v s = process_node_shape_on_stack g stack fuel v s.
Proof.
  induction fuel as [|fuel IH]; intros stack v s HJ; [done|].
  cbn [process_node_shape_on_stack]. destruct (decide (v ∈ stack)) as [Hv|Hv].
  - destruct (proj2 HJ v Hv) as [Hp Hn]. rewrite process_node_shape_seen by done.
    by rewrite Hn.
  - cbn [process_node_shape].
    apply (process_node_shape_body_agrees g stack); [| |done].
    + intros x s' Hinv. eapply wp_returns, process_node_shape_wp, Hinv.
    + intros x s' HJ'. by apply IH.
Qed.

(** (C3), amended: once the first lowering of a node shape has returned,
    every later lowering of it in the pass returns the identical node and
    changes nothing, and that node occurs exactly once among the root's
    children.  A call made while the first lowering of the shape is in
    progress (the re-entrant call of a cyclic base) returns none and
    changes nothing: such a call finds the shape reserved but not yet in
    the registry, and the code does, call by call, what
    [process_node_shape_on_stack] does, the version with the explicit call
    stack in which a call on a shape of the stack returns none at once; in
    particular the first lowering of [u] itself runs as that version does
    from the empty stack.  A property shape lowered again returns what its
    first lowering returned. *)
Theorem lowering_is_cached g fuel u st r st' st2 :
  inv g st → u ∉ processed_shapes st →
  process_node_shape g fuel u st = Ok r st' → later g st' st2 →
  (∃ ct root,
     r = Some ct ∧
     (∀ f, process_node_shape g (S f) u st2 = Ok (Some ct) st2) ∧
     xsd_root st2 = Some root ∧ count_occ Nat.eq_dec (children root) ct = 1) ∧
  (∀ s f, u ∈ processed_shapes s → node_shape_map s !! u = None →
          process_node_shape g (S f) u s = Ok None s) ∧
  (process_node_shape_on_stack g ∅ fuel u st = Ok r st' ∧
   ∀ stack f v s, in_progress g stack s →
     process_node_shape g f v s = process_node_shape_on_stack g stack f v s) ∧
  (∀ v s rp sp sp2 fp f,
     inv g s → v ∉ processed_shapes s →
     process_property_shape g fp v s = Ok rp sp → later g sp sp2 →
     process_property_shape g f v sp2 = Ok rp sp2).
Proof.
  intros Hinv Hu Hcall Hlater.
  pose proof (wp_Ok _ _ _ _ _ _ _ (process_node_shape_wp g fuel u st Hinv) Hcall) as Hpost.
  pose proof (np_track _ _ _ _ _ Hpost) as T.
  destruct (np_fresh _ _ _ _ _ Hpost Hu) as
    (-> & r0 & r1 & inner & elems & Hr0 & Hr1 & Hch & _ & Habove & _ & Htag & _).
  pose proof (later_track g st' st2 (tr_inv _ _ _ _ _ T) Hlater) as T2.
  set (ct := length (elements st)) in *.
  assert (Hnsm : node_shape_map st2 !! u = Some ct).
  { rewrite (ev_nodes _ _ _ _ (tr_ev _ _ _ _ _ T2)) by apply (np_done _ _ _ _ _ Hpost).
    symmetry. apply (np_result _ _ _ _ _ Hpost). }
  assert (Hdone : u ∈ processed_shapes st2).
  { apply (ev_processed _ _ _ _ (tr_ev _ _ _ _ _ T2)), (np_done _ _ _ _ _ Hpost). }
  split; [|split; [|split]].
  - pose proof (ev_root _ _ _ _ (tr_ev _ _ _ _ _ T2)) as G. unfold root_grows in G.
    rewrite Hr1 in G. destruct (xsd_root st2) as [r2|]; [|done].
    destruct G as (_ & _ & new & Hch2 & Hnew).
    exists ct, r2. split; [done|].
    split; [intros f; rewrite process_node_shape_seen by done; by rewrite Hnsm|].
    split; [done|].
    assert (Hct : ct < length (elements st')).
    { pose proof (inv_root _ _ (tr_inv _ _ _ _ _ T) _ Hr1) as HF.
      rewrite Hch, !Forall_app in HF. destruct HF as (_ & _ & _ & HF).
      apply Forall_inv in HF. by destruct HF. }
    rewrite Hch2, Hch, !count_occ_app.
    rewrite (count_occ_fresh (children r0)), (count_occ_fresh inner),
      (count_occ_fresh elems), (count_occ_fresh new); cbn.
    + by destruct (Nat.eq_dec ct ct).
    + eapply Forall_impl; [exact Hnew|]. cbn. lia.
    + apply Forall_app in Habove as [_ H]. eapply Forall_impl; [exact H|]. cbn. lia.
    + apply Forall_app in Habove as [H _]. eapply Forall_impl; [exact H|]. cbn. lia.
    + pose proof (inv_root _ _ Hinv _ Hr0) as HF.
      eapply Forall_impl; [exact HF|]. cbn. intros i [? _]. lia.
  - intros s f Hs Hnone. rewrite process_node_shape_seen by done. by rewrite Hnone.
  - split; [|intros stack f v s; apply process_node_shape_stack].
    rewrite <- Hcall. symmetry. apply process_node_shape_stack.
    split; [done | set_solver].
  - intros v s rp sp sp2 fp f Hinvs Hv Hcallp Hlaterp.
    pose proof (wp_Ok _ _ _ _ _ _ _ (process_property_shape_wp g fp v s Hinvs) Hcallp) as Hp.
    pose proof (later_track g sp sp2 (tr_inv _ _ _ _ _ (pp_track _ _ _ _ _ Hp)) Hlaterp) as Tp.
    assert (Hvp : v ∈ processed_shapes sp).
    { rewrite (pp_processed _ _ _ _ _ Hp). set_solver. }
    rewrite process_property_shape_seen
      by (by apply (ev_processed _ _ _ _ (tr_ev _ _ _ _ _ Tp))).
    rewrite (ev_props _ _ _ _ (tr_ev _ _ _ _ _ Tp)) by done.
    by rewrite <- (pp_result _ _ _ _ _ Hp).
Qed.

Lemma lowering_is_cached_witness :
  let st := Ex.rooted Ex.two_targets in
  let st' := Ex.state_of (process_node_shape Ex.two_targets 3 Ex.A st) in
  ((Ex.A ∉ processed_shapes st) ∧
  process_node_shape Ex.two_targets 3 Ex.A st = Ok (Some 0) st' ∧
  ∃ ct root,
    Some 0 = Some ct ∧
    (∀ f, process_node_shape Ex.two_targets (S f) Ex.A st' = Ok (Some ct) st') ∧
    xsd_root st' = Some root ∧ count_occ Nat.eq_dec (children root) ct = 1) ∧
  (let sb := Ex.rooted Ex.self_base in
   let sb' := Ex.state_of (process_node_shape Ex.self_base 2 Ex.A sb) in
   objects Ex.self_base Ex.A (NS.sh "node") = [Ex.A] ∧
   process_node_shape Ex.self_base 2 Ex.A sb = Ok (Some 0) sb' ∧
   process_node_shape_on_stack Ex.self_base ∅ 2 Ex.A sb = Ok (Some 0) sb' ∧
   process_node_shape_on_stack Ex.self_base {[Ex.A]} 1 Ex.A sb' = Ok None sb').
Proof.
  intros st st'. split.
  2:{ intros sb sb'.
      assert (Hu : Ex.A ∉ processed_shapes sb) by (vm_compute; set_solver).
      assert (Hcall : process_node_shape Ex.self_base 2 Ex.A sb = Ok (Some 0) sb')
        by (apply Ex.result_eq; vm_compute; reflexivity).
      split; [reflexivity|]. split; [exact Hcall|]. split; [|vm_compute; reflexivity].
      exact (proj1 (proj1 (proj2 (proj2
               (lowering_is_cached Ex.self_base 2 Ex.A sb (Some 0) sb' sb'
                  (Ex.inv_rooted _) Hu Hcall (later_now _ _)))))). }
  assert (Hu : Ex.A ∉ processed_shapes st) by (vm_compute; set_solver).
  assert (Hcall : process_node_shape Ex.two_targets 3 Ex.A st = Ok (Some 0) st')
    by (apply Ex.result_eq; vm_compute; reflexivity).
  split; [exact Hu|]. split; [exact Hcall|].
  exact (proj1 (lowering_is_cached Ex.two_targets 3 Ex.A st (Some 0) st' st'
                  (Ex.inv_rooted _) Hu Hcall (later_now _ _))).
Defined.

(** * Target-class shortcut (C7) *)

(** C7, as stated, fails on a cyclic base: in [Ex.mutual_bases], [B] has the
    base [A], no property shape, no choice, no disjunction and one target
    class, yet its top-level element (address 2, first child of the root) has
    type "B", not the base's name "A": [B] is lowered while [A] is still in
    progress, the base lowering returns none and line 108 skips the
    extension. *)
Lemma cyclic_base_keeps_own_type :
  Ex.value_of (convert 5 (Ex.conv Ex.mutual_bases) init) = Some tt ∧
  objects Ex.mutual_bases Ex.B (NS.sh "node") = [Ex.A] ∧
  objects Ex.mutual_bases Ex.B (NS.sh "property") = [] ∧
  objects Ex.mutual_bases Ex.B (NS.sh "xone") = [] ∧
  objects Ex.mutual_bases Ex.B (NS.sh "or") = [] ∧
  objects Ex.mutual_bases Ex.B (NS.sh "targetClass") = [Ex.ex "B"] ∧
  get_shape_name Ex.mutual_bases Ex.A = "A" ∧
  Ex.root_children (Ex.converted Ex.mutual_bases) = [2; 1; 0] ∧
  elements (Ex.converted Ex.mutual_bases) !! 2
    = Some (target_element Ex.mutual_bases Ex.B "B").
Proof. do 8 (split; [vm_compute; reflexivity|]). vm_compute; reflexivity. Qed.

(** C7, amended: the first lowering of a node shape [u] appends to the root
    one element per target class, all of one type [T], right before the
    complex type.  [T] is the base's name when [u] has a base other than
    itself whose lowering yields a type (the base is new, or already in the
    registry), no property shape, no choice and no disjunction.  [T] is
    [u]'s own name when [u] has no base, or has property shapes of its own,
    or its base is [u] itself or a shape that is reserved but not yet in
    the registry. *)
Theorem target_element_type g w fuel u st :
  inv g st → is_Some (xsd_root st) → minCounts_ok g = true →
  walks_finite w g = true →
  w + size ((nodes g ∪ {[u]}) ∖ processed_shapes st) < fuel →
  u ∉ processed_shapes st →
  ∃ ct st' root pre elems T,
    process_node_shape g fuel u st = Ok (Some ct) st' ∧
    xsd_root st' = Some root ∧ children root = pre ++ elems ++ [ct] ∧
    length elems = length (objects g u (NS.sh "targetClass")) ∧
    Forall (λ e, elements st' !! e = Some (target_element g u T)) elems ∧
    (∀ base rest,
       objects g u (NS.sh "node") = base :: rest → base ≠ u →
       base ∉ processed_shapes st ∨ is_Some (node_shape_map st !! base) →
       objects g u (NS.sh "property") = [] →
       objects g u (NS.sh "xone") = [] → objects g u (NS.sh "or") = [] →
       T = get_shape_name g base) ∧
    (objects g u (NS.sh "node") = [] ∨
     objects g u (NS.sh "property") ≠ [] ∨
     (∃ base rest, objects g u (NS.sh "node") = base :: rest ∧
                   (base = u ∨
                    (base ∈ processed_shapes st ∧ node_shape_map st !! base = None))) →
     T = get_shape_name g u).
Proof.
  intros Hinv Hroot Hmc Hw Hfuel Hu.
  destruct (process_node_shape_total g w (nodes g ∪ {[u]}) fuel u st)
    as (r & st' & Hcall & Hpost); [done | by split | | set_solver |].
  { split; [done|]. split; [set_solver | done]. }
  destruct (np_fresh _ _ _ _ _ Hpost Hu) as
    (-> & r0 & r1 & inner & elems & Hr0 & Hr1 & Hch & Hlen & _ & Helems & _ & Hbase).
  pose proof (tr_ev _ _ _ _ _ (np_track _ _ _ _ _ Hpost)) as E.
  exists (length (elements st)), st', r1, (children r0 ++ inner), elems, (top_type g u st').
  split; [done|]. split; [done|]. split; [by rewrite Hch, <- app_assoc|].
  split; [done|]. split; [done|]. unfold top_type, extension_base. split.
  - intros base rest Hnode Hne Hres Hprops _ _. rewrite Hnode, Hprops.
    rewrite decide_True; [done|]. split; [done|].
    destruct Hres as [Hnew|[x Hx]]; [by eapply Hbase|].
    rewrite (ev_nodes _ _ _ _ E); [by rewrite Hx|]. by eapply inv_dom.
  - intros [Hnode|[Hprops|(base & rest & Hnode & Hcase)]].
    + by rewrite Hnode.
    + destruct (objects g u (NS.sh "property")); [done|].
      by destruct (objects g u (NS.sh "node")); [|case_decide].
    + rewrite Hnode. rewrite decide_False; [done|].
      intros [Hne [x Hx]]. destruct Hcase as [?|[Hin Hnone]]; [done|].
      rewrite (ev_nodes _ _ _ _ E) in Hx by done. congruence.
Qed.

Module Ex12.
Import Ex.
(** [B] only extends [A] and has a target class *)
Definition derived : Graph :=
  [ (A, RDF_type, NS.sh "NodeShape");
    (B, RDF_type, NS.sh "NodeShape");
    (B, NS.sh "node", A);
    (B, NS.sh "targetClass", ex "B") ].
End Ex12.

(** In [Ex12.derived] the element of [B] has the type of its base, "A"; in
    [Ex.two_targets], where [B] has no base, its element has the type "B". *)
Lemma target_element_type_witness :
  let g := Ex12.derived in
  let st := Ex.rooted g in
  let g2 := Ex.two_targets in
  let st2 := Ex.rooted g2 in
  (1 + size ((nodes g ∪ {[Ex.B]}) ∖ processed_shapes st) < 12 ∧
   (Ex.B ∉ processed_shapes st) ∧
   objects g Ex.B (NS.sh "node") = [Ex.A] ∧
   ∃ ct st' root pre elems T,
     process_node_shape g 12 Ex.B st = Ok (Some ct) st' ∧
     xsd_root st' = Some root ∧ children root = pre ++ elems ++ [ct] ∧
     length elems = length (objects g Ex.B (NS.sh "targetClass")) ∧
     Forall (λ e, elements st' !! e = Some (target_element g Ex.B T)) elems ∧
     T = "A") ∧
  (objects g2 Ex.B (NS.sh "node") = [] ∧
   ∃ ct st' root pre elems T,
     process_node_shape g2 12 Ex.B st2 = Ok (Some ct) st' ∧
     xsd_root st' = Some root ∧ children root = pre ++ elems ++ [ct] ∧
     length elems = length (objects g2 Ex.B (NS.sh "targetClass")) ∧
     Forall (λ e, elements st' !! e = Some (target_element g2 Ex.B T)) elems ∧
     T = "B").
Proof.
  intros g st g2 st2. split.
  - assert (Hfuel : 1 + size ((nodes g ∪ {[Ex.B]}) ∖ processed_shapes st) < 12)
      by (vm_compute; lia).
    assert (Hu : Ex.B ∉ processed_shapes st) by (vm_compute; set_solver).
    split; [exact Hfuel|]. split; [exact Hu|]. split; [reflexivity|].
    destruct (target_element_type g 1 12 Ex.B st (Ex.inv_rooted _))
      as (ct & st' & root & pre & elems & T & H1 & H2 & H3 & H4 & H5 & Hbase & _);
      [vm_compute; eauto | vm_compute; reflexivity | vm_compute; reflexivity
      | exact Hfuel | exact Hu |].
    exists ct, st', root, pre, elems, T. repeat (split; [assumption|]).
    rewrite (Hbase Ex.A [] eq_refl); [reflexivity | discriminate | | reflexivity..].
    left. vm_compute. set_solver.
  - split; [reflexivity|].
    destruct (target_element_type g2 1 12 Ex.B st2 (Ex.inv_rooted _))
      as (ct & st' & root & pre & elems & T & H1 & H2 & H3 & H4 & H5 & _ & Hown);
      [vm_compute; eauto | vm_compute; reflexivity | vm_compute; reflexivity
      | vm_compute; lia | vm_compute; set_solver |].
    exists ct, st', root, pre, elems, T. repeat (split; [assumption|]).
    rewrite Hown; [reflexivity|]. by left.
Defined.

(** * Root document order (C2) *)

(** C2, as stated, fails: for [Ex.two_targets] the root's children are, in
    order, element, complexType, element, complexType, element: the complex
    type of the first node shape precedes the top-level element of the second
    and the element of the stand-alone property shape. *)
Lemma complex_type_precedes_element :
  Ex.value_of (convert 5 (Ex.conv Ex.two_targets) init) = Some tt ∧
  map (λ i, ET.tag_of i (elements (Ex.converted Ex.two_targets)))
      (Ex.root_children (Ex.converted Ex.two_targets)) =
    [NS.q "element"; NS.q "complexType"; NS.q "element"; NS.q "complexType";
     NS.q "element"].
Proof. split; vm_compute; reflexivity. Qed.

(** [traversal g fuel hfin us s s' new]: the loop of lines 530-535 over the
    node shapes [us] led from [s] to [s'] and appended [new] to the root;
    [hfin] is the element store of the finished document.  A shape that is
    already processed at its turn adds nothing.  The first lowering of a
    shape [u] returns its complex type [ct], registers it, and appends
    whatever the lowerings nested in it appended ([inner]), then one element
    per target class ([elems]), then [ct]. *)
Inductive traversal (g : Graph) (fuel : nat) (hfin : store)
  : list term → state → state → list nat → Prop :=
| traversal_nil s : traversal g fuel hfin [] s s []
| traversal_seen u us s s' new :
    u ∈ processed_shapes s →
    process_node_shape g fuel u s = Ok (node_shape_map s !! u) s →
    traversal g fuel hfin us s s' new →
    traversal g fuel hfin (u :: us) s s' new
| traversal_first u us s s1 s' r0 r1 inner elems new :
    let ct := length (elements s) in
    u ∉ processed_shapes s →
    process_node_shape g fuel u s = Ok (Some ct) s1 →
    node_shape_map s1 !! u = Some ct →
    xsd_root s = Some r0 → xsd_root s1 = Some r1 →
    children r1 = children r0 ++ inner ++ elems ++ [ct] →
    length elems = length (objects g u (NS.sh "targetClass")) →
    Forall (λ i, elements s1 !! i = Some (target_element g u (top_type g u s1))) elems →
    Forall (λ i, ET.tag_of i hfin = NS.q "element") elems →
    ET.tag_of ct hfin = NS.q "complexType" →
    traversal g fuel hfin us s1 s' new →
    traversal g fuel hfin (u :: us) s s' (inner ++ elems ++ ct :: new).

(** the property shapes whose element the loop of lines 540-547 appends to
    the root: those with a path that are not attribute-kind *)
Definition emits_element (g : Graph) (ps : term) : bool :=
  truthy_opt (value g ps (NS.sh "path")) && negb (is_attribute g ps).

Lemma tag_of_valid i (h : store) t : ET.tag_of i h = NS.q t → i < length h.
Proof.
  unfold ET.tag_of. destruct (h !! i) as [el|] eqn:Hel; [|done].
  intros _. by eapply lookup_lt_Some.
Qed.

Lemma bind_Ok {A B} (m : M A) (k : A → M B) st b st' :
  (m ≫= k) st = Ok b st' → ∃ a s1, m st = Ok a s1 ∧ k a s1 = Ok b st'.
Proof. unfold mbind, M_bind. destruct (m st) as [a s1| |]; [eauto | done | done]. Qed.

Lemma traversal_run g fuel hfin us :
  ∀ s s' r, inv g s → xsd_root s = Some r →
    for_each us (λ v, _ ← process_node_shape g fuel v; mret tt) s = Ok tt s' →
    grows 0 (elements s') hfin →
    ∃ new r', traversal g fuel hfin us s s' new ∧ track g 0 0 s s' ∧
              xsd_root s' = Some r' ∧ children r' = children r ++ new.
Proof.
  induction us as [|u us IH]; intros s s' r Hinv Hr Hrun Hfin.
  { cbn in Hrun. injection Hrun as <-. exists [], r.
    split; [constructor|]. split; [by apply track_start|]. by rewrite app_nil_r. }
  cbn [for_each] in Hrun.
  apply bind_Ok in Hrun as ([] & s1 & Hbody & Hrun).
  apply bind_Ok in Hbody as (res & s1' & Hcall & [= ->]).
  pose proof (wp_Ok _ _ _ _ _ _ _ (process_node_shape_wp g fuel u s Hinv) Hcall) as Hpost.
  pose proof (np_track _ _ _ _ _ Hpost) as T1.
  destruct (decide (u ∈ processed_shapes s)) as [Hu|Hu].
  - pose proof (np_cached _ _ _ _ _ Hpost Hu) as ->.
    destruct (IH s s' r Hinv Hr Hrun Hfin) as (new & r' & Htr & T & Hr' & Hkids).
    exists new, r'. split; [|done]. apply traversal_seen; [done | | done].
    by rewrite Hcall, (np_result _ _ _ _ _ Hpost).
  - destruct (np_fresh _ _ _ _ _ Hpost Hu) as
      (-> & r0 & r1 & inner & elems & Hr0 & Hr1 & Hch & Hlen & _ & Helems & Htag & _).
    assert (r0 = r) as -> by congruence.
    destruct (IH s1 s' r1 (tr_inv _ _ _ _ _ T1) Hr1 Hrun Hfin)
      as (new & r' & Htr & T & Hr' & Hkids).
    assert (G : grows 0 (elements s1) hfin).
    { eapply grows_trans; [reflexivity | exact (ev_store _ _ _ _ (tr_ev _ _ _ _ _ T)) | done]. }
    exists (inner ++ elems ++ length (elements s) :: new), r'. split; [|split; [|split]].
    + eapply (traversal_first g fuel hfin u us s s1 s' r r1 inner elems new); try done.
      * by rewrite (np_result _ _ _ _ _ Hpost).
      * eapply Forall_impl; [exact Helems|]. cbn. intros i Hi.
        rewrite (grows_tag_of _ _ _ _ G) by (by eapply lookup_lt_Some).
        by rewrite (tag_of_lookup _ _ _ Hi).
      * rewrite (grows_tag_of _ _ _ _ G) by (by eapply tag_of_valid). done.
    + eapply (track_trans g 0 0 0 0 s s1 s'); [lia | lia | | exact T].
      eapply (track_trans g 0 _ 0 _ s s s1); [lia | lia | by apply track_start | exact T1].
    + done.
    + rewrite Hkids, Hch. by rewrite <- !app_assoc.
Qed.

(** what the loop of lines 540-547 knows of a property shape it has done *)
Definition standalone_done (g : Graph) (s : state) (ps : term) : Prop :=
  ps ∈ processed_shapes s ∧
  if truthy_opt (value g ps (NS.sh "path"))
  then ∃ e, property_shape_map s !! ps = Some e ∧
            ET.tag_of e (elements s) =
              NS.q (if is_attribute g ps then "attribute" else "element")
  else property_shape_map s !! ps = None.

Lemma standalone_done_mono g s s' ps :
  evolves 0 0 s s' → standalone_done g s ps → standalone_done g s' ps.
Proof.
  intros E [Hps Hreg]. split; [by apply (ev_processed _ _ _ _ E)|].
  rewrite (ev_props _ _ _ _ E ps Hps).
  destruct (truthy_opt (value g ps (NS.sh "path"))); [|done].
  destruct Hreg as (e & He & Ht). exists e. split; [done|].
  rewrite (grows_tag_of _ _ _ _ (ev_store _ _ _ _ E)) by (by eapply tag_of_valid). done.
Qed.

Lemma standalone_run g fuel pss s1 r1 st' :
  inv g s1 → xsd_root s1 = Some r1 →
  Forall (λ ps, ps ∉ processed_shapes s1) pss →
  for_each pss (λ property_shape,
    property_element ← process_property_shape g fuel property_shape;
    match property_element with
    | Some e =>
        h ← gets elements;
        if PyStr.endswith "element" (ET.tag_of e h) then root_append e else mret tt
    | None => mret tt
    end) s1 = Ok tt st' →
  track g 0 0 s1 st' ∧ Forall (standalone_done g st') pss ∧
  ∃ r pp, xsd_root st' = Some r ∧ children r = children r1 ++ pp ∧
          Forall2 (λ ps e, property_shape_map st' !! ps = Some e)
                  (List.filter (emits_element g) pss) pp.
Proof.
  intros Hinv Hr1 Hnew Hrun.
  set (I := λ (done : list term) (s : state),
              track g 0 0 s1 s ∧ Forall (standalone_done g s) done ∧
              ∃ r pp, xsd_root s = Some r ∧ children r = children r1 ++ pp ∧
                      (∀ x, x ∈ processed_shapes s →
                            x ∈ done ∨ x ∈ processed_shapes s1) ∧
                      Forall2 (λ ps e, property_shape_map s !! ps = Some e)
                              (List.filter (emits_element g) done) pp).
  assert (Hloop : I pss st').
  2:{ destruct Hloop as (T & Hd & r & pp & Hr & Hk & _ & H2). split; [done|].
      split; [done|]. by exists r, pp. }
  refine (wp_Ok _ _ (λ _, I pss) True True _ _ _ Hrun).
  apply (wp_for_each_ind pss _ I).
  { split; [by apply track_start|]. split; [constructor|].
    exists r1, []. rewrite app_nil_r. split; [done|]. split; [done|].
    split; [by right | constructor]. }
  intros pre x post s Hpss (T & Hdone & r & pp & Hr & Hkids & Hdom & Hpp).
  assert (Hx1 : x ∉ processed_shapes s1).
  { rewrite Forall_forall in Hnew. apply Hnew. rewrite Hpss. set_solver. }
  apply wp_bind.
  eapply wp_mono;
    [apply (wp_returns _ _ _ _ _
              (process_property_shape_wp g fuel x s (tr_inv _ _ _ _ _ T)))
    | | done | done].
  intros res s2 Hpost. cbn beta.
  pose proof (pp_track _ _ _ _ _ Hpost) as T2.
  assert (E2 : evolves 0 0 s s2).
  { eapply evolves_weaken; [| |exact (tr_ev _ _ _ _ _ T2)]; lia. }
  assert (T12 : track g 0 0 s1 s2) by (eapply track_trans; [| |exact T|exact T2]; lia).
  assert (Hr2 : xsd_root s2 = Some r) by (by rewrite (pp_root _ _ _ _ _ Hpost)).
  assert (Hx2 : standalone_done g s2 x).
  { destruct (decide (x ∈ processed_shapes s)) as [Hin|Hnin].
    - apply (standalone_done_mono g s s2 x E2).
      destruct (Hdom x Hin) as [Hpre|]; [|done].
      rewrite Forall_forall in Hdone. by apply Hdone.
    - split; [rewrite (pp_processed _ _ _ _ _ Hpost); set_solver|].
      destruct (truthy_opt (value g x (NS.sh "path"))) eqn:Hp.
      + pose proof (pp_made _ _ _ _ _ Hpost Hnin Hp) as Hres.
        destruct (pp_fresh _ _ _ _ _ Hpost _ Hres Hnin) as [_ Ht].
        exists (length (elements s)). split; [|done].
        by rewrite <- (pp_result _ _ _ _ _ Hpost).
      + destruct (property_shape_map s2 !! x) as [e|] eqn:He; [|done].
        pose proof (inv_path _ _ (tr_inv _ _ _ _ _ T2) _ _ He). congruence. }
  assert (Hd2 : Forall (standalone_done g s2) (pre ++ [x])).
  { apply Forall_app. split; [|by constructor].
    eapply Forall_impl; [exact Hdone|]. intros y. by apply standalone_done_mono. }
  assert (Hdom2 : ∀ y, y ∈ processed_shapes s2 → y ∈ pre ++ [x] ∨ y ∈ processed_shapes s1).
  { intros y. rewrite (pp_processed _ _ _ _ _ Hpost). intros [->%elem_of_singleton|Hy]%elem_of_union.
    - left. set_solver.
    - destruct (Hdom y Hy); [left; set_solver | by right]. }
  assert (Hpp2 : Forall2 (λ ps e, property_shape_map s2 !! ps = Some e)
                         (List.filter (emits_element g) pre) pp).
  { eapply Forall2_impl; [exact Hpp|]. cbn. intros y e Hy.
    rewrite (ev_props _ _ _ _ E2 y); [done|]. by apply (inv_pdom _ _ (tr_inv _ _ _ _ _ T) _ _ Hy). }
  pose proof (pp_result _ _ _ _ _ Hpost) as Hres.
  destruct Hx2 as [Hxin Hxreg].
  assert (Hf : List.filter (emits_element g) (pre ++ [x]) =
               List.filter (emits_element g) pre ++
               (if emits_element g x then [x] else [])).
  { rewrite List.filter_app. cbn [List.filter]. by destruct (emits_element g x). }
  assert (Hemit : emits_element g x =
                  truthy_opt (value g x (NS.sh "path")) && negb (is_attribute g x))
    by done.
  unfold I. rewrite Hf, Hemit. clear Hf Hemit.
  destruct (truthy_opt (value g x (NS.sh "path"))) eqn:Hp; cbn [andb].
  - destruct Hxreg as (e & He & Ht). rewrite He in Hres. subst res.
    apply wp_bind, wp_gets. cbn beta. rewrite Ht.
    destruct (is_attribute g x) eqn:Ha; cbn [negb].
    + replace (PyStr.endswith "element" (NS.q "attribute")) with false by reflexivity.
      apply wp_ret. split; [done|]. split; [done|].
      exists r, pp. rewrite app_nil_r. done.
    + replace (PyStr.endswith "element" (NS.q "element")) with true by reflexivity.
      unfold wp, root_append. rewrite Hr2. split; [|split].
      * apply (track_root_append _ 0 0 s1 s2 r e T12 Hr2); [lia|].
        split; [by eapply tag_of_valid | by left; rewrite Ht].
      * done.
      * eexists _, (pp ++ [e]). split; [reflexivity|]. cbn.
        split; [by rewrite Hkids, app_assoc|]. split; [done|].
        apply Forall2_app; [done | by repeat constructor].
  - rewrite Hxreg in Hres. subst res. apply wp_ret.
    split; [done|]. split; [done|].
    exists r, pp. rewrite app_nil_r. done.
Qed.

(** (C2), amended: the root's children stand in the order in which they are
    appended during traversal.
    (1) [convert] raises ValueError when the prefix map holds a prefix that
    [ET.register_namespace] refuses.  Otherwise it returns, and the root's
    children are those the loop over the [sh:NodeShape] subjects appended,
    followed by those the loop over the remaining [sh:PropertyShape]
    subjects appended.  The first lists, node shape by node shape in
    subject order, for each shape not yet processed at its turn: what the
    lowerings nested in it appended, one element per target class, and
    right after them the shape's complex type; every entry is an element or
    a complex type.  The second lists, in subject order, the registered
    element of each property shape that no node shape reached, that has a
    path and is not attribute-kind.
    (2) Any first lowering of a node shape appends, after whatever the
    lowerings nested in it appended, one element per target class and right
    after them the shape's complex type. *)
Theorem root_in_traversal_order c w fuel st :
  inv (SHACL c) st → minCounts_ok (SHACL c) = true →
  walks_finite w (SHACL c) = true →
  w + size (nodes (SHACL c) ∖ processed_shapes st) < fuel →
  let g := SHACL c in
  (if refused_prefix c then convert fuel c st = Raise "ValueError"
   else
     ∃ s0 s1 st' r0 root new pp,
       create_xsd_root c st = Ok tt s0 ∧ xsd_root s0 = Some r0 ∧ children r0 = [] ∧
       lower_node_shapes fuel c s0 = Ok tt s1 ∧
       convert fuel c st = Ok tt st' ∧
       xsd_root st' = Some root ∧ children root = new ++ pp ∧
       traversal g fuel (elements st') (subjects g RDF_type (NS.sh "NodeShape"))
                 s0 s1 new ∧
       Forall (top_level (elements st')) new ∧
       let standalone :=
         List.filter (λ ps, bool_decide (ps ∉ processed_shapes s1))
                     (subjects g RDF_type (NS.sh "PropertyShape")) in
       Forall (standalone_done g st') standalone ∧
       Forall2 (λ ps e, property_shape_map st' !! ps = Some e ∧
                        ET.tag_of e (elements st') = NS.q "element")
               (List.filter (emits_element g) standalone) pp) ∧
  (∀ u f s r s',
     inv (SHACL c) s → u ∉ processed_shapes s →
     process_node_shape (SHACL c) f u s = Ok r s' →
     ∃ ct r0 r1 inner elems,
       r = Some ct ∧ xsd_root s = Some r0 ∧ xsd_root s' = Some r1 ∧
       children r1 = children r0 ++ inner ++ elems ++ [ct] ∧
       length elems = length (objects (SHACL c) u (NS.sh "targetClass")) ∧
       Forall (λ e, ET.tag_of e (elements s') = NS.q "element") elems ∧
       ET.tag_of ct (elements s') = NS.q "complexType").
Proof.
  intros Hinv Hmc Hw Hfuel g. split.
  - destruct (refused_prefix c) eqn:Href.
    { unfold convert, mbind, M_bind. by rewrite (create_xsd_root_refused c st Href). }
    destruct (create_xsd_root_run c st Href) as (r0 & Hc & _ & Hkids0 & _).
    set (s0 := mkState _ _ _ _ _) in Hc.
    pose proof (inv_create_xsd_root g st r0 Hinv Hkids0) as Hinv0. fold s0 in Hinv0.
    destruct (wp_total _ _ _ _ _ (lower_node_shapes_wp c fuel s0 Hinv0))
      as ([] & s1 & H1 & T1).
    { intros H. apply H. split; [by eexists | done]. }
    { intros H. by apply (H w Hw). }
    assert (Hroot1 : ∃ r1, xsd_root s1 = Some r1).
    { pose proof (ev_root _ _ _ _ (tr_ev _ _ _ _ _ T1)) as G. unfold root_grows in G.
      cbn in G. destruct (xsd_root s1); [eauto | done]. }
    destruct Hroot1 as [r1 Hr1].
    destruct (wp_total _ _ _ _ _
                (lower_standalone_properties_wp c fuel s1 r1 (tr_inv _ _ _ _ _ T1) Hr1))
      as ([] & st' & H2 & T2 & _).
    { by intros H. }
    { intros H. apply (H w Hw). lia. }
    destruct (traversal_run g fuel (elements st') _ s0 s1 r0 Hinv0 eq_refl H1
                (ev_store _ _ _ _ (tr_ev _ _ _ _ _ T2)))
      as (new & r1' & Htr & _ & Hr1' & Hnew).
    assert (r1' = r1) as -> by congruence. rewrite Hkids0 in Hnew. cbn [app] in Hnew.
    pose proof H2 as Hloop. unfold lower_standalone_properties in Hloop.
    unfold mbind at 1, M_bind at 1, gets in Hloop.
    apply (standalone_run g fuel _ s1 r1 st' (tr_inv _ _ _ _ _ T1) Hr1) in Hloop.
    2:{ apply Forall_forall. intros ps [_ Hps%bool_decide_eq_true]%list_elem_of_In%filter_In.
        done. }
    destruct Hloop as (_ & Hdone & root & pp & Hroot & Hch & Hpp).
    exists s0, s1, st', r0, root, new, pp.
    split; [done|]. split; [done|]. split; [done|]. split; [done|].
    split; [by unfold convert, mbind, M_bind; rewrite Hc, H1|].
    split; [done|]. split; [by rewrite Hch, Hnew|]. split; [done|].
    split.
    { pose proof (inv_root _ _ (tr_inv _ _ _ _ _ T1) _ Hr1) as HF. rewrite Hnew in HF.
      eapply Forall_impl; [exact HF|]. intros i.
      apply (top_level_grows _ _ _ _ (ev_store _ _ _ _ (tr_ev _ _ _ _ _ T2))). }
    intros standalone. split; [done|].
    assert (Hemit : Forall (standalone_done g st') (List.filter (emits_element g) standalone)).
    { apply Forall_forall. intros ps [Hps _]%list_elem_of_In%filter_In.
      rewrite Forall_forall in Hdone. by apply Hdone, list_elem_of_In. }
    assert (Hkind : Forall (λ ps, emits_element g ps = true)
                           (List.filter (emits_element g) standalone)).
    { apply Forall_forall. by intros ps [_ ?]%list_elem_of_In%filter_In. }
    pose proof (Hpp : Forall2 (λ ps e, property_shape_map st' !! ps = Some e)
                              (List.filter (emits_element g) standalone) pp) as Hreg.
    clear Hpp. revert Hreg Hemit Hkind.
    generalize (List.filter (emits_element g) standalone). intros l0 Hpp Hemit Hkind.
    clear -Hpp Hemit Hkind.
    induction Hpp as [|ps e l k Hps _ IH]; [constructor|].
    apply Forall_cons in Hemit as [[_ Hreg] Hemit].
    apply Forall_cons in Hkind as [Hk Hkind].
    constructor; [|by apply IH]. split; [done|].
    unfold emits_element in Hk. apply andb_true_iff in Hk as [Hp Ha].
    rewrite Hp in Hreg. destruct Hreg as (e' & He' & Ht).
    assert (e' = e) as -> by congruence.
    by destruct (is_attribute g ps).
  - intros u f s r s' Hinvs Hu Hcall.
    pose proof (wp_Ok _ _ _ _ _ _ _ (process_node_shape_wp _ f u s Hinvs) Hcall) as Hpost.
    destruct (np_fresh _ _ _ _ _ Hpost Hu) as
      (-> & r0 & r1 & inner & elems & Hr0 & Hr1 & Hch & Hlen & _ & Helems & Htag & _).
    exists (length (elements s)), r0, r1, inner, elems.
    repeat (split; [done|]). split; [|done].
    eapply Forall_impl; [exact Helems|]. cbn. intros e He.
    by rewrite (tag_of_lookup _ _ _ He).
Qed.

Module Ex13.
(** [Ex.two_targets] in a converter whose prefix map holds a prefix of the
    kind rdflib generates for a namespace without one *)
Definition generated : converter :=
  mkConverter Ex.two_targets {["ns1" := NsURIRef "http://example.com/gen#"]}
              "http://example.com/" "http://example.com/".
End Ex13.

Lemma root_in_traversal_order_witness :
  1 + size (nodes Ex.two_targets ∖ processed_shapes init) < 12 ∧
  convert 12 Ex13.generated init = Raise "ValueError" ∧
  let g := Ex.two_targets in
  ∃ s0 s1 st' r0 root new pp,
    create_xsd_root (Ex.conv g) init = Ok tt s0 ∧ xsd_root s0 = Some r0 ∧
    children r0 = [] ∧
    lower_node_shapes 12 (Ex.conv g) s0 = Ok tt s1 ∧
    convert 12 (Ex.conv g) init = Ok tt st' ∧
    xsd_root st' = Some root ∧ children root = new ++ pp ∧
    traversal g 12 (elements st') (subjects g RDF_type (NS.sh "NodeShape")) s0 s1 new ∧
    Forall (top_level (elements st')) new ∧
    let standalone :=
      List.filter (λ ps, bool_decide (ps ∉ processed_shapes s1))
                  (subjects g RDF_type (NS.sh "PropertyShape")) in
    Forall (standalone_done g st') standalone ∧
    Forall2 (λ ps e, property_shape_map st' !! ps = Some e ∧
                     ET.tag_of e (elements st') = NS.q "element")
            (List.filter (emits_element g) standalone) pp.
Proof.
  split; [vm_compute; lia|].
  pose proof (root_in_traversal_order Ex13.generated 1 12 init (inv_init _)
                ltac:(vm_compute; reflexivity) ltac:(vm_compute; reflexivity)
                ltac:(vm_compute; lia)) as Hgen.
  pose proof (root_in_traversal_order (Ex.conv Ex.two_targets) 1 12 init (inv_init _)
                ltac:(vm_compute; reflexivity) ltac:(vm_compute; reflexivity)
                ltac:(vm_compute; lia)) as Hrun.
  cbv zeta in Hgen, Hrun. split; [exact (proj1 Hgen) | exact (proj1 Hrun)].
Defined.

(** * Unconvertible property shapes (C9) *)

(** a property shape with no sh:path and nothing else *)
Definition pathless : Graph :=
  [ (Ex.P, RDF_type, NS.sh "PropertyShape");
    (Ex.P, NS.sh "minCount", Literal "x" None None (Some true)) ].

(** C9: lowering a property shape that has no sh:path value returns none
    without raising, whatever else the shape carries and whether or not it
    was seen before: no element is created, the root and both registries
    are untouched; the shape is only marked as processed. *)
Theorem pathless_property_is_skipped g fuel u st :
  inv g st → value g u (NS.sh "path") = None →
  ∃ st',
    process_property_shape g fuel u st = Ok None st' ∧
    elements st' = elements st ∧ xsd_root st' = xsd_root st ∧
    node_shape_map st' = node_shape_map st ∧
    property_shape_map st' = property_shape_map st ∧
    processed_shapes st' = {[u]} ∪ processed_shapes st.
Proof.
  intros Hinv Hpath. destruct (decide (u ∈ processed_shapes st)) as [Hu|Hu].
  - exists st. rewrite process_property_shape_seen by done.
    destruct (property_shape_map st !! u) as [e|] eqn:He.
    + apply (inv_path _ _ Hinv) in He. by rewrite Hpath in He.
    + repeat split; try done. set_solver.
  - eexists. unfold process_property_shape, mbind, M_bind, gets, reserve, modify.
    rewrite decide_False by done. rewrite Hpath. cbn. done.
Qed.

Lemma pathless_property_is_skipped_witness :
  value pathless Ex.P (NS.sh "path") = None ∧
  ∃ st',
    process_property_shape pathless 3 Ex.P init = Ok None st' ∧
    elements st' = elements init ∧ xsd_root st' = xsd_root init ∧
    node_shape_map st' = node_shape_map init ∧
    property_shape_map st' = property_shape_map init ∧
    processed_shapes st' = {[Ex.P]} ∪ processed_shapes init.
Proof.
  split; [reflexivity|].
  apply (pathless_property_is_skipped pathless 3 Ex.P init (inv_init _)). reflexivity.
Defined.

(** * New leaves under an element *)

(** a childless element with one attribute *)
Definition leaf (t k v : string) : Elem := mkElem (NS.q t) {[k := v]} [].

(** the facet element [<name value="str(t)"/>] *)
Definition facet (name : string) (t : term) : Elem := leaf name "value" (str t).

Definition opt_facet (name : string) (v : option term) : list Elem :=
  match v with Some t => [facet name t] | None => [] end.

(** [adopt p ls h]: the store [h] once the new elements [ls] are created, in
    this order, as the last children of [p]. *)
Definition adopt (p : nat) (ls : list Elem) (h : store) : store :=
  alter (λ el, mkElem (tag el) (attrib el) (children el ++ seq (length h) (length ls))) p h
  ++ ls.

(** every child is an existing element *)
Definition wf_store (h : store) : Prop :=
  ∀ i el, h !! i = Some el → Forall (λ c, c < length h) (children el).

Lemma length_adopt p ls h : length (adopt p ls h) = length h + length ls.
Proof. unfold adopt. by rewrite length_app, length_alter. Qed.

Lemma adopt_nil p h : adopt p [] h = h.
Proof.
  unfold adopt. rewrite app_nil_r. apply list_alter_id.
  intros [t a c]. cbn. by rewrite app_nil_r.
Qed.

Lemma adopt_adopt p l1 l2 h :
  p < length h → adopt p l2 (adopt p l1 h) = adopt p (l1 ++ l2) h.
Proof.
  intros Hp. unfold adopt at 1. rewrite length_adopt. unfold adopt.
  rewrite alter_app_l by (by rewrite length_alter). rewrite <- app_assoc. f_equal.
  rewrite list_alter_alter_eq. apply list_alter_ext; [|done].
  intros [t a c] _. cbn. f_equal.
  by rewrite <- app_assoc, length_app, seq_app.
Qed.

Lemma SubElement_adopt p t h :
  p < length h → ET.SubElement p t h = (length h, adopt p [mkElem t ∅ []] h).
Proof.
  intros Hp. unfold ET.SubElement, ET.Element, ET.append, adopt. f_equal.
  by rewrite alter_app_l.
Qed.

Lemma ET_set_adopt_last p t a c k v h :
  p < length h →
  ET.set (length h) k v (adopt p [mkElem t a c] h) = adopt p [mkElem t (<[k := v]> a) c] h.
Proof.
  intros Hp. unfold adopt, ET.set.
  rewrite <- (length_alter (λ el, mkElem (tag el) (attrib el)
                                     (children el ++ seq (length h) (length [mkElem t a c]))) h p)
    at 1.
  rewrite <- (Nat.add_0_r (length (alter _ p h))) at 1. by rewrite alter_app_r.
Qed.

Lemma add_facet_adopt r name v h :
  r < length h → add_facet r name v h = adopt r (opt_facet name v) h.
Proof.
  intros Hr. destruct v as [t|]; cbn [add_facet opt_facet]; [|by rewrite adopt_nil].
  rewrite SubElement_adopt by done. by rewrite ET_set_adopt_last.
Qed.

Lemma add_facet_after r name v l h :
  r < length h →
  add_facet r name v (adopt r l h) = adopt r (l ++ opt_facet name v) h.
Proof.
  intros Hr. rewrite add_facet_adopt by (rewrite length_adopt; lia).
  by apply adopt_adopt.
Qed.

Lemma add_enumerations_adopt r values h :
  r < length h →
  add_enumerations r values h = adopt r (facet "enumeration" <$> values) h.
Proof.
  revert h. induction values as [|v values IH]; intros h Hr; cbn [add_enumerations fmap list_fmap].
  - by rewrite adopt_nil.
  - rewrite SubElement_adopt, ET_set_adopt_last by done.
    rewrite IH by (rewrite length_adopt; lia).
    by rewrite adopt_adopt.
Qed.

Lemma adopt_lookup_parent p ls h el :
  h !! p = Some el →
  adopt p ls h !! p =
    Some (mkElem (tag el) (attrib el) (children el ++ seq (length h) (length ls))).
Proof.
  intros Hel. pose proof (lookup_lt_Some _ _ _ Hel). unfold adopt.
  rewrite lookup_app_l by (by rewrite length_alter).
  by rewrite list_lookup_alter_eq, Hel.
Qed.

Lemma adopt_lookup_other p ls h i :
  i ≠ p → i < length h → adopt p ls h !! i = h !! i.
Proof.
  intros Hne Hi. unfold adopt. rewrite lookup_app_l by (by rewrite length_alter).
  by rewrite list_lookup_alter_ne.
Qed.

Lemma adopt_lookup_new p ls h j :
  adopt p ls h !! (length h + j) = ls !! j.
Proof.
  unfold adopt. rewrite lookup_app_r by (rewrite length_alter; lia).
  rewrite length_alter. f_equal. lia.
Qed.

Lemma wf_store_adopt p ls h :
  wf_store h → Forall (λ el, children el = []) ls → wf_store (adopt p ls h).
Proof.
  intros Hwf Hls i el Hel. rewrite length_adopt.
  destruct (decide (i < length h)) as [Hi|Hi].
  - destruct (decide (i = p)) as [->|Hne].
    + destruct (lookup_lt_is_Some_2 _ _ Hi) as [el0 Hel0].
      rewrite (adopt_lookup_parent _ _ _ _ Hel0) in Hel. injection Hel as <-. cbn.
      apply Forall_app. split.
      * eapply Forall_impl; [by eapply Hwf|]. cbn. lia.
      * apply Forall_forall. intros c [? ?]%elem_of_seq. lia.
    + rewrite adopt_lookup_other in Hel by done.
      eapply Forall_impl; [by eapply Hwf|]. cbn. lia.
  - replace i with (length h + (i - length h)) in Hel by lia.
    rewrite adopt_lookup_new in Hel.
    rewrite Forall_forall in Hls. rewrite (Hls el); [constructor|].
    by eapply list_elem_of_lookup_2.
Qed.

Lemma wf_store_set e k v h : wf_store h → wf_store (ET.set e k v h).
Proof.
  intros Hwf i el. rewrite length_ET_set. unfold ET.set. rewrite list_lookup_alter.
  case_decide; [|by apply Hwf]. subst.
  destruct (h !! i) as [el0|] eqn:H0; [|done]. intros [= <-]. cbn. by eapply Hwf.
Qed.

Lemma wf_store_discard e k h : wf_store h → wf_store (ET.discard e k h).
Proof.
  intros Hwf. unfold ET.discard. destruct (ET.has e k h); [|done].
  intros i el. rewrite length_ET_del. unfold ET.del. rewrite list_lookup_alter.
  case_decide; [|by apply Hwf]. subst.
  destruct (h !! i) as [el0|] eqn:H0; [|done]. intros [= <-]. cbn. by eapply Hwf.
Qed.

Lemma find_child_valid suffix e h c :
  wf_store h → ET.find_child suffix e h = Some c → c < length h.
Proof.
  intros Hwf Hc%find_child_elem. unfold ET.children_of in Hc.
  destruct (h !! e) as [el|] eqn:Hel; [|by apply elem_of_nil in Hc].
  pose proof (Hwf _ _ Hel) as HF. rewrite Forall_forall in HF. by apply HF.
Qed.

(** the restriction that [ensure_restriction] hands out exists *)
Lemma ensure_restriction_valid base e h r h2 :
  wf_store h → e < length h → ensure_restriction base e h = (r, h2) →
  r < length h2 ∧ wf_store h2.
Proof.
  intros Hwf He. unfold ensure_restriction.
  assert (Hs : ∃ s h1, match ET.find_child "simpleType" e h with
                       | Some s => (s, h)
                       | None => ET.SubElement e (NS.q "simpleType") h
                       end = (s, h1) ∧ s < length h1 ∧ wf_store h1 ∧ length h ≤ length h1).
  { destruct (ET.find_child "simpleType" e h) as [s|] eqn:Hf.
    - exists s, h. split; [done|]. split; [by eapply find_child_valid|]. done.
    - rewrite SubElement_adopt by done. eexists _, _. split; [done|].
      rewrite length_adopt. cbn. split; [lia|]. split; [|lia].
      apply wf_store_adopt; [done|]. by constructor. }
  destruct Hs as (s & h1 & -> & Hs & Hwf1 & Hl1).
  destruct (ET.find_child "restriction" s h1) as [r'|] eqn:Hf.
  - intros [= <- <-]. split; [by eapply find_child_valid | done].
  - rewrite SubElement_adopt by done. intros [= <- <-].
    rewrite length_ET_discard, length_ET_set, length_adopt. cbn. split; [lia|].
    apply wf_store_discard, wf_store_set, wf_store_adopt; [done|]. by constructor.
Qed.

(** * Facet compilation (C1, C8) *)

Section FacetOrder.
Variables (g : Graph) (u : term).

(** the datatype a new restriction is based on *)
Definition facet_base : string :=
  match value g u (NS.sh "datatype") with
  | Some d => if truthy d then local_name d else "decimal"
  | None => "decimal"
  end.

(** the test of line 449: a pattern or a length bound is present *)
Definition facets_requested : bool :=
  truthy_opt (value g u (NS.sh "pattern"))
  || bool_decide (value g u (NS.sh "minLength") ≠ None)
  || bool_decide (value g u (NS.sh "maxLength") ≠ None)
  || bool_decide (value g u (NS.sh "length") ≠ None).

(** The canonical order, first part: pattern, minExclusive, maxExclusive,
    minInclusive, maxInclusive, each when present. *)
Definition bound_facets : list Elem :=
  (if truthy_opt (value g u (NS.sh "pattern"))
   then opt_facet "pattern" (value g u (NS.sh "pattern")) else [])
  ++ opt_facet "minExclusive" (value g u (NS.sh "minExclusive"))
  ++ opt_facet "maxExclusive" (value g u (NS.sh "maxExclusive"))
  ++ opt_facet "minInclusive" (value g u (NS.sh "minInclusive"))
  ++ opt_facet "maxInclusive" (value g u (NS.sh "maxInclusive")).

(** The canonical order, second part: length, or else minLength and
    maxLength; an equal pair without an explicit length counts as a length. *)
Definition length_facets : list Elem :=
  match value g u (NS.sh "length"),
        value g u (NS.sh "minLength"), value g u (NS.sh "maxLength") with
  | Some l, _, _ => [facet "length" l]
  | None, Some mn, Some mx =>
      if decide (mn = mx) then [facet "length" mn]
      else [facet "minLength" mn; facet "maxLength" mx]
  | None, mn, mx => opt_facet "minLength" mn ++ opt_facet "maxLength" mx
  end.

(** When a pattern or a length bound is present, the sequence of conditional
    [SubElement] calls of lines 478-517 creates, under the restriction, the
    facets of the canonical order and nothing else. *)
Lemma process_facet_constraints_adopt e h r h2 :
  facets_requested = true →
  ensure_restriction facet_base e h = (r, h2) → r < length h2 →
  process_facet_constraints g u e h = adopt r (bound_facets ++ length_facets) h2.
Proof.
  intros Hreq Hens Hr.
  unfold process_facet_constraints. fold facet_base. fold facets_requested.
  rewrite Hreq, Hens. cbn [negb].
  set (h3 := if truthy_opt (value g u (NS.sh "pattern"))
             then add_facet r "pattern" (value g u (NS.sh "pattern")) h2 else h2).
  assert (H3 : h3 = adopt r (if truthy_opt (value g u (NS.sh "pattern"))
                             then opt_facet "pattern" (value g u (NS.sh "pattern"))
                             else []) h2).
  { subst h3. destruct (truthy_opt _); [by apply add_facet_adopt | by rewrite adopt_nil]. }
  clearbody h3. subst h3.
  unfold bound_facets, length_facets.
  destruct (value g u (NS.sh "length")) as [l|];
    destruct (value g u (NS.sh "minLength")) as [mn|];
    destruct (value g u (NS.sh "maxLength")) as [mx|]; cbn [andb bool_decide];
    rewrite ?bool_decide_eq_true_2 by done;
    rewrite ?(bool_decide_eq_false_2 (Some _ = None)) by done;
    rewrite ?(bool_decide_eq_false_2 (None ≠ None)) by (by intros []);
    cbn [andb];
    try (rewrite !add_facet_after by done; cbn [opt_facet];
         rewrite <- ?app_assoc, ?app_nil_r; done).
  destruct (decide (mn = mx)) as [->|Hne].
  - rewrite !bool_decide_eq_true_2 by done.
    rewrite !add_facet_after by done. cbn [opt_facet].
    by rewrite <- ?app_assoc, ?app_nil_r.
  - rewrite (bool_decide_eq_false_2 (Some mn = Some mx)) by congruence.
    rewrite !add_facet_after by done. cbn [opt_facet].
    by rewrite <- ?app_assoc, ?app_nil_r.
Qed.

(** Without a pattern and without a length bound the early return of line
    451 leaves the tree alone, whatever numeric bounds the shape has. *)
Lemma process_facet_constraints_skip e h :
  facets_requested = false → process_facet_constraints g u e h = h.
Proof.
  intros Hreq. unfold process_facet_constraints. fold facets_requested. by rewrite Hreq.
Qed.
End FacetOrder.

Lemma facets_requested_bounds g u :
  value g u (NS.sh "minLength") ≠ None ∨ value g u (NS.sh "maxLength") ≠ None →
  facets_requested g u = true.
Proof.
  unfold facets_requested. intros [H|H]; rewrite (bool_decide_eq_true_2 _ H);
    by rewrite ?orb_true_r.
Qed.

Module Ex2.
Import Ex.
(** [<xs:element name="p" type="string"/>], alone in the store *)
Definition lone_element (ty : string) : store :=
  [mkElem (NS.q "element") (<["type" := ty]> {["name" := "p"]}) []].

Lemma wf_lone_element ty : wf_store (lone_element ty).
Proof. intros [|i] el; [|done]. intros [= <-]. constructor. Qed.

(** [sh:minLength 5 ; sh:maxLength 5] *)
Definition equal_lengths : Graph :=
  [ (P, RDF_type, NS.sh "PropertyShape");
    (P, NS.sh "path", ex "p");
    (P, NS.sh "datatype", NS.xsd "string");
    (P, NS.sh "minLength", typed_int "5" true);
    (P, NS.sh "maxLength", typed_int "5" true) ].

(** [sh:minInclusive 0 ; sh:maxInclusive 150], and no other facet *)
Definition numeric_only : Graph :=
  [ (P, RDF_type, NS.sh "PropertyShape");
    (P, NS.sh "path", ex "age");
    (P, NS.sh "datatype", NS.xsd "integer");
    (P, NS.sh "minInclusive", typed_int "0" false);
    (P, NS.sh "maxInclusive", typed_int "150" true) ].
End Ex2.

(** C1 (facet compilation).  On a well-formed tree, the facet step of
    property-shape lowering does one of two things.  When the shape has a
    non-empty pattern or a length bound (minLength, maxLength, length), it
    finds or creates the inline simpleType/restriction of the element and
    gives the restriction, as new last children, exactly the facets that are
    present, in the order pattern, minExclusive, maxExclusive, minInclusive,
    maxInclusive, then length or else minLength, maxLength.  When the shape
    has neither, it leaves the tree as it is: numeric bounds alone do not
    start a restriction, and their facets are not written. *)
Theorem facet_compilation g u e h r h2 :
  wf_store h → e < length h →
  ensure_restriction (facet_base g u) e h = (r, h2) →
  process_facet_constraints g u e h =
    if facets_requested g u
    then adopt r (bound_facets g u ++ length_facets g u) h2
    else h.
Proof.
  intros Hwf He Hens. destruct (facets_requested g u) eqn:Hreq.
  - apply process_facet_constraints_adopt; [done | done |].
    by destruct (ensure_restriction_valid _ _ _ _ _ Hwf He Hens).
  - by apply process_facet_constraints_skip.
Qed.

(** The shape [sh:datatype xsd:integer ; sh:minInclusive 0 ;
    sh:maxInclusive 150] keeps [<xs:element name="p" type="integer"/>]. *)
Lemma facet_compilation_witness :
  value Ex2.numeric_only Ex.P (NS.sh "minInclusive") = Some (Ex.typed_int "0" false) ∧
  value Ex2.numeric_only Ex.P (NS.sh "maxInclusive") = Some (Ex.typed_int "150" true) ∧
  process_facet_constraints Ex2.numeric_only Ex.P 0 (Ex2.lone_element "integer") =
    Ex2.lone_element "integer".
Proof.
  split; [reflexivity|]. split; [reflexivity|].
  pose (re := ensure_restriction (facet_base Ex2.numeric_only Ex.P) 0
                (Ex2.lone_element "integer")).
  exact (facet_compilation Ex2.numeric_only Ex.P 0 (Ex2.lone_element "integer")
           re.1 re.2 (Ex2.wf_lone_element "integer") (Nat.lt_0_succ 0)
           (surjective_pairing re)).
Defined.

(** The same shape run through [process_property_shape]: the element that
    is returned has its scalar type and no child. *)
Lemma numeric_only_keeps_scalar_type :
  let r := process_property_shape Ex2.numeric_only 3 Ex.P init in
  Ex.value_of r = Some (Some 0) ∧
  elements (Ex.state_of r) =
    [mkElem (NS.q "element") (<["type" := "integer"]> {["name" := "p"]}) []].
Proof. intros r. split; vm_compute; reflexivity. Qed.

(** C8 (length collapse).  For a property shape with no explicit [sh:length]:
    when [sh:minLength] and [sh:maxLength] carry the same value, the facets
    written after the pattern and the numeric bounds are the single facet
    [length] with that value; when the two differ, they are [minLength] and
    [maxLength], each only if present. *)
Theorem length_collapse g u e h r h2 :
  wf_store h → e < length h →
  ensure_restriction (facet_base g u) e h = (r, h2) →
  value g u (NS.sh "length") = None →
  let mn := value g u (NS.sh "minLength") in
  let mx := value g u (NS.sh "maxLength") in
  (∀ v, mn = Some v → mx = Some v →
        process_facet_constraints g u e h =
          adopt r (bound_facets g u ++ [facet "length" v]) h2) ∧
  (mn ≠ mx →
   process_facet_constraints g u e h =
     adopt r (bound_facets g u ++ opt_facet "minLength" mn ++ opt_facet "maxLength" mx) h2).
Proof.
  intros Hwf He Hens Hlen mn mx. split.
  - intros v Hmn Hmx.
    rewrite (process_facet_constraints_adopt g u e h r h2);
      [| apply facets_requested_bounds; left; fold mn; congruence | done
       | by destruct (ensure_restriction_valid _ _ _ _ _ Hwf He Hens)].
    unfold length_facets. fold mn mx. rewrite Hlen, Hmn, Hmx.
    by rewrite decide_True.
  - intros Hne.
    rewrite (process_facet_constraints_adopt g u e h r h2);
      [| | done | by destruct (ensure_restriction_valid _ _ _ _ _ Hwf He Hens)].
    + unfold length_facets. fold mn mx. rewrite Hlen.
      destruct mn as [a|], mx as [b|]; try done.
      by rewrite decide_False by congruence.
    + apply facets_requested_bounds. fold mn mx.
      destruct mn, mx; try done; first [by left | by right].
Qed.

(** [sh:minLength 5 ; sh:maxLength 5] on [<xs:element name="p"
    type="string"/>]: a restriction with the one facet [length = 5]. *)
Lemma length_collapse_witness :
  let re := ensure_restriction (facet_base Ex2.equal_lengths Ex.P) 0
              (Ex2.lone_element "string") in
  value Ex2.equal_lengths Ex.P (NS.sh "length") = None ∧
  re.1 = 2 ∧
  process_facet_constraints Ex2.equal_lengths Ex.P 0 (Ex2.lone_element "string") =
    adopt 2 [facet "length" (Ex.typed_int "5" true)] re.2.
Proof.
  intros re. split; [reflexivity|]. split; [reflexivity|].
  exact (proj1 (length_collapse Ex2.equal_lengths Ex.P 0 (Ex2.lone_element "string")
                  re.1 re.2 (Ex2.wf_lone_element "string") (Nat.lt_0_succ 0)
                  (surjective_pairing re) eq_refl)
           (Ex.typed_int "5" true) eq_refl eq_refl).
Defined.

(** * Disjunctions (C6, C10) *)



(** [<xs:union memberTypes="n1 n2 ..."/>] *)
Definition union_of (names : list string) : Elem :=
  leaf "union" "memberTypes" (PyStr.join " " names).

(** [simple_type_with p inner h]: [p] gets a new last child [simpleType],
    whose one child is [inner]. *)
Definition simple_type_with (p : nat) (inner : Elem) (h : store) : store :=
  adopt (length h) [inner] (adopt p [mkElem (NS.q "simpleType") ∅ []] h).




Lemma simple_type_union p names h :
  p < length h →
  (let '(simple_type, h1) := ET.SubElement p (NS.q "simpleType") h in
   let '(union, h2) := ET.SubElement simple_type (NS.q "union") h1 in
   ET.set union "memberTypes" (PyStr.join " " names) h2)
  = simple_type_with p (union_of names) h.
Proof.
  intros Hp. rewrite SubElement_adopt by done. cbv beta iota.
  rewrite SubElement_adopt by (rewrite length_adopt; cbn; lia). cbv beta iota.
  rewrite ET_set_adopt_last by (rewrite length_adopt; cbn; lia).
  by rewrite insert_empty.
Qed.

(** The scalar-uniform branch of [process_choice_constraint]: no recursive
    call, only the three tree operations. *)
Lemma process_choice_constraint_union g lower fuel l p st items :
  p < length (elements st) →
  get_rdf_list_items fuel g l = Some items →
  are_simple_type_constraints g items = true →
  process_choice_constraint g lower fuel l p false st =
    Ok tt (with_elements st (simple_type_with p (union_of (member_types g items))
                                              (elements st))).
Proof.
  intros Hp Hitems Hsimple.
  rewrite <- (simple_type_union p (member_types g items) (elements st) Hp).
  unfold process_choice_constraint, mbind, M_bind, of_walk. rewrite Hitems.
  cbn [mret M_ret]. rewrite Hsimple. unfold new_elem.
  destruct (ET.SubElement p (NS.q "simpleType") (elements st)) as [s h1]. cbn [elements].
  destruct (ET.SubElement s (NS.q "union") h1) as [un h2]. reflexivity.
Qed.









(** ** The children of a choice *)

(** [<xs:element ref="..."/>], the reference to a node-shape branch *)
Definition ref_element (g : Graph) (item : term) : Elem :=
  mkElem (NS.q "element") {["ref" := get_shape_name g item]} [].

(** [a] is what [process_rdf_list] appended to [p] for the branch [item]:
    the registered element of a property shape, or a new reference to a
    node shape that has a complex type. *)
Definition branch_child (g : Graph) (p : nat) (s : state) (item : term) (a : nat) : Prop :=
  if has_triple g item RDF_type (NS.sh "PropertyShape")
  then property_shape_map s !! item = Some a
  else is_Some (node_shape_map s !! item) ∧ p < a ∧
       elements s !! a = Some (ref_element g item).

(** nothing was appended for [item]: its lowering returned none *)
Definition branch_skipped (g : Graph) (s : state) (item : term) : Prop :=
  if has_triple g item RDF_type (NS.sh "PropertyShape")
  then property_shape_map s !! item = None
  else node_shape_map s !! item = None.

(** [kids] are the children made for the branches [items], in order *)
Inductive branches (g : Graph) (p : nat) (s : state) : list term → list nat → Prop :=
| branches_nil : branches g p s [] []
| branches_child item a items kids :
    branch_child g p s item a → branches g p s items kids →
    branches g p s (item :: items) (a :: kids)
| branches_skip item items kids :
    branch_skipped g s item → branches g p s items kids →
    branches g p s (item :: items) kids.

Lemma branches_snoc_child g p s items kids item a :
  branches g p s items kids → branch_child g p s item a →
  branches g p s (items ++ [item]) (kids ++ [a]).
Proof.
  intros Hb Hc. induction Hb; cbn.
  - apply branches_child; [done | apply branches_nil].
  - by apply branches_child.
  - by apply branches_skip.
Qed.

Lemma branches_snoc_skip g p s items kids item :
  branches g p s items kids → branch_skipped g s item →
  branches g p s (items ++ [item]) kids.
Proof.
  intros Hb Hc. induction Hb; cbn.
  - apply branches_skip; [done | apply branches_nil].
  - by apply branches_child.
  - by apply branches_skip.
Qed.

(** the children that stand for branches survive a step that keeps the
    registry entries of the branches and the elements after [p] *)
Lemma branches_stable g p s1 s2 items kids :
  (∀ item, item ∈ items →
     property_shape_map s2 !! item = property_shape_map s1 !! item ∧
     node_shape_map s2 !! item = node_shape_map s1 !! item) →
  (∀ a, p < a → a < length (elements s1) → elements s2 !! a = elements s1 !! a) →
  branches g p s1 items kids → branches g p s2 items kids.
Proof.
  intros Hreg Hst Hb. induction Hb as [|item a items kids Hc _ IH|item items kids Hk _ IH].
  - apply branches_nil.
  - destruct (Hreg item) as [Hp Hn]; [left|].
    apply branches_child; [|apply IH; intros i Hi; apply Hreg; by right].
    unfold branch_child in *. destruct (has_triple g item RDF_type (NS.sh "PropertyShape")).
    + by rewrite Hp.
    + destruct Hc as (Hs & Hlt & Hel). rewrite Hn. split; [done|]. split; [done|].
      rewrite Hst; [done | done | by eapply lookup_lt_Some].
  - destruct (Hreg item) as [Hp Hn]; [left|].
    apply branches_skip; [|apply IH; intros i Hi; apply Hreg; by right].
    unfold branch_skipped in *. destruct (has_triple g item RDF_type (NS.sh "PropertyShape")).
    + by rewrite Hp.
    + by rewrite Hn.
Qed.

Lemma branches_evolves g p b s1 s2 items kids :
  evolves (length (elements s1)) b s1 s2 →
  Forall (λ i, i ∈ processed_shapes s1) items →
  branches g p s1 items kids → branches g p s2 items kids.
Proof.
  intros [_ Hn Hp [_ Hsame] _] Hdone. apply branches_stable.
  - intros item Hi. rewrite Forall_forall in Hdone. split; [apply Hp | apply Hn]; auto.
  - intros a _ Ha. by apply Hsame.
Qed.

Lemma children_of_append p e h :
  p < length h → ET.children_of p (ET.append p e h) = ET.children_of p h ++ [e].
Proof.
  intros Hp. unfold ET.children_of, ET.append. rewrite list_lookup_alter_eq.
  destruct (lookup_lt_is_Some_2 _ _ Hp) as [el ->]. done.
Qed.

Lemma lookup_append_ne p e h a : a ≠ p → ET.append p e h !! a = h !! a.
Proof. intros. unfold ET.append. by rewrite list_lookup_alter_ne. Qed.

Section ChoiceChildren.
Variables (g : Graph) (fuel : nat) (lower : term → M (option nat)).

Hypothesis Hlower : ∀ v s, inv g s →
  wp (lower v) s (node_post g v s) (¬ raises_ok g s)
     (∀ w N, enough g w N fuel s → v ∈ N → False).

(** [process_rdf_list] gives [p], after the children it had, one child per
    branch whose lowering returned a node. *)
Lemma process_rdf_list_children l p s x q :
  inv g s → p < length (elements s) → l ∈ objects g x q →
  wp (process_rdf_list g lower fuel l p) s
     (λ _ s', ∀ items, get_rdf_list_items fuel g l = Some items →
              ∃ kids, ET.children_of p (elements s') =
                        ET.children_of p (elements s) ++ kids ∧
                      branches g p s' items kids)
     (¬ raises_ok g s) (∀ w N, enough g w N fuel s → False).
Proof.
  intros Hinv Hp Hl. unfold process_rdf_list.
  apply wp_bind, wp_of_walk.
  2:{ intros Hnone w N Hen.
      destruct (enough_walk g fuel w N s x q l Hen Hl). congruence. }
  intros items Hitems. cbn beta.
  eapply wp_mono; [| | intros H; exact H | intros H; exact H].
  { apply (wp_for_each_ind items _
             (λ done s', track g p (length (elements s)) s s' ∧
                         Forall (λ i, i ∈ processed_shapes s') done ∧
                         ∃ kids, ET.children_of p (elements s') =
                                   ET.children_of p (elements s) ++ kids ∧
                                 branches g p s' done kids)).
    { split; [by apply track_start|]. split; [constructor|].
      exists []. split; [by rewrite app_nil_r | apply branches_nil]. }
    intros pre item post s1 Hsplit (Ht & Hdone & kids & Hkids & Hbr).
    pose proof (evolves_length _ _ _ _ (tr_ev _ _ _ _ _ Ht)) as Hlen.
    assert (Hstable : ∀ s2 n b, track g n b s1 s2 →
              Forall (λ i, i ∈ processed_shapes s2) pre).
    { intros s2 n b [[Hsub _ _ _ _] _].
      eapply Forall_impl; [exact Hdone|]. cbn. intros i Hi. by apply Hsub. }
    assert (Hframe : ∀ s2 b, track g (length (elements s1)) b s1 s2 →
              ET.children_of p (elements s2) = ET.children_of p (elements s) ++ kids ∧
              branches g p s2 pre kids).
    { intros s2 b T. split.
      - rewrite <- Hkids. unfold ET.children_of.
        destruct T as [[_ _ _ [_ Hsame] _] _]. by rewrite Hsame by lia.
      - eapply branches_evolves; [exact (tr_ev _ _ _ _ _ T) | exact Hdone | exact Hbr]. }
    assert (Happend : ∀ s2 e, p < length (elements s2) →
              branches g p s2 pre kids →
              branches g p (with_elements s2 (ET.append p e (elements s2))) pre kids).
    { intros s2 e Hp2. apply branches_stable; [done|].
      intros a Ha _. cbn [elements with_elements]. apply lookup_append_ne. lia. }
    destruct (has_triple g item RDF_type (NS.sh "PropertyShape")) eqn:Hkind.
    - apply wp_bind.
      eapply wp_mono; [apply process_property_shape_wp, (tr_inv _ _ _ _ _ Ht) | | | ].
      2:{ intros H [_ Hm]. auto. }
      2:{ intros H w N (Hw & _ & Hf). apply (H w Hw). lia. }
      intros r s2 Hpost. cbn beta.
      pose proof (pp_track _ _ _ _ _ Hpost) as Ht2.
      assert (Ht' : track g p (length (elements s)) s s2).
      { eapply track_trans; [| |exact Ht|exact Ht2]; lia. }
      assert (Hd' : Forall (λ i, i ∈ processed_shapes s2) (pre ++ [item])).
      { apply Forall_app. split; [by eapply Hstable|]. constructor; [|constructor].
        rewrite (pp_processed _ _ _ _ _ Hpost). set_solver. }
      destruct (Hframe s2 _ Ht2) as [Hk2 Hb2].
      pose proof (evolves_length _ _ _ _ (tr_ev _ _ _ _ _ Ht2)) as Hlen2.
      pose proof (pp_result _ _ _ _ _ Hpost) as Hr.
      destruct r as [e|].
      + apply wp_on_store. split; [|split; [exact Hd'|]].
        { apply track_store; [exact Ht'|]. by apply grows_append. }
        exists (kids ++ [e]). cbn [elements with_elements]. split.
        * rewrite children_of_append by lia. by rewrite Hk2, app_assoc.
        * apply branches_snoc_child; [apply Happend; [lia | done]|].
          unfold branch_child. by rewrite Hkind.
      + apply wp_ret. split; [done|]. split; [done|]. exists kids. split; [done|].
        apply branches_snoc_skip; [done|]. unfold branch_skipped. by rewrite Hkind.
    - apply wp_bind.
      eapply wp_mono; [apply Hlower, (tr_inv _ _ _ _ _ Ht) | | | ].
      2:{ intros H Hok. apply H. by eapply raises_ok_track. }
      2:{ intros H w N Hen. apply (H w N).
          - eapply enough_mono; [exact Hen | | done].
            by destruct Ht as [[? _ _ _ _] _].
          - destruct Hen as (_ & HN & _). apply HN.
            eapply get_rdf_list_items_nodes; [exact Hitems|]. rewrite Hsplit.
            apply elem_of_app. right. left. }
      intros r s2 Hpost. cbn beta.
      pose proof (np_track _ _ _ _ _ Hpost) as Ht2.
      assert (Ht' : track g p (length (elements s)) s s2).
      { eapply track_trans; [| |exact Ht|exact Ht2]; lia. }
      assert (Hd' : Forall (λ i, i ∈ processed_shapes s2) (pre ++ [item])).
      { apply Forall_app. split; [by eapply Hstable|]. constructor; [|constructor].
        apply (np_done _ _ _ _ _ Hpost). }
      destruct (Hframe s2 _ Ht2) as [Hk2 Hb2].
      pose proof (evolves_length _ _ _ _ (tr_ev _ _ _ _ _ Ht')) as Hlen2.
      pose proof (np_result _ _ _ _ _ Hpost) as Hr.
      destruct r as [e|].
      2:{ apply wp_ret. split; [done|]. split; [done|]. exists kids. split; [done|].
          apply branches_snoc_skip; [done|]. unfold branch_skipped. by rewrite Hkind. }
      apply wp_bind, wp_new_elem. intros re h1 Hre.
      pose proof (ET_Element_eq _ _ _ _ Hre) as [Hree Hh1].
      apply wp_bind, wp_on_store, wp_on_store. norm_state.
      split; [|split; [exact Hd'|]].
      { pose proof (track_store g _ _ s s2 h1 Ht') as T1.
        pose proof (track_store g _ _ s _
                      (ET.set re "ref" (get_shape_name g item) h1) (T1 ltac:(
                        eapply grows_Element; [|exact Hre]; lia))) as T2.
        cbn [elements with_elements] in T2.
        pose proof (track_store g _ _ s _
                      (ET.append p re (ET.set re "ref" (get_shape_name g item) h1))
                      (T2 ltac:(apply grows_set; lia))) as T3.
        cbn [elements with_elements] in T3. apply T3. by apply grows_append. }
      exists (kids ++ [re]). subst re h1. rewrite ET_set_last. cbn [tag attrib children].
      rewrite insert_empty. fold (ref_element g item). split.
      + rewrite children_of_append by (rewrite length_app; cbn; lia).
        rewrite app_assoc, <- Hk2. f_equal. unfold ET.children_of.
        by rewrite lookup_app_l by lia.
      + apply branches_snoc_child.
        * eapply branches_stable; [| |exact Hb2]; [done|].
          intros a Ha Ha2. cbn [elements with_elements].
          rewrite lookup_append_ne by lia. by rewrite lookup_app_l.
        * unfold branch_child. rewrite Hkind. cbn [node_shape_map elements with_elements].
          split; [rewrite <- Hr; eauto|]. split; [lia|].
          rewrite lookup_append_ne by lia.
          by rewrite lookup_app_r, Nat.sub_diag by lia. }
  intros [] s' (_ & _ & Hk). intros items' Hi'. by replace items' with items by congruence.
Qed.

(** The choice that [process_choice_constraint] makes has exactly the
    children made for the branches. *)
Lemma choice_children_wp l p s x q :
  inv g s → p < length (elements s) → l ∈ objects g x q →
  wp (choice ← new_elem (ET.SubElement p (NS.q "choice"));
      process_rdf_list g lower fuel l choice) s
     (λ _ s', ∀ items, get_rdf_list_items fuel g l = Some items →
              ∃ kids, ET.children_of (length (elements s)) (elements s') = kids ∧
                      branches g (length (elements s)) s' items kids)
     (¬ raises_ok g s) (∀ w N, enough g w N fuel s → False).
Proof.
  intros Hinv Hp Hl.
  apply wp_bind, wp_new_elem. intros c h1 Hc.
  destruct (lookup_lt_is_Some_2 _ _ Hp) as [el Hel].
  pose proof (lookup_SubElement _ _ _ _ _ _ Hc Hel) as (Hce & Hp1 & Hc1).
  pose proof (SubElement_fresh _ _ _ _ _ Hc) as [_ Hl1].
  assert (T1 : track g p (length (elements s)) s (with_elements s h1)).
  { apply track_store; [by apply track_start|].
    eapply grows_SubElement; [| |exact Hc]; lia. }
  eapply wp_mono;
    [eapply (process_rdf_list_children l c (with_elements s h1));
       [exact (tr_inv _ _ _ _ _ T1) | | exact Hl] | | | ].
  { norm_state. lia. }
  2:{ intros H Hok. apply H. by eapply raises_ok_track. }
  2:{ intros H w N Hen. apply (H w N). eapply enough_mono; [exact Hen | done | done]. }
  norm_state. intros [] s' Hk items Hitems.
  destruct (Hk items Hitems) as (kids & Hkids & Hbr). exists kids. subst c.
  split; [|done]. rewrite Hkids. unfold ET.children_of. by rewrite Hc1.
Qed.
End ChoiceChildren.


Module Ex3.
Import Ex.
Definition S1 : term := ex "NodeShape/S1".
Definition S2 : term := ex "NodeShape/S2".


(** [sh:or ( S1 P )]: [P] is a property shape and declares no datatype *)
Definition mixed_or : Graph :=
  [ (A, RDF_type, NS.sh "NodeShape");
    (A, NS.sh "or", BNode "l1");
    (BNode "l1", RDF_first, S1);
    (BNode "l1", RDF_rest, BNode "l2");
    (BNode "l2", RDF_first, P);
    (BNode "l2", RDF_rest, RDF_nil);
    (S1, NS.sh "datatype", NS.xsd "string");
    (P, RDF_type, NS.sh "PropertyShape");
    (P, NS.sh "path", ex "p") ].

(** [sh:or ()] *)
Definition empty_or : Graph :=
  [ (A, RDF_type, NS.sh "NodeShape");
    (A, NS.sh "or", RDF_nil) ].

(** the converter inside [process_node_shape] on [A], when the disjunction
    is reached: the complex type is the one element *)
Definition at_disjunction (g : Graph) : state :=
  mkState {[A]} (xsd_root (rooted g)) ∅ ∅
          [mkElem (NS.q "complexType") {["name" := "A"]} []].

Lemma inv_at_disjunction g : inv g (at_disjunction g).
Proof.
  split; unfold at_disjunction; cbn [property_shape_map node_shape_map].
  - intros u e. by rewrite lookup_empty.
  - intros u e. by rewrite lookup_empty.
  - intros u e. by rewrite lookup_empty.
  - intros r [= <-]. constructor.
Qed.
End Ex3.

(** C10 (empty disjunction).  The scalar-uniform classifier holds of the
    empty sequence; so a node-level [sh:or] whose list walk yields no item
    gives the parent a simpleType with a union whose [memberTypes] is the
    empty string: no choice element is made, and no branch is lowered. *)
Theorem empty_disjunction_is_union g lower fuel l p st :
  p < length (elements st) →
  get_rdf_list_items fuel g l = Some [] →
  are_simple_type_constraints g [] = true ∧
  process_choice_constraint g lower fuel l p false st =
    Ok tt (with_elements st
             (simple_type_with p (leaf "union" "memberTypes" "") (elements st))).
Proof.
  intros Hp Hitems. split; [done|].
  by rewrite (process_choice_constraint_union g lower fuel l p st [] Hp Hitems).
Qed.

Lemma empty_disjunction_is_union_witness :
  objects Ex3.empty_or Ex.A (NS.sh "or") = [RDF_nil] ∧
  are_simple_type_constraints Ex3.empty_or [] = true ∧
  process_choice_constraint Ex3.empty_or (process_node_shape Ex3.empty_or 2) 2 RDF_nil 0
                            false (Ex3.at_disjunction Ex3.empty_or) =
    Ok tt (with_elements (Ex3.at_disjunction Ex3.empty_or)
             [ mkElem (NS.q "complexType") {["name" := "A"]} [1];
               mkElem (NS.q "simpleType") ∅ [2];
               mkElem (NS.q "union") {["memberTypes" := ""]} [] ]).
Proof.
  split; [reflexivity|].
  exact (empty_disjunction_is_union Ex3.empty_or (process_node_shape Ex3.empty_or 2) 2
           RDF_nil 0 (Ex3.at_disjunction Ex3.empty_or) (Nat.lt_0_succ 0) eq_refl).
Defined.

(** ** The branches of a choice, lowered in turn *)














(** The tree of the second example: the choice holds a reference to the
    node shape [S1], whose complex type is element 2, and the element of the
    property shape [P]. *)
Lemma mixed_disjunction_tree :
  let r := process_choice_constraint Ex3.mixed_or (process_node_shape Ex3.mixed_or 20) 20
             (BNode "l1") 0 false (Ex3.at_disjunction Ex3.mixed_or) in
  elements (Ex.state_of r) =
    [ mkElem (NS.q "complexType") {["name" := "A"]} [1];
      mkElem (NS.q "choice") ∅ [3; 4];
      mkElem (NS.q "complexType") {["name" := "S1"]} [];
      mkElem (NS.q "element") {["ref" := "S1"]} [];
      mkElem (NS.q "element") {["name" := "p"]} [] ] ∧
  Ex.root_children (Ex.state_of r) = [2].
Proof. intros r. split; vm_compute; reflexivity. Qed.

(** * Enumerations (C5) *)

(** [is_rdf_list g l ms]: [l] heads a well-formed RDF list whose members
    are [ms]; every cell has a first member and a named next cell, and the
    last cell ends in [rdf:nil]. *)
Inductive is_rdf_list (g : Graph) : term → list term → Prop :=
| list_nil : is_rdf_list g RDF_nil []
| list_cons l m next ms :
    l ≠ RDF_nil →
    value g l RDF_first = Some m →
    value g l RDF_rest = Some next → truthy next = true →
    is_rdf_list g next ms →
    is_rdf_list g l (m :: ms).

Lemma get_rdf_list_items_S fuel g l :
  get_rdf_list_items (S fuel) g l =
    if decide (l = RDF_nil) then Some []
    else
      let items := match value g l RDF_first with
                   | Some i => if truthy i then [i] else []
                   | None => []
                   end in
      match value g l RDF_rest with
      | Some next =>
          if truthy next then app items <$> get_rdf_list_items fuel g next else Some items
      | None => Some items
      end.
Proof. reflexivity. Qed.

(** On a well-formed list without falsy members the walk yields the
    members, within one round per cell. *)
Lemma get_rdf_list_items_list g l ms fuel :
  is_rdf_list g l ms → Forall (λ m, truthy m = true) ms → length ms < fuel →
  get_rdf_list_items fuel g l = Some ms.
Proof.
  intros Hl. revert fuel.
  induction Hl as [|l m next ms Hne Hfirst Hrest Hnext _ IH]; intros fuel Hall Hlen.
  - destruct fuel as [|fuel]; [cbn in Hlen; lia|]. rewrite get_rdf_list_items_S.
    by rewrite decide_True.
  - destruct fuel as [|fuel]; [cbn in Hlen; lia|]. rewrite get_rdf_list_items_S.
    rewrite decide_False by done. rewrite Hfirst, Hrest, Hnext.
    apply Forall_cons in Hall as [Hm Hall]. rewrite Hm. cbv zeta.
    rewrite IH; [done | done | cbn in Hlen; lia].
Qed.

Lemma is_rdf_list_has_first g l m ms :
  is_rdf_list g l (m :: ms) → has_any g l RDF_first = true.
Proof.
  inversion 1 as [|? ? ? ? _ Hfirst]; subst. unfold value in Hfirst. unfold has_any.
  by destruct (objects g l RDF_first).
Qed.

(** ** The element under construction, as the last element of the store *)

(** the element without its [type] attribute *)
Definition untyped (el : Elem) : Elem :=
  mkElem (tag el) (delete "type" (attrib el)) (children el).

(** the element with a [fixed] attribute *)
Definition fixed (v : string) (el : Elem) : Elem :=
  mkElem (tag el) (<["fixed" := v]> (attrib el)) (children el).

Lemma discard_last h el :
  ET.discard (length h) "type" (h ++ [el]) = h ++ [untyped el].
Proof.
  unfold ET.discard, ET.has, ET.get. rewrite lookup_app_r, Nat.sub_diag by lia.
  cbn [lookup list_lookup mbind option_bind].
  destruct (attrib el !! "type") eqn:Hty.
  - unfold ET.del. rewrite <- (Nat.add_0_r (length h)) at 1. by rewrite alter_app_r.
  - unfold untyped. rewrite delete_id by done. by destruct el.
Qed.

Lemma get_adopt e k p ls h :
  e < length h → ET.get e k (adopt p ls h) = ET.get e k h.
Proof.
  intros He. unfold ET.get. destruct (decide (e = p)) as [->|Hne].
  - destruct (lookup_lt_is_Some_2 _ _ He) as [el Hel].
    by rewrite (adopt_lookup_parent _ _ _ _ Hel), Hel.
  - by rewrite adopt_lookup_other.
Qed.

Lemma del_adopt e k p ls h :
  e < length h → ET.del e k (adopt p ls h) = adopt p ls (ET.del e k h).
Proof.
  intros He. unfold ET.del, adopt. rewrite length_alter.
  rewrite alter_app_l by (by rewrite length_alter). f_equal.
  destruct (decide (e = p)) as [->|Hne].
  - rewrite !list_alter_alter_eq. by apply list_alter_ext.
  - by rewrite list_alter_alter_ne.
Qed.

Lemma discard_adopt e k p ls h :
  e < length h → ET.discard e k (adopt p ls h) = adopt p ls (ET.discard e k h).
Proof.
  intros He. unfold ET.discard, ET.has. rewrite get_adopt by done.
  destruct (ET.get e k h); [by apply del_adopt | done].
Qed.

Lemma discard_simple_type_with h el inner :
  ET.discard (length h) "type" (simple_type_with (length h) inner (h ++ [el])) =
  simple_type_with (length h) inner (h ++ [untyped el]).
Proof.
  unfold simple_type_with.
  rewrite !discard_adopt by (rewrite ?length_adopt, ?length_app; cbn; lia).
  rewrite discard_last. by rewrite !length_app.
Qed.

(** the three elements that matter in [simple_type_with] *)
Lemma simple_type_with_lookup p inner h el :
  h !! p = Some el →
  let hl := simple_type_with p inner h in
  hl !! p = Some (mkElem (tag el) (attrib el) (children el ++ [length h])) ∧
  hl !! length h = Some (mkElem (NS.q "simpleType") ∅ [S (length h)]) ∧
  hl !! S (length h) = Some inner ∧
  length hl = S (S (length h)).
Proof.
  intros Hel hl. subst hl. unfold simple_type_with.
  pose proof (lookup_lt_Some _ _ _ Hel) as Hp.
  set (h1 := adopt p [mkElem (NS.q "simpleType") ∅ []] h).
  assert (Hl1 : length h1 = S (length h)) by (subst h1; rewrite length_adopt; cbn; lia).
  assert (Hs : h1 !! length h = Some (mkElem (NS.q "simpleType") ∅ [])).
  { subst h1. rewrite <- (Nat.add_0_r (length h)). by rewrite adopt_lookup_new. }
  split; [|split; [|split]].
  - rewrite adopt_lookup_other by lia. subst h1.
    by rewrite (adopt_lookup_parent _ _ _ _ Hel).
  - rewrite (adopt_lookup_parent _ _ _ _ Hs). cbn. by rewrite Hl1.
  - rewrite <- Hl1, <- (Nat.add_0_r (length h1)). by rewrite adopt_lookup_new.
  - rewrite length_adopt, Hl1. cbn. lia.
Qed.

Lemma find_child_none suffix e h :
  ET.children_of e h = [] → ET.find_child suffix e h = None.
Proof. unfold ET.find_child. by intros ->. Qed.

Lemma find_child_only suffix e h el c cel :
  h !! e = Some el → children el = [c] → h !! c = Some cel →
  PyStr.endswith suffix (tag cel) = true →
  ET.find_child suffix e h = Some c.
Proof.
  intros He Hc Hcel Hend. unfold ET.find_child, ET.children_of, ET.tag_of.
  rewrite He, Hc. cbn [List.find]. by rewrite Hcel, Hend.
Qed.

(** [ensure_restriction] on a childless last element creates both levels *)
Lemma ensure_restriction_leaf base h el :
  children el = [] →
  ensure_restriction base (length h) (h ++ [el]) =
    (S (S (length h)),
     simple_type_with (length h) (leaf "restriction" "base" base) (h ++ [untyped el])).
Proof.
  intros Hc. unfold ensure_restriction.
  assert (Hl : length (h ++ [el]) = S (length h)) by (rewrite length_app; cbn; lia).
  rewrite find_child_none.
  2:{ unfold ET.children_of. by rewrite lookup_app_r, Nat.sub_diag by lia. }
  rewrite SubElement_adopt by lia. cbv beta iota.
  rewrite find_child_none.
  2:{ unfold ET.children_of. rewrite <- (Nat.add_0_r (length (h ++ [el]))).
      by rewrite adopt_lookup_new. }
  rewrite SubElement_adopt by (rewrite length_adopt; cbn; lia). cbv beta iota.
  rewrite ET_set_adopt_last by (rewrite length_adopt; cbn; lia).
  rewrite insert_empty. fold (leaf "restriction" "base" base).
  fold (simple_type_with (length h) (leaf "restriction" "base" base) (h ++ [el])).
  rewrite discard_simple_type_with. f_equal. rewrite length_adopt, Hl. cbn. lia.
Qed.

(** [ensure_restriction] finds the simpleType and the restriction that the
    enumeration step made *)
Lemma ensure_restriction_found base p h el s sel r rel :
  h !! p = Some el → children el = [s] →
  h !! s = Some sel → PyStr.endswith "simpleType" (tag sel) = true → children sel = [r] →
  h !! r = Some rel → PyStr.endswith "restriction" (tag rel) = true →
  ensure_restriction base p h = (r, h).
Proof.
  intros Hp Hc Hs Hst Hsc Hr Hrt. unfold ensure_restriction.
  rewrite (find_child_only "simpleType" p h el s sel) by done.
  by rewrite (find_child_only "restriction" s h sel r rel).
Qed.

(** the facets that the facet step adds *)
Definition facets_of (g : Graph) (u : term) : list Elem :=
  if facets_requested g u then bound_facets g u ++ length_facets g u else [].

(** the facet step on a childless last element [el] *)
Definition with_facets (g : Graph) (u : term) (h : store) (el : Elem) : store :=
  if facets_requested g u
  then adopt (S (S (length h))) (bound_facets g u ++ length_facets g u)
         (simple_type_with (length h) (leaf "restriction" "base" (facet_base g u))
                           (h ++ [untyped el]))
  else h ++ [el].

Lemma process_facet_constraints_leaf g u h el :
  children el = [] →
  process_facet_constraints g u (length h) (h ++ [el]) = with_facets g u h el.
Proof.
  intros Hc. unfold with_facets. destruct (facets_requested g u) eqn:Hreq.
  - apply process_facet_constraints_adopt; [done | by apply ensure_restriction_leaf |].
    destruct (simple_type_with_lookup (length h)
                (leaf "restriction" "base" (facet_base g u)) (h ++ [untyped el]) (untyped el))
      as (_ & _ & _ & Hlen).
    { by rewrite lookup_app_r, Nat.sub_diag by lia. }
    rewrite Hlen, length_app. cbn. lia.
  - by apply process_facet_constraints_skip.
Qed.

(** the store after the enumeration step made a restriction with [facets] *)
Definition restricted (h : store) (el : Elem) (base : string) (facets : list Elem) : store :=
  adopt (S (S (length h))) facets
        (simple_type_with (length h) (leaf "restriction" "base" base) (h ++ [el])).

Lemma process_facet_constraints_restricted g u h el base facets :
  children el = [] →
  process_facet_constraints g u (length h) (restricted h el base facets) =
    restricted h el base (facets ++ facets_of g u).
Proof.
  intros Hc. unfold facets_of, restricted.
  assert (He : (h ++ [el]) !! length h = Some el)
    by (by rewrite lookup_app_r, Nat.sub_diag by lia).
  assert (Hl : length (h ++ [el]) = S (length h)) by (rewrite length_app; cbn; lia).
  destruct (simple_type_with_lookup (length h) (leaf "restriction" "base" base)
              (h ++ [el]) el He) as (H0 & H1 & H2 & Hlen).
  rewrite Hl in H1, H2, Hlen. rewrite Hc in H0. cbn [app] in H0. rewrite Hl in H0.
  destruct (facets_requested g u) eqn:Hreq.
  - set (hl := adopt (S (S (length h))) facets
                 (simple_type_with (length h) (leaf "restriction" "base" base) (h ++ [el]))).
    assert (Hens : ensure_restriction (facet_base g u) (length h) hl
                   = (S (S (length h)), hl)).
    { eapply (ensure_restriction_found _ (length h) _ _ (S (length h)) _ (S (S (length h))));
        subst hl.
      - rewrite adopt_lookup_other by lia. exact H0.
      - done.
      - rewrite adopt_lookup_other by lia. exact H1.
      - reflexivity.
      - done.
      - by rewrite (adopt_lookup_parent _ _ _ _ H2).
      - reflexivity. }
    rewrite (process_facet_constraints_adopt g u _ _ _ _ Hreq Hens)
      by (subst hl; rewrite length_adopt; lia).
    subst hl. by rewrite adopt_adopt by lia.
  - rewrite process_facet_constraints_skip by done. by rewrite app_nil_r.
Qed.

(** ** The steps of [process_property_shape] before the enumeration *)

(** lines 322-326: the scalar type *)
Definition typed (g : Graph) (u : term) (a : gmap string string) : gmap string string :=
  match value g u (NS.sh "datatype") with
  | Some d => if truthy d then <["type" := local_name d]> a else a
  | None => a
  end.

(** lines 329-350 for an element: occurs bounds other than 1 *)
Definition occurs (g : Graph) (u : term) (a : gmap string string) : gmap string string :=
  let a := match value g u (NS.sh "minCount") with
           | Some mc => if negb (String.eqb (str mc) "1")
                        then <["minOccurs" := str mc]> a else a
           | None => a
           end in
  match value g u (NS.sh "maxCount") with
  | Some mc => if negb (String.eqb (str mc) "1") then <["maxOccurs" := str mc]> a else a
  | None => a
  end.

(** the element of a shape when the enumeration step starts *)
Definition scalar_element (g : Graph) (u : term) : Elem :=
  mkElem (NS.q "element") (occurs g u (typed g u {["name" := display_name g u]})) [].

Lemma cardinality_run g u st h el :
  is_attribute g u = false → elements st = h ++ [el] →
  cardinality g u (length h) st =
    Ok tt (with_elements st (h ++ [mkElem (tag el) (occurs g u (attrib el)) (children el)])).
Proof.
  intros Hattr Hst. unfold cardinality, occurs. rewrite Hattr. cbn [negb andb].
  unfold mbind, M_bind, with_elements.
  assert (Hset : ∀ k v el', elements st = h ++ [el'] →
            on_store (ET.set (length h) k v) st =
              Ok tt (mkState (processed_shapes st) (xsd_root st) (node_shape_map st)
                             (property_shape_map st)
                             (h ++ [mkElem (tag el') (<[k := v]> (attrib el'))
                                           (children el')]))).
  { intros k v el' H'. unfold on_store, modify. by rewrite H', ET_set_last. }
  assert (Hid : st = mkState (processed_shapes st) (xsd_root st) (node_shape_map st)
                             (property_shape_map st) (h ++ [el])).
  { rewrite <- Hst. by destruct st. }
  destruct (value g u (NS.sh "minCount")) as [mn|];
    [destruct (negb (String.eqb (str mn) "1"))|];
    rewrite ?(Hset _ _ _ Hst); cbn [mret M_ret];
    (destruct (value g u (NS.sh "maxCount")) as [mx|];
     [destruct (negb (String.eqb (str mx) "1"))|]);
    cbn [mret M_ret]; unfold on_store, modify;
    cbn [elements processed_shapes xsd_root node_shape_map property_shape_map];
    rewrite ?Hst, ?ET_set_last; cbn [tag attrib children]; try done;
    rewrite Hid at 1; by destruct el.
Qed.

(** the base of an enumeration: the declared datatype, else string *)
Definition enum_base (g : Graph) (u : term) : string :=
  match value g u (NS.sh "datatype") with
  | Some d => if truthy d then local_name d else "string"
  | None => "string"
  end.

Section EnumerationStep.
Variables (g : Graph) (fuel : nat) (u : term) (h : store) (el : Elem) (v : term)
          (rest : list term).
Hypothesis Hin : objects g u (NS.sh "in") = v :: rest.

Lemma process_list_constraints_single m :
  has_any g v RDF_first = true → get_rdf_list_items fuel g v = Some [m] →
  process_list_constraints g fuel u (length h) (h ++ [el]) =
    Some (h ++ [untyped (fixed (str m) el)]).
Proof.
  intros Hany Hwalk. unfold process_list_constraints. rewrite Hin, Hany, Hwalk.
  cbn [mbind option_bind]. rewrite ET_set_last. by rewrite discard_last.
Qed.

Lemma process_list_constraints_many ms :
  has_any g v RDF_first = true → get_rdf_list_items fuel g v = Some ms →
  1 < length ms →
  process_list_constraints g fuel u (length h) (h ++ [el]) =
    Some (restricted h (untyped el) (enum_base g u) (facet "enumeration" <$> ms)).
Proof.
  intros Hany Hwalk Hlen. unfold process_list_constraints. rewrite Hin, Hany, Hwalk.
  cbn [mbind option_bind]. fold (enum_base g u).
  destruct ms as [|m1 [|m2 ms]]; [cbn in Hlen; lia | cbn in Hlen; lia |].
  assert (Hl : length (h ++ [el]) = S (length h)) by (rewrite length_app; cbn; lia).
  rewrite SubElement_adopt by lia. cbv beta iota.
  rewrite SubElement_adopt by (rewrite length_adopt; cbn; lia). cbv beta iota.
  rewrite ET_set_adopt_last by (rewrite length_adopt; cbn; lia).
  rewrite insert_empty. fold (leaf "restriction" "base" (enum_base g u)).
  fold (simple_type_with (length h) (leaf "restriction" "base" (enum_base g u)) (h ++ [el])).
  destruct (simple_type_with_lookup (length h) (leaf "restriction" "base" (enum_base g u))
              (h ++ [el]) el) as (_ & _ & _ & Hlen').
  { by rewrite lookup_app_r, Nat.sub_diag by lia. }
  rewrite Hl in Hlen'.
  rewrite length_adopt, Hl. cbn [length]. rewrite Nat.add_1_r.
  rewrite add_enumerations_adopt by lia.
  rewrite discard_adopt by lia. rewrite discard_simple_type_with. done.
Qed.

Lemma process_list_constraints_nil :
  v = RDF_nil → 0 < fuel →
  process_list_constraints g fuel u (length h) (h ++ [el]) = Some (h ++ [el]).
Proof.
  intros Hv Hfuel. unfold process_list_constraints. rewrite Hin.
  destruct (has_any g v RDF_first).
  - destruct fuel; [lia|]. rewrite get_rdf_list_items_S, decide_True by done. done.
  - by rewrite decide_True.
Qed.

Lemma process_list_constraints_value :
  has_any g v RDF_first = false → v ≠ RDF_nil →
  process_list_constraints g fuel u (length h) (h ++ [el]) =
    Some (h ++ [fixed (str v) el]).
Proof.
  intros Hany Hv. unfold process_list_constraints. rewrite Hin, Hany.
  rewrite decide_False by done. by rewrite ET_set_last.
Qed.
End EnumerationStep.

(** The whole of [process_property_shape] on a new element-kind shape
    without a disjunction, given what the enumeration step returns. *)
Lemma process_property_shape_plain g fuel u st hl :
  u ∉ processed_shapes st →
  truthy_opt (value g u (NS.sh "path")) = true →
  is_attribute g u = false →
  objects g u (NS.sh "or") = [] →
  process_list_constraints g fuel u (length (elements st))
                           (elements st ++ [scalar_element g u]) = Some hl →
  process_property_shape g fuel u st =
    Ok (Some (length (elements st)))
       (lowered_prop st u (length (elements st))
          (process_facet_constraints g u (length (elements st)) hl)).
Proof.
  intros Hu Hpath Hattr Hor Hlist.
  unfold process_property_shape, mbind at 1, M_bind at 1, gets.
  rewrite decide_False by done.
  unfold mbind at 1, M_bind at 1, reserve, modify. rewrite Hpath. cbn [negb].
  rewrite Hattr.
  unfold mbind at 1, M_bind at 1, new_elem, ET.Element.
  cbn [elements processed_shapes xsd_root node_shape_map property_shape_map].
  unfold mbind at 1, M_bind at 1, on_store at 1, modify.
  cbn [elements processed_shapes xsd_root node_shape_map property_shape_map].
  rewrite Hor, ET_set_last. cbn [tag attrib children]. rewrite insert_empty.
  set (s1 := mkState _ _ _ _ _).
  assert (Hs1 : ∃ el, (match value g u (NS.sh "datatype") with
                       | Some d => if truthy d
                                   then on_store (ET.set (length (elements st)) "type"
                                                         (local_name d))
                                   else mret tt
                       | None => mret tt
                       end) s1 = Ok tt (with_elements s1 (elements st ++ [el])) ∧
                      el = mkElem (NS.q "element")
                                  (typed g u {["name" := display_name g u]}) []).
  { eexists. split; [|reflexivity]. unfold typed.
    destruct (value g u (NS.sh "datatype")) as [d|]; [destruct (truthy d)|];
      subst s1; unfold on_store, modify; cbn [mret M_ret elements]; unfold with_elements;
      cbn [elements processed_shapes xsd_root node_shape_map property_shape_map];
      by rewrite ?ET_set_last. }
  destruct Hs1 as (el & Hs1 & Hel).
  unfold mbind at 1, M_bind at 1. rewrite Hs1.
  unfold mbind at 1, M_bind at 1.
  rewrite (cardinality_run g u (with_elements s1 (elements st ++ [el])) (elements st) el
             Hattr eq_refl).
  unfold mbind at 1, M_bind at 1, gets. cbn [elements with_elements].
  subst el. cbn [tag attrib children]. fold (scalar_element g u).
  unfold mbind at 1, M_bind at 1, of_walk. rewrite Hlist. cbn [mret M_ret].
  unfold mbind, M_bind, on_store, store_property_shape, modify. subst s1.
  cbn [elements processed_shapes xsd_root node_shape_map property_shape_map with_elements].
  reflexivity.
Qed.

Module Ex4.
Import Ex.
Definition lit (s : string) : term := Literal s None None None.

(** [sh:in ( "a" )] on a shape that also has [sh:or ( S1 )] *)
Definition or_and_in : Graph :=
  [ (P, RDF_type, NS.sh "PropertyShape");
    (P, NS.sh "path", ex "p");
    (P, NS.sh "datatype", NS.xsd "string");
    (P, NS.sh "in", BNode "i1");
    (BNode "i1", RDF_first, lit "a");
    (BNode "i1", RDF_rest, RDF_nil);
    (P, NS.sh "or", BNode "o1");
    (BNode "o1", RDF_first, Ex3.S1);
    (BNode "o1", RDF_rest, RDF_nil);
    (Ex3.S1, NS.sh "datatype", NS.xsd "string") ].

(** [sh:in ( "a" "b" )] *)
Definition two_values : Graph :=
  [ (P, RDF_type, NS.sh "PropertyShape");
    (P, NS.sh "path", ex "p");
    (P, NS.sh "datatype", NS.xsd "string");
    (P, NS.sh "in", BNode "i1");
    (BNode "i1", RDF_first, lit "a");
    (BNode "i1", RDF_rest, BNode "i2");
    (BNode "i2", RDF_first, lit "b");
    (BNode "i2", RDF_rest, RDF_nil) ].

(** [sh:in ( 0 1 )] *)
Definition zero_one : Graph :=
  [ (P, RDF_type, NS.sh "PropertyShape");
    (P, NS.sh "path", ex "p");
    (P, NS.sh "datatype", NS.xsd "integer");
    (P, NS.sh "in", BNode "i1");
    (BNode "i1", RDF_first, typed_int "0" false);
    (BNode "i1", RDF_rest, BNode "i2");
    (BNode "i2", RDF_first, typed_int "1" true);
    (BNode "i2", RDF_rest, RDF_nil) ].

Lemma two_values_list : is_rdf_list two_values (BNode "i1") [lit "a"; lit "b"].
Proof.
  apply (list_cons _ _ _ (BNode "i2")); [done | reflexivity | reflexivity | reflexivity |].
  apply (list_cons _ _ _ RDF_nil); [done | reflexivity | reflexivity | reflexivity |].
  apply list_nil.
Qed.

Lemma zero_one_list :
  is_rdf_list zero_one (BNode "i1") [typed_int "0" false; typed_int "1" true].
Proof.
  apply (list_cons _ _ _ (BNode "i2")); [done | reflexivity | reflexivity | reflexivity |].
  apply (list_cons _ _ _ RDF_nil); [done | reflexivity | reflexivity | reflexivity |].
  apply list_nil.
Qed.
End Ex4.

(** An element-kind shape with a disjunction next to its enumeration
    ([Ex4.or_and_in]): the return after the disjunction (line 320) comes
    before the enumeration step, so its [sh:in] is never read and the
    element gets no [fixed] attribute. *)
Lemma disjunction_hides_enumeration :
  let r := process_property_shape Ex4.or_and_in 3 Ex.P init in
  is_attribute Ex4.or_and_in Ex.P = false ∧
  get_rdf_list_items 3 Ex4.or_and_in (BNode "i1") = Some [Ex4.lit "a"] ∧
  Ex.value_of r = Some (Some 0) ∧
  ET.get 0 "fixed" (elements (Ex.state_of r)) = None ∧
  elements (Ex.state_of r) =
    [ mkElem (NS.q "element") {["name" := "p"]} [1];
      mkElem (NS.q "simpleType") ∅ [2];
      mkElem (NS.q "union") {["memberTypes" := "string"]} [] ].
Proof. intros r. repeat (split; [vm_compute; reflexivity|]). vm_compute; reflexivity. Qed.

(** The list walk drops a member that is falsy in Python: for
    [sh:in ( 0 1 )] it yields the one member [1], which becomes a fixed
    value. *)
Lemma falsy_member_is_dropped :
  let r := process_property_shape Ex4.zero_one 3 Ex.P init in
  get_rdf_list_items 3 Ex4.zero_one (BNode "i1") = Some [Ex.typed_int "1" true] ∧
  elements (Ex.state_of r) =
    [ mkElem (NS.q "element") (<["fixed" := "1"]> {["name" := "p"]}) [] ].
Proof. intros r. split; vm_compute; reflexivity. Qed.

(** On a well-formed list the walk yields the members that are not falsy
    (the test [if item:] of line 223), within one round per cell. *)
Lemma get_rdf_list_items_kept g l ms fuel :
  is_rdf_list g l ms → length ms < fuel →
  get_rdf_list_items fuel g l = Some (List.filter truthy ms).
Proof.
  intros Hl. revert fuel.
  induction Hl as [|l m next ms Hne Hfirst Hrest Hnext _ IH]; intros fuel Hlen.
  - destruct fuel as [|fuel]; [cbn in Hlen; lia|]. rewrite get_rdf_list_items_S.
    by rewrite decide_True.
  - destruct fuel as [|fuel]; [cbn in Hlen; lia|]. rewrite get_rdf_list_items_S.
    rewrite decide_False by done. rewrite Hfirst, Hrest, Hnext. cbv zeta.
    rewrite IH by (cbn in Hlen; lia). cbn [List.filter fmap option_fmap option_map].
    by destruct (truthy m).
Qed.

(** the enumeration step when the walk of a list keeps no member *)
Lemma process_list_constraints_none_kept g fuel u h el v rest :
  objects g u (NS.sh "in") = v :: rest →
  has_any g v RDF_first = true → get_rdf_list_items fuel g v = Some [] →
  process_list_constraints g fuel u (length h) (h ++ [el]) = Some (h ++ [el]).
Proof.
  intros Hin Hany Hwalk. unfold process_list_constraints. by rewrite Hin, Hany, Hwalk.
Qed.

(** (C5) The enumeration step of an element-kind property shape, as the code
    runs it.  Take an element-kind property shape that has a path, is
    lowered for the first time, has no [sh:or], and whose first [sh:in]
    value is [v]; let [el] be its element when the enumeration step starts
    (name, scalar type, occurs bounds).
    (1) [v] is a well-formed list with the members [ms]: the step works on
    [kept], the members that are not falsy in Python, not on [ms].  With no
    kept member (the empty list, or a list of falsy members only) it adds
    nothing; with one kept member [m] the element has [fixed = str m] and no
    [type]; with more, the element has no [type] and one child simpleType
    with one child restriction, whose base is the local name of the
    declared datatype, else string, and whose children are one enumeration
    facet per kept member in list order, followed by the facets of the
    facet step.  When no member is falsy, [kept] is [ms] and these are the
    cases of the claim; a list with a falsy member departs from it:
    [sh:in ( 0 1 )] has two members and gets [fixed = 1].
    (2) [v] heads no list and is not [rdf:nil]: the element has
    [fixed = str v], and the enumeration step leaves its [type] alone.
    Where no restriction is built, the facet step then runs on the
    childless element. *)
Theorem enumeration_collapse g fuel u st v rest :
  u ∉ processed_shapes st →
  truthy_opt (value g u (NS.sh "path")) = true →
  is_attribute g u = false →
  objects g u (NS.sh "or") = [] →
  objects g u (NS.sh "in") = v :: rest →
  let h := elements st in
  let el := scalar_element g u in
  let made h' := Ok (Some (length h)) (lowered_prop st u (length h) h') in
  let run := process_property_shape g fuel u st in
  (∀ ms, is_rdf_list g v ms → length ms < fuel →
         let kept := List.filter truthy ms in
         (Forall (λ m, truthy m = true) ms → kept = ms) ∧
         run = made (match kept with
                     | [] => with_facets g u h el
                     | [m] => with_facets g u h (untyped (fixed (str m) el))
                     | _ => restricted h (untyped el) (enum_base g u)
                              ((facet "enumeration" <$> kept) ++ facets_of g u)
                     end))
  ∧ (has_any g v RDF_first = false → v ≠ RDF_nil →
     run = made (with_facets g u h (fixed (str v) el))).
Proof.
  intros Hu Hpath Hattr Hor Hin h el made run. subst made run h. cbv beta.
  assert (Hleaf : children el = []) by done.
  split.
  - intros ms Hl Hfuel kept. split.
    { subst kept. clear. induction 1 as [|m ms Hm _ IH]; [done|].
      cbn [List.filter]. by rewrite Hm, IH. }
    pose proof (get_rdf_list_items_kept g v ms fuel Hl Hfuel) as Hwalk.
    fold kept in Hwalk.
    destruct ms as [|m0 ms0].
    { inversion Hl; subst. subst kept. cbn [List.filter].
      rewrite (process_property_shape_plain g fuel u st _ Hu Hpath Hattr Hor
                 (process_list_constraints_nil g fuel u (elements st) el RDF_nil rest Hin
                    eq_refl ltac:(cbn in Hfuel; lia))).
      by rewrite process_facet_constraints_leaf. }
    pose proof (is_rdf_list_has_first _ _ _ _ Hl) as Hany.
    destruct kept as [|k1 [|k2 ks]].
    + rewrite (process_property_shape_plain g fuel u st _ Hu Hpath Hattr Hor
                 (process_list_constraints_none_kept g fuel u (elements st) el v rest
                    Hin Hany Hwalk)).
      by rewrite process_facet_constraints_leaf.
    + rewrite (process_property_shape_plain g fuel u st _ Hu Hpath Hattr Hor
                 (process_list_constraints_single g fuel u (elements st) el v rest Hin k1
                    Hany Hwalk)).
      by rewrite process_facet_constraints_leaf.
    + rewrite (process_property_shape_plain g fuel u st _ Hu Hpath Hattr Hor
                 (process_list_constraints_many g fuel u (elements st) el v rest Hin
                    (k1 :: k2 :: ks) Hany Hwalk ltac:(cbn; lia))).
      by rewrite process_facet_constraints_restricted.
  - intros Hany Hv.
    rewrite (process_property_shape_plain g fuel u st _ Hu Hpath Hattr Hor
               (process_list_constraints_value g fuel u (elements st) el v rest Hin Hany Hv)).
    by rewrite process_facet_constraints_leaf.
Qed.

(** [sh:in ( 0 1 )] with [sh:datatype xsd:integer]: the list has two
    members, the walk keeps [1] only, and the element gets [fixed = 1] and
    no [type], where a restriction with two enumeration facets was to be
    built.  [sh:in ( "a" "b" )] with [sh:datatype xsd:string]: the element
    loses its type and holds a restriction over string with the two
    facets. *)
Lemma enumeration_collapse_witness :
  (is_rdf_list Ex4.zero_one (BNode "i1") [Ex.typed_int "0" false; Ex.typed_int "1" true] ∧
   process_property_shape Ex4.zero_one 3 Ex.P init =
     Ok (Some 0)
        (lowered_prop init Ex.P 0
           [ mkElem (NS.q "element") (<["fixed" := "1"]> {["name" := "p"]}) [] ])) ∧
  is_rdf_list Ex4.two_values (BNode "i1") [Ex4.lit "a"; Ex4.lit "b"] ∧
  process_property_shape Ex4.two_values 3 Ex.P init =
    Ok (Some 0)
       (lowered_prop init Ex.P 0
          [ mkElem (NS.q "element") {["name" := "p"]} [1];
            mkElem (NS.q "simpleType") ∅ [2];
            mkElem (NS.q "restriction") {["base" := "string"]} [3; 4];
            mkElem (NS.q "enumeration") {["value" := "a"]} [];
            mkElem (NS.q "enumeration") {["value" := "b"]} [] ]).
Proof.
  assert (Hfresh : Ex.P ∉ processed_shapes init) by (cbn; set_solver).
  split; [split; [exact Ex4.zero_one_list|] | split; [exact Ex4.two_values_list|]].
  - pose proof (proj2 (proj1 (enumeration_collapse Ex4.zero_one 3 Ex.P init (BNode "i1") []
                          Hfresh eq_refl eq_refl eq_refl eq_refl)
                        _ Ex4.zero_one_list ltac:(cbn; lia))) as Hrun.
    etransitivity; [exact Hrun|]. vm_compute. reflexivity.
  - pose proof (proj2 (proj1 (enumeration_collapse Ex4.two_values 3 Ex.P init (BNode "i1") []
                          Hfresh eq_refl eq_refl eq_refl eq_refl)
                        _ Ex4.two_values_list ltac:(cbn; lia))) as Hrun.
    etransitivity; [exact Hrun|]. vm_compute. reflexivity.
Defined.

(** * Further properties of the code *)

(** ** The list walker ([get_rdf_list_items]) *)

(** [walk_to g k l]: the cell the [while] loop of [get_rdf_list_items] stands
    on after [k] rounds from [l]; [None] when the loop has ended before (on
    [rdf:nil], on a missing or falsy [rdf:rest]). *)
Fixpoint walk_to (g : Graph) (k : nat) (l : term) : option term :=
  match k with
  | O => Some l
  | S k' =>
      if decide (l = RDF_nil) then None
      else match value g l RDF_rest with
           | Some next => if truthy next then walk_to g k' next else None
           | None => None
           end
  end.

Lemma walk_to_step g k l l' f :
  walk_to g k l = Some l' →
  is_Some (get_rdf_list_items (k + f) g l) → is_Some (get_rdf_list_items f g l').
Proof.
  revert l. induction k as [|k IH]; intros l; cbn [walk_to Nat.add].
  - by intros [= ->].
  - rewrite get_rdf_list_items_S. destruct (decide (l = RDF_nil)); [done|].
    destruct (value g l RDF_rest) as [next|]; [|done].
    destruct (truthy next); [|done]. cbv zeta. intros Hw Hsome. apply (IH next Hw).
    destruct (get_rdf_list_items (k + f) g next); [eauto|].
    by destruct Hsome as [? [=]].
Qed.

Lemma walk_to_short g k l l' f :
  walk_to g k l = Some l' → f ≤ k → get_rdf_list_items f g l = None.
Proof.
  revert l k. induction f as [|f IH]; intros l k Hw Hle; [done|].
  destruct k as [|k]; [lia|]. cbn [walk_to] in Hw. rewrite get_rdf_list_items_S.
  destruct (decide (l = RDF_nil)); [done|].
  destruct (value g l RDF_rest) as [next|]; [|done].
  destruct (truthy next); [|done]. cbv zeta.
  by rewrite (IH next k Hw) by lia.
Qed.

(** (X1) Every item that the walk returns is truthy and is the [rdf:first]
    object of some cell of the graph: the walk makes up no member and hands
    on no empty one. *)
Theorem walk_yields_members g fuel l items :
  get_rdf_list_items fuel g l = Some items →
  Forall (λ i, truthy i = true ∧ ∃ cell, (cell, RDF_first, i) ∈ g) items.
Proof.
  revert l items. induction fuel as [|fuel IH]; intros l items; [done|].
  rewrite get_rdf_list_items_S. destruct (decide (l = RDF_nil)); [by intros [= <-]|].
  cbv zeta.
  set (here := match value g l RDF_first with
               | Some i => if truthy i then [i] else []
               | None => []
               end).
  assert (Hhere : Forall (λ i, truthy i = true ∧ ∃ cell, (cell, RDF_first, i) ∈ g) here).
  { subst here. destruct (value g l RDF_first) as [i|] eqn:Hv; [|constructor].
    destruct (truthy i) eqn:Hi; constructor; [|constructor].
    split; [done|]. exists l. by apply objects_elem, value_objects. }
  clearbody here.
  destruct (value g l RDF_rest) as [next|]; [|by intros [= <-]].
  destruct (truthy next); [|by intros [= <-]].
  destruct (get_rdf_list_items fuel g next) as [rest|] eqn:Hr; [|done].
  intros [= <-]. apply Forall_app. split; [done|]. by eapply IH.
Qed.

Lemma walk_yields_members_witness :
  get_rdf_list_items 3 Ex4.zero_one (BNode "i1") = Some [Ex.typed_int "1" true] ∧
  Forall (λ i, truthy i = true ∧ ∃ cell, (cell, RDF_first, i) ∈ Ex4.zero_one)
         [Ex.typed_int "1" true].
Proof.
  split; [reflexivity|].
  exact (walk_yields_members Ex4.zero_one 3 (BNode "i1") [Ex.typed_int "1" true] eq_refl).
Defined.

(** (X2) A list whose cells lead back to a cell already visited is walked
    for ever: if [k + 1] rounds from [l] end on [l] again, no amount of fuel
    makes the walk return. *)
Theorem cyclic_list_walk_never_returns g k l :
  walk_to g (S k) l = Some l → ∀ fuel, get_rdf_list_items fuel g l = None.
Proof.
  intros Hcycle fuel. induction (lt_wf fuel) as [fuel _ IH].
  destruct (decide (fuel ≤ S k)) as [Hle|Hgt].
  - by eapply walk_to_short.
  - destruct (get_rdf_list_items fuel g l) as [items|] eqn:Hrun; [|done].
    exfalso. replace fuel with (S k + (fuel - S k)) in Hrun by lia.
    destruct (walk_to_step g (S k) l l (fuel - S k) Hcycle) as [items' Hi']; [eauto|].
    rewrite IH in Hi' by lia. done.
Qed.

Module Ex5.
Import Ex.
(** two cells that point at each other *)
Definition ring : Graph :=
  [ (BNode "a", RDF_first, P);
    (BNode "a", RDF_rest, BNode "b");
    (BNode "b", RDF_first, A);
    (BNode "b", RDF_rest, BNode "a") ].

(** a list whose second cell has no [rdf:rest] *)
Definition broken : Graph :=
  [ (BNode "a", RDF_first, P);
    (BNode "a", RDF_rest, BNode "b");
    (BNode "b", RDF_first, A) ].
End Ex5.

Lemma cyclic_list_walk_never_returns_witness :
  walk_to Ex5.ring 2 (BNode "a") = Some (BNode "a") ∧
  get_rdf_list_items 100 Ex5.ring (BNode "a") = None.
Proof.
  split; [reflexivity|].
  exact (cyclic_list_walk_never_returns Ex5.ring 1 (BNode "a") eq_refl 100).
Defined.

(** (X3) A well-formed RDF list without falsy members is read completely
    and in order, in one round per cell and one for [rdf:nil]. *)
Theorem well_formed_list_is_read g l ms fuel :
  is_rdf_list g l ms → Forall (λ m, truthy m = true) ms → length ms < fuel →
  get_rdf_list_items fuel g l = Some ms.
Proof.
  intros Hl. revert fuel.
  induction Hl as [|l m next ms Hne Hfirst Hrest Hnext _ IH]; intros fuel Hall Hlen;
    (destruct fuel as [|fuel]; [cbn in Hlen; lia|]); rewrite get_rdf_list_items_S.
  - by rewrite decide_True.
  - rewrite decide_False by done. rewrite Hfirst, Hrest, Hnext.
    apply Forall_cons in Hall as [-> Hall]. cbv zeta.
    rewrite IH; [done | done | cbn in Hlen; lia].
Qed.

Lemma well_formed_list_is_read_witness :
  is_rdf_list Ex4.two_values (BNode "i1") [Ex4.lit "a"; Ex4.lit "b"] ∧
  get_rdf_list_items 3 Ex4.two_values (BNode "i1") = Some [Ex4.lit "a"; Ex4.lit "b"].
Proof.
  split; [exact Ex4.two_values_list|].
  apply (well_formed_list_is_read Ex4.two_values (BNode "i1") _ 3 Ex4.two_values_list).
  - repeat constructor.
  - cbn. lia.
Defined.

(** a list cut short: every cell has a member, the last cell has no
    [rdf:rest] *)
Inductive is_cut_list (g : Graph) : term → list term → Prop :=
| cut_last l m :
    l ≠ RDF_nil → value g l RDF_first = Some m → value g l RDF_rest = None →
    is_cut_list g l [m]
| cut_cons l m next ms :
    l ≠ RDF_nil → value g l RDF_first = Some m →
    value g l RDF_rest = Some next → truthy next = true →
    is_cut_list g next ms →
    is_cut_list g l (m :: ms).

(** (X4) A list that is cut short is no error: the walk returns the members
    up to the cut, in one round per cell. *)
Theorem cut_list_is_read_to_the_cut g l ms fuel :
  is_cut_list g l ms → Forall (λ m, truthy m = true) ms → length ms ≤ fuel →
  get_rdf_list_items fuel g l = Some ms.
Proof.
  intros Hl. revert fuel.
  induction Hl as [l m Hne Hfirst Hrest|l m next ms Hne Hfirst Hrest Hnext _ IH];
    intros fuel Hall Hlen;
    (destruct fuel as [|fuel]; [cbn in Hlen; lia|]); rewrite get_rdf_list_items_S;
    rewrite decide_False by done; rewrite Hfirst, Hrest;
    apply Forall_cons in Hall as [-> Hall]; cbv zeta.
  - done.
  - rewrite Hnext. rewrite IH; [done | done | cbn in Hlen; lia].
Qed.

Lemma cut_list_is_read_to_the_cut_witness :
  value Ex5.broken (BNode "b") RDF_rest = None ∧
  get_rdf_list_items 2 Ex5.broken (BNode "a") = Some [Ex.P; Ex.A].
Proof.
  split; [reflexivity|].
  apply (cut_list_is_read_to_the_cut Ex5.broken (BNode "a") [Ex.P; Ex.A] 2).
  - apply (cut_cons _ _ _ (BNode "b")); [done | reflexivity | reflexivity | reflexivity |].
    apply cut_last; [done | reflexivity | reflexivity].
  - repeat constructor.
  - cbn. lia.
Defined.

(** ** Names cut out of IRIs ([str.split(sep)[-1]]) *)

(** [sep] occurs in [s] *)
Definition occurs_in (sep s : string) : Prop := ∃ pre post, s = pre +:+ sep +:+ post.

Lemma string_app_cons x (a b : string) : String x a +:+ b = String x (a +:+ b).
Proof. reflexivity. Qed.

Lemma string_app_nil (b : string) : "" +:+ b = b.
Proof. reflexivity. Qed.

Lemma string_app_assoc (a b c : string) : (a +:+ b) +:+ c = a +:+ b +:+ c.
Proof.
  induction a as [|x a IH]; [done|]. rewrite !string_app_cons. by rewrite IH.
Qed.

Lemma prefix_drop sep s :
  String.prefix sep s = true → s = sep +:+ PyStr.drop (String.length sep) s.
Proof.
  revert s. induction sep as [|x sep IH]; intros s; [done|].
  destruct s as [|y s]; [done|]. cbn [String.prefix String.length PyStr.drop].
  destruct (Ascii.ascii_dec x y) as [->|]; [|done].
  intros H. rewrite string_app_cons. by rewrite <- (IH s H).
Qed.

Lemma prefix_app sep post : String.prefix sep (sep +:+ post) = true.
Proof.
  induction sep as [|x sep IH]; [by destruct post|].
  rewrite string_app_cons. cbn [String.prefix].
  by destruct (Ascii.ascii_dec x x).
Qed.

Lemma scan_skip sep k s : PyStr.scan sep k s = PyStr.scan sep 0 (PyStr.drop k s).
Proof.
  revert s. induction k as [|k IH]; intros s; [done|].
  destruct s as [|a s]; [done|]. cbn [PyStr.scan PyStr.drop]. apply IH.
Qed.

Lemma length_drop k s : String.length (PyStr.drop k s) ≤ String.length s.
Proof.
  revert s. induction k as [|k IH]; intros s; [done|].
  destruct s as [|a s]; [done|]. cbn [PyStr.drop String.length]. specialize (IH s). lia.
Qed.

(** the piece that the scan returns follows the last match of [sep], and
    holds no further match *)
Lemma scan_piece sep s piece :
  sep ≠ "" → PyStr.scan sep 0 s = Some piece →
  (∃ pre, s = pre +:+ sep +:+ piece) ∧ PyStr.scan sep 0 piece = None.
Proof.
  intros Hsep. remember (String.length s) as n eqn:Hn.
  assert (Hlen : String.length s ≤ n) by lia. clear Hn.
  revert s piece Hlen. induction n as [|n IH]; intros s piece Hlen.
  { destruct s; [done | cbn in Hlen; lia]. }
  destruct s as [|a s']; [done|]. cbn [PyStr.scan].
  destruct (String.prefix sep (String a s')) eqn:Hpre.
  - pose proof (prefix_drop _ _ Hpre) as Hs. rewrite scan_skip.
    destruct sep as [|x sep']; [done|]. cbn [String.length] in *.
    replace (S (String.length sep') - 1) with (String.length sep') by lia.
    cbn [PyStr.drop] in Hs |- *.
    set (rest := PyStr.drop (String.length sep') s') in *.
    assert (Hrest : String.length rest ≤ n).
    { subst rest. pose proof (length_drop (String.length sep') s'). lia. }
    destruct (PyStr.scan (String x sep') 0 rest) as [p|] eqn:Hr.
    + intros [= <-]. destruct (IH rest p Hrest Hr) as [[pre Hpre'] Hnone].
      split; [|done]. exists (String x sep' +:+ pre).
      rewrite Hs at 1. rewrite Hpre'. by rewrite string_app_assoc.
    + intros [= <-]. split; [|done]. by exists "".
  - intros Hscan. cbn [String.length] in Hlen.
    destruct (IH s' piece ltac:(lia) Hscan) as [[pre Hpre'] Hnone].
    split; [|done]. exists (String a pre). by rewrite Hpre'.
Qed.

(** a match anywhere is found *)
Lemma scan_finds sep pre post :
  sep ≠ "" → is_Some (PyStr.scan sep 0 (pre +:+ sep +:+ post)).
Proof.
  intros Hsep. induction pre as [|a pre IH].
  - rewrite string_app_nil. destruct sep as [|x sep']; [done|].
    pose proof (prefix_app (String x sep') post) as Hp.
    rewrite string_app_cons in *. cbn [PyStr.scan]. rewrite Hp. eauto.
  - rewrite string_app_cons. cbn [PyStr.scan].
    destruct (String.prefix sep (String a (pre +:+ sep +:+ post))); [eauto | done].
Qed.

(** [sep in s] is what [PyStr.contains] computes *)
Lemma contains_occurs sep s :
  sep ≠ "" → PyStr.contains sep s = true ↔ occurs_in sep s.
Proof.
  intros Hsep. unfold PyStr.contains, occurs_in. split.
  - destruct (PyStr.scan sep 0 s) as [piece|] eqn:Hs; [|done]. intros _.
    destruct (scan_piece sep s piece Hsep Hs) as [[pre ->] _]. eauto.
  - intros (pre & post & ->). by destruct (scan_finds sep pre post Hsep) as [? ->].
Qed.

(** [s.split(sep)[-1]]: what follows the last match, free of [sep]; the
    whole of [s] when [sep] does not occur *)
Lemma split_last_spec sep s :
  sep ≠ "" →
  ¬ occurs_in sep (PyStr.split_last sep s) ∧
  if PyStr.contains sep s then ∃ pre, s = pre +:+ sep +:+ PyStr.split_last sep s
  else PyStr.split_last sep s = s.
Proof.
  intros Hsep. unfold PyStr.split_last, PyStr.contains.
  destruct (PyStr.scan sep 0 s) as [piece|] eqn:Hs.
  - destruct (scan_piece sep s piece Hsep Hs) as [Hpre Hnone]. split; [|done].
    intros Hocc%contains_occurs; [|done]. unfold PyStr.contains in Hocc.
    by rewrite Hnone in Hocc.
  - split; [|done]. intros Hocc%contains_occurs; [|done]. unfold PyStr.contains in Hocc.
    by rewrite Hs in Hocc.
Qed.

(** (X5) The name of a shape that has no (non-empty) [sh:name] is cut out of
    its IRI: what follows the last "NodeShape/"; else what follows the last
    "PropertyShape/", less one leading "@"; else what follows the last "/";
    and the whole IRI when it has no "/".  The part cut out never contains
    the separator again. *)
Theorem shape_name_from_iri g u :
  truthy_opt (value g u (NS.sh "name")) = false →
  let s := str u in
  let n := get_shape_name g u in
  if PyStr.contains "NodeShape/" s
  then (∃ pre, s = pre +:+ "NodeShape/" +:+ n) ∧ ¬ occurs_in "NodeShape/" n
  else if PyStr.contains "PropertyShape/" s
  then ∃ pre path,
         s = pre +:+ "PropertyShape/" +:+ path ∧ ¬ occurs_in "PropertyShape/" path ∧
         n = (if PyStr.startswith "@" path then PyStr.drop 1 path else path)
  else ¬ occurs_in "/" n ∧
       if PyStr.contains "/" s then ∃ pre, s = pre +:+ "/" +:+ n else n = s.
Proof.
  intros Hname s n. subst n s. unfold get_shape_name.
  assert (Hn : match value g u (NS.sh "name") with
               | Some n => truthy n = false
               | None => True
               end) by (by destruct (value g u (NS.sh "name"))).
  assert (Hfb : ∀ x : string,
            match value g u (NS.sh "name") with
            | Some n => if truthy n then str n else x
            | None => x
            end = x).
  { intros x. destruct (value g u (NS.sh "name")) as [t|]; [by rewrite Hn | done]. }
  rewrite Hfb.
  destruct (PyStr.contains "NodeShape/" (str u)) eqn:Hc1.
  { pose proof (split_last_spec "NodeShape/" (str u) ltac:(done)) as [Hno Hsp].
    rewrite Hc1 in Hsp. done. }
  destruct (PyStr.contains "PropertyShape/" (str u)) eqn:Hc2.
  { pose proof (split_last_spec "PropertyShape/" (str u) ltac:(done)) as [Hno Hsp].
    rewrite Hc2 in Hsp. destruct Hsp as [pre Hpre]. eauto. }
  pose proof (split_last_spec "/" (str u) ltac:(done)) as [Hno Hsp]. done.
Qed.

Lemma shape_name_from_iri_witness :
  truthy_opt (value Ex.two_targets Ex.P (NS.sh "name")) = false ∧
  get_shape_name Ex.two_targets Ex.P = "p" ∧
  get_shape_name Ex.two_targets (URIRef "urn:x") = "urn:x" ∧
  ∃ pre path,
    str Ex.P = pre +:+ "PropertyShape/" +:+ path ∧ ¬ occurs_in "PropertyShape/" path ∧
    get_shape_name Ex.two_targets Ex.P =
      (if PyStr.startswith "@" path then PyStr.drop 1 path else path).
Proof.
  split; [reflexivity|]. split; [reflexivity|]. split; [reflexivity|].
  exact (shape_name_from_iri Ex.two_targets Ex.P eq_refl).
Defined.

(** (X6) The type name written for a datatype is the part of its IRI after
    the last "#", which holds no "#"; an IRI without "#" is written whole. *)
Theorem local_name_is_after_last_hash d :
  ¬ occurs_in "#" (local_name d) ∧
  if PyStr.contains "#" (str d) then ∃ pre, str d = pre +:+ "#" +:+ local_name d
  else local_name d = str d.
Proof. unfold local_name. by apply split_last_spec. Qed.

(** ** What a lowering call leaves alone *)

(** (X7) Lowering a property shape touches nothing that exists: every
    element of the tree made before the call is unchanged, and so are the
    root, the node-shape registry and the registry entries of all other
    property shapes.  The shape joins the processed-set, and what is
    returned is its registry entry. *)
Theorem property_lowering_frame g fuel u st r st' :
  inv g st → process_property_shape g fuel u st = Ok r st' →
  (∀ i, i < length (elements st) → elements st' !! i = elements st !! i) ∧
  xsd_root st' = xsd_root st ∧
  node_shape_map st' = node_shape_map st ∧
  (∀ v, v ≠ u → property_shape_map st' !! v = property_shape_map st !! v) ∧
  processed_shapes st' = {[u]} ∪ processed_shapes st ∧
  r = property_shape_map st' !! u.
Proof.
  intros Hinv Hrun.
  pose proof (wp_Ok _ _ _ _ _ _ _ (process_property_shape_wp g fuel u st Hinv) Hrun)
    as [[E I'] Hroot Hnodes Hproc Hres _ _].
  split; [|split; [done|split; [done|split; [|done]]]].
  - intros i Hi. by apply (ev_store _ _ _ _ E).
  - intros v Hv. destruct (decide (v ∈ processed_shapes st)) as [Hin|Hnin].
    { by apply (ev_props _ _ _ _ E). }
    assert (H0 : property_shape_map st !! v = None).
    { destruct (property_shape_map st !! v) eqn:H; [|done].
      destruct Hnin. by eapply inv_pdom. }
    rewrite H0. destruct (property_shape_map st' !! v) eqn:H; [|done].
    pose proof (inv_pdom _ _ I' _ _ H) as Hin. rewrite Hproc in Hin. set_solver.
Qed.

Lemma property_lowering_frame_witness :
  let run := process_property_shape Ex.two_targets 3 Ex.P (Ex.rooted Ex.two_targets) in
  Ex.value_of run = Some (Some 0) ∧
  xsd_root (Ex.state_of run) = xsd_root (Ex.rooted Ex.two_targets) ∧
  node_shape_map (Ex.state_of run) = node_shape_map (Ex.rooted Ex.two_targets).
Proof.
  intros run.
  assert (Hrun : Ex.value_of run = Some (Some 0)) by (vm_compute; reflexivity).
  split; [exact Hrun|].
  destruct (property_lowering_frame Ex.two_targets 3 Ex.P (Ex.rooted Ex.two_targets)
              (Some 0) (Ex.state_of run) (Ex.inv_rooted _) (Ex.result_eq _ _ Hrun))
    as (_ & Hroot & Hnodes & _).
  by split.
Defined.

(** (X8) Lowering a node shape never rewrites: every element made before
    the call is unchanged, the processed-set only grows, the registry
    entries of the shapes processed before are frozen, and the root keeps
    its tag and attributes and only gains children, all of them new
    elements.  What is returned is the shape's registry entry. *)
Theorem node_lowering_frame g fuel u st r st' :
  inv g st → process_node_shape g fuel u st = Ok r st' →
  (∀ i, i < length (elements st) → elements st' !! i = elements st !! i) ∧
  processed_shapes st ⊆ processed_shapes st' ∧
  u ∈ processed_shapes st' ∧
  (∀ v, v ∈ processed_shapes st →
        node_shape_map st' !! v = node_shape_map st !! v ∧
        property_shape_map st' !! v = property_shape_map st !! v) ∧
  (∀ r0, xsd_root st = Some r0 →
         ∃ r1 new, xsd_root st' = Some r1 ∧ tag r1 = tag r0 ∧ attrib r1 = attrib r0 ∧
                   children r1 = children r0 ++ new ∧
                   Forall (λ i, length (elements st) ≤ i < length (elements st')) new) ∧
  r = node_shape_map st' !! u.
Proof.
  intros Hinv Hrun.
  pose proof (wp_Ok _ _ _ _ _ _ _ (process_node_shape_wp g fuel u st Hinv) Hrun)
    as [[[Hsub Hn Hp Hstore Hroot] _] Hdone Hres _ _].
  split; [|split; [done|split; [done|split; [|split; [|done]]]]].
  - intros i Hi. by apply Hstore.
  - intros v Hv. split; [by apply Hn | by apply Hp].
  - intros r0 Hr0. unfold root_grows in Hroot. rewrite Hr0 in Hroot.
    destruct (xsd_root st') as [r1|]; [|done].
    destruct Hroot as (Ht & Ha & new & Hc & Hnew). by exists r1, new.
Qed.

Lemma node_lowering_frame_witness :
  let st := Ex.rooted Ex.two_targets in
  let run := process_node_shape Ex.two_targets 3 Ex.A st in
  Ex.value_of run = Some (Some 0) ∧
  (processed_shapes st ⊆ processed_shapes (Ex.state_of run)) ∧
  Some 0 = node_shape_map (Ex.state_of run) !! Ex.A.
Proof.
  intros st run.
  assert (Hrun : Ex.value_of run = Some (Some 0)) by (vm_compute; reflexivity).
  split; [exact Hrun|].
  destruct (node_lowering_frame Ex.two_targets 3 Ex.A st (Some 0) (Ex.state_of run)
              (Ex.inv_rooted _) (Ex.result_eq _ _ Hrun))
    as (_ & Hsub & _ & _ & _ & Hres).
  by split.
Defined.

(** (X9) Node shapes and property shapes share one processed-set: a shape
    that was first lowered as a property shape is never lowered as a node
    shape; the later call returns none and changes nothing. *)
Theorem property_then_node_is_skipped g fuel fuel' u st r st1 :
  inv g st → u ∉ processed_shapes st →
  process_property_shape g fuel u st = Ok r st1 →
  process_node_shape g (S fuel') u st1 = Ok None st1.
Proof.
  intros Hinv Hu Hrun.
  pose proof (wp_Ok _ _ _ _ _ _ _ (process_property_shape_wp g fuel u st Hinv) Hrun)
    as [_ _ Hnodes Hproc _ _ _].
  rewrite process_node_shape_seen by (rewrite Hproc; set_solver).
  rewrite Hnodes. destruct (node_shape_map st !! u) eqn:H; [|done].
  destruct Hu. by eapply inv_dom.
Qed.

Lemma property_then_node_is_skipped_witness :
  let run := process_property_shape Ex.two_targets 3 Ex.P init in
  Ex.value_of run = Some (Some 0) ∧
  process_node_shape Ex.two_targets 3 Ex.P (Ex.state_of run) = Ok None (Ex.state_of run).
Proof.
  intros run.
  assert (Hrun : Ex.value_of run = Some (Some 0)) by (vm_compute; reflexivity).
  split; [exact Hrun|].
  apply (property_then_node_is_skipped Ex.two_targets 3 2 Ex.P init (Some 0)
           (Ex.state_of run) (inv_init _)); [set_solver|].
  by apply Ex.result_eq.
Defined.

(** (X10) The first lowering of a node shape needs the root: on a converter
    whose [xsd_root] is still [None] (before [create_xsd_root]) it never
    returns normally; the append to the root at its end fails. *)
Theorem node_lowering_needs_root g fuel u st :
  inv g st → u ∉ processed_shapes st → xsd_root st = None →
  ∀ r st', process_node_shape g fuel u st ≠ Ok r st'.
Proof.
  intros Hinv Hu Hroot r st' Hrun.
  pose proof (wp_Ok _ _ _ _ _ _ _ (process_node_shape_wp g fuel u st Hinv) Hrun) as Hpost.
  destruct (np_fresh _ _ _ _ _ Hpost Hu) as [_ (r0 & _ & _ & _ & Hr0 & _)].
  congruence.
Qed.

Lemma node_lowering_needs_root_witness :
  process_node_shape Ex.two_targets 3 Ex.A init = Raise "AttributeError" ∧
  ∀ r st', process_node_shape Ex.two_targets 3 Ex.A init ≠ Ok r st'.
Proof.
  split; [vm_compute; reflexivity|].
  apply (node_lowering_needs_root Ex.two_targets 3 Ex.A init (inv_init _));
    [set_solver | reflexivity].
Defined.

(** ** The driver ([convert]) *)

Lemma lower_node_shapes_covers c fuel s0 s1 :
  inv (SHACL c) s0 → lower_node_shapes fuel c s0 = Ok tt s1 →
  track (SHACL c) 0 0 s0 s1 ∧
  Forall (λ v, v ∈ processed_shapes s1) (subjects (SHACL c) RDF_type (NS.sh "NodeShape")).
Proof.
  intros Hinv Hrun. refine (wp_Ok _ _ (λ _ s1, _ ∧ _) True True _ _ _ Hrun).
  unfold lower_node_shapes.
  apply (wp_for_each_ind _ _
           (λ done s, track (SHACL c) 0 0 s0 s ∧
                      Forall (λ v, v ∈ processed_shapes s) done)).
  { split; [by apply track_start | constructor]. }
  intros pre v post s _ [T Hdone]. apply wp_bind.
  eapply wp_mono;
    [apply (wp_returns _ _ _ _ _ (process_node_shape_wp _ fuel v s (tr_inv _ _ _ _ _ T)))
    | | done | done].
  intros r s' Hpost. apply wp_ret.
  pose proof (np_track _ _ _ _ _ Hpost) as T'. split.
  - eapply track_trans; [| |exact T|exact T']; lia.
  - apply Forall_app. split.
    + eapply Forall_impl; [exact Hdone|]. cbn. intros x Hx.
      by apply (ev_processed _ _ _ _ (tr_ev _ _ _ _ _ T')).
    + constructor; [apply (np_done _ _ _ _ _ Hpost) | constructor].
Qed.

Lemma lower_standalone_covers c fuel s1 s2 :
  inv (SHACL c) s1 → is_Some (xsd_root s1) →
  lower_standalone_properties fuel c s1 = Ok tt s2 →
  track (SHACL c) 0 0 s1 s2 ∧
  Forall (λ v, v ∈ processed_shapes s2)
         (subjects (SHACL c) RDF_type (NS.sh "PropertyShape")).
Proof.
  intros Hinv Hroot1 Hrun.
  set (unprocessed := List.filter (λ ps, bool_decide (ps ∉ processed_shapes s1))
                        (subjects (SHACL c) RDF_type (NS.sh "PropertyShape"))).
  assert (Hloop : track (SHACL c) 0 0 s1 s2 ∧ is_Some (xsd_root s2) ∧
                  Forall (λ v, v ∈ processed_shapes s2) unprocessed).
  { refine (wp_Ok _ _ (λ _ s, _ ∧ _ ∧ _) True True _ _ _ Hrun).
    unfold lower_standalone_properties. apply wp_bind, wp_gets. cbn beta.
    fold unprocessed.
    apply (wp_for_each_ind _ _
             (λ done s, track (SHACL c) 0 0 s1 s ∧ is_Some (xsd_root s) ∧
                        Forall (λ v, v ∈ processed_shapes s) done)).
    { split; [by apply track_start|]. split; [done | constructor]. }
    intros pre v post s _ (T & [r Hr] & Hdone). apply wp_bind.
    eapply wp_mono;
      [apply (wp_returns _ _ _ _ _
                (process_property_shape_wp _ fuel v s (tr_inv _ _ _ _ _ T)))
      | | done | done].
    intros res s' Hpost. cbn beta.
    pose proof (pp_track _ _ _ _ _ Hpost) as T'.
    assert (T2 : track (SHACL c) 0 0 s1 s')
      by (eapply track_trans; [| |exact T|exact T']; lia).
    assert (Hd' : Forall (λ x, x ∈ processed_shapes s') (pre ++ [v])).
    { apply Forall_app. split.
      - eapply Forall_impl; [exact Hdone|]. cbn. intros x Hx.
        by apply (ev_processed _ _ _ _ (tr_ev _ _ _ _ _ T')).
      - constructor; [|constructor]. rewrite (pp_processed _ _ _ _ _ Hpost). set_solver. }
    assert (Hr' : xsd_root s' = Some r) by (by rewrite (pp_root _ _ _ _ _ Hpost)).
    destruct res as [e|]; [|apply wp_ret; split; [done|]; split; [eauto | done]].
    apply wp_bind, wp_gets. cbn beta.
    destruct (PyStr.endswith "element" (ET.tag_of e (elements s'))) eqn:He;
      [|apply wp_ret; split; [done|]; split; [eauto | done]].
    unfold wp, root_append. rewrite Hr'. split; [|split; [cbn; eauto | done]].
    apply (track_root_append _ 0 0 s1 s' r e T2 Hr'); [lia|].
    split; [by apply endswith_element_valid | by left]. }
  destruct Hloop as (T & _ & Hun). split; [done|].
  apply Forall_forall. intros v Hv.
  destruct (decide (v ∈ processed_shapes s1)) as [Hin|Hnin].
  - by apply (ev_processed _ _ _ _ (tr_ev _ _ _ _ _ T)).
  - rewrite Forall_forall in Hun. apply Hun. subst unprocessed.
    apply list_elem_of_In, filter_In. split; [by apply list_elem_of_In|].
    by apply bool_decide_eq_true_2.
Qed.

(** (X11) A conversion that returns has visited every declared shape:
    every subject of type [sh:NodeShape] and of type [sh:PropertyShape] is
    in the processed-set, and nothing that was in it has left it. *)
Theorem convert_covers_declared_shapes c fuel st st' :
  inv (SHACL c) st → convert fuel c st = Ok tt st' →
  (∀ u, (u, RDF_type, NS.sh "NodeShape") ∈ SHACL c ∨
        (u, RDF_type, NS.sh "PropertyShape") ∈ SHACL c →
        u ∈ processed_shapes st') ∧
  processed_shapes st ⊆ processed_shapes st'.
Proof.
  intros Hinv (s0 & s1 & H0 & H1 & H2)%convert_steps.
  destruct (create_xsd_root_run c st (create_xsd_root_not_refused _ _ _ H0))
    as (r0 & Hc & _ & Hkids & _).
  rewrite Hc in H0. injection H0 as <-.
  pose proof (inv_create_xsd_root _ _ r0 Hinv Hkids) as Hinv0.
  destruct (lower_node_shapes_covers c fuel _ s1 Hinv0 H1) as [T1 Hn].
  assert (Hroot1 : is_Some (xsd_root s1)).
  { destruct T1 as [[_ _ _ _ G] _]. unfold root_grows in G. cbn in G.
    destruct (xsd_root s1); [eauto | done]. }
  destruct (lower_standalone_covers c fuel s1 st' (tr_inv _ _ _ _ _ T1) Hroot1 H2)
    as [T2 Hp].
  pose proof (ev_processed _ _ _ _ (tr_ev _ _ _ _ _ T1)) as Hs1.
  pose proof (ev_processed _ _ _ _ (tr_ev _ _ _ _ _ T2)) as Hs2. cbn in Hs1.
  split; [|set_solver].
  rewrite Forall_forall in Hn, Hp. intros u [Hu|Hu].
  - apply Hs2, Hn. by apply subjects_elem.
  - apply Hp. by apply subjects_elem.
Qed.

Lemma convert_covers_declared_shapes_witness :
  Ex.value_of (convert 5 (Ex.conv Ex.two_targets) init) = Some tt ∧
  Ex.A ∈ processed_shapes (Ex.converted Ex.two_targets) ∧
  Ex.P ∈ processed_shapes (Ex.converted Ex.two_targets).
Proof.
  assert (Hrun : Ex.value_of (convert 5 (Ex.conv Ex.two_targets) init) = Some tt)
    by (vm_compute; reflexivity).
  split; [exact Hrun|].
  destruct (convert_covers_declared_shapes (Ex.conv Ex.two_targets) 5 init
              (Ex.converted Ex.two_targets) (inv_init _) (Ex.result_eq _ _ Hrun))
    as [Hall _].
  split; apply Hall; [left | right]; apply list_elem_of_In; vm_compute; auto 10.
Defined.

(** (X12) Lowering never touches the schema element itself: after a
    conversion the root is the element that [create_xsd_root] made, with
    children added.  It carries [targetNamespace], [xmlns:tns],
    [elementFormDefault] and [attributeFormDefault], and declares exactly one
    of the prefixes [xs] and [xsd]: [xsd] when the prefix map binds [xsd] to
    the plain string of the schema namespace without "#", [xs] otherwise.
    The map that [load_shacl_file] fills holds [URIRef]s, which equal no
    string: after it the schema element always declares [xs]. *)
Theorem convert_keeps_root_attributes c fuel st st' :
  inv (SHACL c) st → convert fuel c st = Ok tt st' →
  ∃ r, xsd_root st' = Some r ∧ tag r = NS.q "schema" ∧
       attrib r !! "targetNamespace" = Some (xsdTargetNS c) ∧
       attrib r !! "xmlns:tns" = Some (tns c) ∧
       attrib r !! "elementFormDefault" = Some "qualified" ∧
       attrib r !! "attributeFormDefault" = Some "unqualified" ∧
       (if bool_decide (ns_prefix_map c !! "xsd" =
                        Some (PlainStr "http://www.w3.org/2001/XMLSchema"))
        then attrib r !! "xmlns:xsd" = Some NS.xs ∧ attrib r !! "xmlns:xs" = None
        else attrib r !! "xmlns:xs" = Some NS.xs ∧ attrib r !! "xmlns:xsd" = None) ∧
       ((∀ v, ns_prefix_map c !! "xsd" = Some v → ∃ iri, v = NsURIRef iri) →
        attrib r !! "xmlns:xs" = Some NS.xs ∧ attrib r !! "xmlns:xsd" = None).
Proof.
  intros Hinv (s0 & s1 & H0 & H1 & H2)%convert_steps.
  destruct (create_xsd_root_run c st (create_xsd_root_not_refused _ _ _ H0))
    as (r0 & Hc & Htag & Hkids & Hattr).
  rewrite Hc in H0. injection H0 as <-.
  pose proof (inv_create_xsd_root _ _ r0 Hinv Hkids) as Hinv0.
  destruct (lower_node_shapes_covers c fuel _ s1 Hinv0 H1) as [T1 _].
  assert (Hroot1 : is_Some (xsd_root s1)).
  { destruct T1 as [[_ _ _ _ G] _]. unfold root_grows in G. cbn in G.
    destruct (xsd_root s1); [eauto | done]. }
  destruct (lower_standalone_covers c fuel s1 st' (tr_inv _ _ _ _ _ T1) Hroot1 H2)
    as [T2 _].
  pose proof (track_trans _ 0 0 0 0 _ _ _ ltac:(lia) ltac:(lia) T1 T2) as [[_ _ _ _ G] _].
  unfold root_grows in G. cbn in G. destruct (xsd_root st') as [r|]; [|done].
  destruct G as (Ht & Ha & _). exists r. rewrite Ht, Ha.
  destruct Hattr as (Htn & Htns & Hef & Haf & Hx).
  repeat (split; [done|]). intros Huri.
  case_bool_decide as Hb; [|done].
  destruct (Huri _ Hb) as [iri Hiri]. done.
Qed.

Module Ex11.
(** [Ex.two_targets] in a converter whose prefix map binds [xsd] as
    [load_shacl_file] does, to a [URIRef] *)
Definition loaded : converter :=
  mkConverter Ex.two_targets {["xsd" := NsURIRef "http://www.w3.org/2001/XMLSchema"]}
              "http://example.com/" "http://example.com/".
End Ex11.

Lemma convert_keeps_root_attributes_witness :
  Ex.value_of (convert 5 Ex11.loaded init) = Some tt ∧
  ∃ r, xsd_root (Ex.state_of (convert 5 Ex11.loaded init)) = Some r ∧
       tag r = NS.q "schema" ∧
       attrib r !! "targetNamespace" = Some "http://example.com/" ∧
       attrib r !! "xmlns:xs" = Some NS.xs ∧ attrib r !! "xmlns:xsd" = None.
Proof.
  assert (Hrun : Ex.value_of (convert 5 Ex11.loaded init) = Some tt)
    by (vm_compute; reflexivity).
  split; [exact Hrun|].
  destruct (convert_keeps_root_attributes Ex11.loaded 5 init
              (Ex.state_of (convert 5 Ex11.loaded init)) (inv_init _)
              (Ex.result_eq _ _ Hrun))
    as (r & Hr & Ht & Hn & _ & _ & _ & _ & Hx).
  exists r. split; [done|]. split; [done|]. split; [done|]. apply Hx.
  intros v Hv. unfold Ex11.loaded in Hv. cbn [ns_prefix_map] in Hv.
  rewrite lookup_singleton_eq in Hv. injection Hv as <-. by eexists.
Defined.

Lemma filter_none {A} (f : A → bool) (l : list A) :
  Forall (λ x, f x = false) l → List.filter f l = [].
Proof. induction 1 as [|x l Hx _ IH]; [done|]. cbn. by rewrite Hx. Qed.

(** a loop over shapes that are all processed changes nothing *)
Lemma for_each_seen g fuel (l : list term) st :
  Forall (λ v, v ∈ processed_shapes st) l →
  for_each l (λ v, _ ← process_node_shape g (S fuel) v; mret tt) st = Ok tt st.
Proof.
  induction 1 as [|v l Hv _ IH]; [done|].
  cbn [for_each]. unfold mbind at 1, M_bind at 1. unfold mbind at 1, M_bind at 1.
  by rewrite process_node_shape_seen.
Qed.

(** (X13) A converter serves one conversion: a second [convert] on the same
    converter makes a new root and finds every shape processed, so it
    returns a schema element without any child; the registries, the
    processed-set and the elements made by the first conversion stay as
    they are. *)
Theorem second_convert_is_empty c fuel fuel' st st1 :
  inv (SHACL c) st → convert fuel c st = Ok tt st1 →
  ∃ r, convert (S fuel') c st1 =
         Ok tt (mkState (processed_shapes st1) (Some r) (node_shape_map st1)
                        (property_shape_map st1) (elements st1)) ∧
       tag r = NS.q "schema" ∧ children r = [].
Proof.
  intros Hinv Hrun.
  destruct (convert_covers_declared_shapes c fuel st st1 Hinv Hrun) as [Hall _].
  destruct (convert_steps _ _ _ _ Hrun) as (s0 & _ & H0 & _).
  destruct (create_xsd_root_run c st1 (create_xsd_root_not_refused _ _ _ H0))
    as (r & Hc & Htag & Hkids & _).
  exists r. split; [|done].
  unfold convert, mbind at 1, M_bind at 1. rewrite Hc.
  unfold mbind at 1, M_bind at 1, lower_node_shapes.
  rewrite for_each_seen.
  2:{ apply Forall_forall. intros v Hv%subjects_elem. cbn. apply Hall. by left. }
  unfold lower_standalone_properties, mbind at 1, M_bind at 1, gets.
  cbn [processed_shapes].
  rewrite filter_none; [done|].
  apply Forall_forall. intros v Hv%subjects_elem.
  apply bool_decide_eq_false_2. intros Hn. apply Hn, Hall. by right.
Qed.

Lemma second_convert_is_empty_witness :
  Ex.value_of (convert 5 (Ex.conv Ex.two_targets) init) = Some tt ∧
  length (Ex.root_children (Ex.converted Ex.two_targets)) = 5 ∧
  ∃ r, convert 1 (Ex.conv Ex.two_targets) (Ex.converted Ex.two_targets) =
         Ok tt (mkState (processed_shapes (Ex.converted Ex.two_targets)) (Some r)
                        (node_shape_map (Ex.converted Ex.two_targets))
                        (property_shape_map (Ex.converted Ex.two_targets))
                        (elements (Ex.converted Ex.two_targets))) ∧
       tag r = NS.q "schema" ∧ children r = [].
Proof.
  assert (Hrun : Ex.value_of (convert 5 (Ex.conv Ex.two_targets) init) = Some tt)
    by (vm_compute; reflexivity).
  split; [exact Hrun|]. split; [vm_compute; reflexivity|].
  exact (second_convert_is_empty (Ex.conv Ex.two_targets) 5 0 init
           (Ex.converted Ex.two_targets) (inv_init _) (Ex.result_eq _ _ Hrun)).
Defined.

(** ** Exclusive choice ([sh:xone]) *)

Module Ex6.
Import Ex.
(** [sh:xone ( S1 S2 )], both branches with a datatype *)
Definition uniform_xone : Graph :=
  [ (A, RDF_type, NS.sh "NodeShape");
    (A, NS.sh "xone", BNode "l1");
    (BNode "l1", RDF_first, Ex3.S1);
    (BNode "l1", RDF_rest, BNode "l2");
    (BNode "l2", RDF_first, Ex3.S2);
    (BNode "l2", RDF_rest, RDF_nil);
    (Ex3.S1, NS.sh "datatype", NS.xsd "string");
    (Ex3.S2, NS.sh "datatype", NS.xsd "integer") ].
End Ex6.

(** (X14) An exclusive choice is always a choice: whatever the branches of
    an [sh:xone] list declare (datatypes included, unlike [sh:or]), the
    parent gets one new last child, a choice, whose children are, in branch
    order, the registered element of each property-shape branch and a
    reference to each node-shape branch that has a complex type; every
    branch has been lowered. *)
Theorem exclusive_choice_is_a_choice g w fuel x l p el st items :
  inv g st → raises_ok g st → enough g w (nodes g) fuel st →
  l ∈ objects g x (NS.sh "xone") → elements st !! p = Some el →
  get_rdf_list_items fuel g l = Some items →
  ∃ st' kids,
    process_choice_constraint g (process_node_shape g fuel) fuel l p true st = Ok tt st' ∧
    elements st' !! p =
      Some (mkElem (tag el) (attrib el) (children el ++ [length (elements st)])) ∧
    ET.tag_of (length (elements st)) (elements st') = NS.q "choice" ∧
    ET.children_of (length (elements st)) (elements st') = kids ∧
    branches g (length (elements st)) st' items kids ∧
    Forall (λ i, i ∈ processed_shapes st') items.
Proof.
  intros Hinv Hok Hen Hl Hel Hitems.
  pose proof (lookup_lt_Some _ _ _ Hel) as Hp.
  destruct (wp_total _ _ _ _ _
              (process_choice_constraint_wp g fuel (process_node_shape g fuel)
                 (λ v s, process_node_shape_wp g fuel v s) l p st x (NS.sh "xone") true
                 Hinv Hp Hl)) as ([] & st' & Hrun & Hpost).
  - by intros H.
  - intros H. by apply (H w (nodes g)).
  - destruct (wp_Ok _ _ _ _ _ _ _
                (choice_children_wp g fuel (process_node_shape g fuel)
                   (λ v s, process_node_shape_wp g fuel v s) l p st x (NS.sh "xone")
                   Hinv Hp Hl) Hrun items Hitems) as (kids & Hkids & Hbr).
    destruct (cp_choice _ _ _ _ _ _ _ Hpost items Hitems) as [Htag Hdone]; [by left|].
    exists st', kids. split; [done|].
    split; [by apply (cp_parent _ _ _ _ _ _ _ Hpost)|]. done.
Qed.

Lemma exclusive_choice_is_a_choice_witness :
  let sx := Ex3.at_disjunction Ex6.uniform_xone in
  are_simple_type_constraints Ex6.uniform_xone [Ex3.S1; Ex3.S2] = true ∧
  ∃ st' kids,
    process_choice_constraint Ex6.uniform_xone (process_node_shape Ex6.uniform_xone 20) 20
                              (BNode "l1") 0 true sx = Ok tt st' ∧
    elements st' !! 0 = Some (mkElem (NS.q "complexType") {["name" := "A"]} [1]) ∧
    ET.tag_of 1 (elements st') = NS.q "choice" ∧
    ET.children_of 1 (elements st') = kids ∧
    branches Ex6.uniform_xone 1 st' [Ex3.S1; Ex3.S2] kids ∧
    Forall (λ i, i ∈ processed_shapes st') [Ex3.S1; Ex3.S2].
Proof.
  intros sx. split; [reflexivity|].
  refine (exclusive_choice_is_a_choice Ex6.uniform_xone 3 20 Ex.A (BNode "l1") 0
            (mkElem (NS.q "complexType") {["name" := "A"]} []) sx [Ex3.S1; Ex3.S2]
            _ _ _ _ _ _).
  - apply Ex3.inv_at_disjunction.
  - split; [vm_compute; eauto | vm_compute; reflexivity].
  - split; [vm_compute; reflexivity|]. split; [done | vm_compute; lia].
  - vm_compute. left.
  - reflexivity.
  - reflexivity.
Defined.

(** ** Elements and attributes without value constraints *)

Lemma process_list_constraints_absent g fuel u e h :
  objects g u (NS.sh "in") = [] → process_list_constraints g fuel u e h = Some h.
Proof. intros Hin. unfold process_list_constraints. by rewrite Hin. Qed.

(** (X15) An element-kind property shape with a path and without [sh:or],
    [sh:in], pattern or length bound lowers to one childless element.  It
    carries the shape's name, the local name of the datatype as its type
    when a datatype is declared, and an occurs bound only where the count
    is not written "1"; the default 1 is never written out. *)
Theorem plain_element g fuel u st :
  u ∉ processed_shapes st →
  truthy_opt (value g u (NS.sh "path")) = true →
  is_attribute g u = false →
  objects g u (NS.sh "or") = [] →
  objects g u (NS.sh "in") = [] →
  facets_requested g u = false →
  process_property_shape g fuel u st =
    Ok (Some (length (elements st)))
       (lowered_prop st u (length (elements st)) (elements st ++ [scalar_element g u])) ∧
  tag (scalar_element g u) = NS.q "element" ∧
  children (scalar_element g u) = [] ∧
  let a := attrib (scalar_element g u) in
  a !! "name" = Some (display_name g u) ∧
  a !! "type" = match value g u (NS.sh "datatype") with
                | Some d => if truthy d then Some (local_name d) else None
                | None => None
                end ∧
  a !! "minOccurs" = match value g u (NS.sh "minCount") with
                     | Some mc => if String.eqb (str mc) "1" then None else Some (str mc)
                     | None => None
                     end ∧
  a !! "maxOccurs" = match value g u (NS.sh "maxCount") with
                     | Some mc => if String.eqb (str mc) "1" then None else Some (str mc)
                     | None => None
                     end ∧
  a !! "use" = None ∧ a !! "fixed" = None.
Proof.
  intros Hu Hpath Hattr Hor Hin Hreq. split.
  - rewrite (process_property_shape_plain g fuel u st _ Hu Hpath Hattr Hor
               (process_list_constraints_absent g fuel u _ _ Hin)).
    by rewrite process_facet_constraints_skip.
  - split; [done|]. split; [done|]. cbv zeta.
    unfold scalar_element, occurs, typed. cbn [attrib].
    destruct (value g u (NS.sh "datatype")) as [d|]; [destruct (truthy d)|];
      (destruct (value g u (NS.sh "minCount")) as [mn|];
       [destruct (String.eqb (str mn) "1")|]);
      (destruct (value g u (NS.sh "maxCount")) as [mx|];
       [destruct (String.eqb (str mx) "1")|]);
      cbn [negb]; by simplify_map_eq.
Qed.

Module Ex7.
Import Ex.
(** an optional, repeatable string element *)
Definition optional_many : Graph :=
  [ (P, RDF_type, NS.sh "PropertyShape");
    (P, NS.sh "path", ex "p");
    (P, NS.sh "datatype", NS.xsd "string");
    (P, NS.sh "minCount", typed_int "0" false);
    (P, NS.sh "maxCount", typed_int "1" true) ].

Definition Q : term := ex "PropertyShape/@id".

(** a required attribute; [sh:maxCount] and [sh:or] are present too *)
Definition required_attribute : Graph :=
  [ (Q, RDF_type, NS.sh "PropertyShape");
    (Q, NS.sh "path", ex "id");
    (Q, NS.sh "datatype", NS.xsd "string");
    (Q, NS.sh "minCount", typed_int "1" true);
    (Q, NS.sh "maxCount", typed_int "5" true);
    (Q, NS.sh "or", RDF_nil) ].

(** an attribute whose [sh:minCount] is no integer *)
Definition bad_count : Graph :=
  [ (Q, RDF_type, NS.sh "PropertyShape");
    (Q, NS.sh "path", ex "id");
    (Q, NS.sh "minCount", Literal "many" None None None) ].

(** [sh:minCount] is the digit 1 followed by a no-break space (code point
    160), which [int] skips *)
Definition spaced_count : Graph :=
  [ (Q, RDF_type, NS.sh "PropertyShape");
    (Q, NS.sh "path", ex "id");
    (Q, NS.sh "minCount",
       Literal (String "1" (String (ascii_of_nat 160) EmptyString)) None None None) ].

(** [sh:minCount] is a file separator (code point 28) followed by the digit
    5; [str.strip] drops the separator, [int] does not *)
Definition separator_count : Graph :=
  [ (Q, RDF_type, NS.sh "PropertyShape");
    (Q, NS.sh "path", ex "id");
    (Q, NS.sh "minCount",
       Literal (String (ascii_of_nat 28) "5") None None None) ].
End Ex7.

Lemma plain_element_witness :
  process_property_shape Ex7.optional_many 1 Ex.P init =
    Ok (Some 0) (lowered_prop init Ex.P 0 [scalar_element Ex7.optional_many Ex.P]) ∧
  attrib (scalar_element Ex7.optional_many Ex.P) !! "minOccurs" = Some "0" ∧
  attrib (scalar_element Ex7.optional_many Ex.P) !! "maxOccurs" = None.
Proof.
  destruct (plain_element Ex7.optional_many 1 Ex.P init)
    as (Hrun & _ & _ & _ & _ & Hmin & Hmax & _);
    [set_solver | reflexivity | reflexivity | reflexivity | reflexivity | reflexivity |].
  split; [exact Hrun|]. split; [exact Hmin | exact Hmax].
Defined.

(** the [use] of an attribute; [None] when [int(min_count)] fails *)
Definition use_of (g : Graph) (u : term) : option string :=
  match value g u (NS.sh "minCount") with
  | Some mc =>
      match PyStr.int (str mc) with
      | Some n => Some (if (0 <? n)%Z then "required" else "optional")
      | None => None
      end
  | None => Some "optional"
  end.

Lemma cardinality_attribute_run g u st h el :
  is_attribute g u = true → elements st = h ++ [el] →
  cardinality g u (length h) st =
    match use_of g u with
    | Some use =>
        Ok tt (with_elements st
                 (h ++ [mkElem (tag el) (<["use" := use]> (attrib el)) (children el)]))
    | None => Raise "ValueError"
    end.
Proof.
  intros Hattr Hst. unfold cardinality, use_of. rewrite Hattr. cbn [negb andb].
  unfold mbind, M_bind.
  assert (Hset : ∀ v, on_store (ET.set (length h) "use" v) st =
            Ok tt (with_elements st
                     (h ++ [mkElem (tag el) (<["use" := v]> (attrib el)) (children el)]))).
  { intros v. unfold on_store, modify, with_elements. by rewrite Hst, ET_set_last. }
  destruct (value g u (NS.sh "minCount")) as [mn|].
  - destruct (PyStr.int (str mn)) as [n|]; [|done].
    destruct (0 <? n)%Z; rewrite Hset; by destruct (value g u (NS.sh "maxCount")).
  - rewrite Hset. by destruct (value g u (NS.sh "maxCount")).
Qed.

(** (X16) An attribute-kind property shape with a path (and without
    [sh:in], pattern or length bound) lowers to one childless attribute with
    [use="required"] when [int(sh:minCount)] is positive and
    [use="optional"] when it is not or when there is no [sh:minCount]; a
    [sh:minCount] that [int] cannot read raises [ValueError].  [int] reads
    the text as CPython does for text of code points below 256: an optional
    sign and decimal digits, at most 4300 of them, with single underscores
    between digits, and around them the white space that [int] skips (the
    code points 9 to 13, 32, 133 and 160, not 28 to 31).  [sh:maxCount] and
    [sh:or] play no part: no occurs bound and no union is written. *)
Theorem attribute_use g fuel u st :
  u ∉ processed_shapes st →
  truthy_opt (value g u (NS.sh "path")) = true →
  is_attribute g u = true →
  objects g u (NS.sh "in") = [] →
  facets_requested g u = false →
  process_property_shape g fuel u st =
    match use_of g u with
    | Some use =>
        Ok (Some (length (elements st)))
           (lowered_prop st u (length (elements st))
              (elements st ++
               [mkElem (NS.q "attribute")
                       (<["use" := use]> (typed g u {["name" := display_name g u]})) []]))
    | None => Raise "ValueError"
    end.
Proof.
  intros Hu Hpath Hattr Hin Hreq.
  unfold process_property_shape, mbind at 1, M_bind at 1, gets.
  rewrite decide_False by done.
  unfold mbind at 1, M_bind at 1, reserve, modify. rewrite Hpath. cbn [negb].
  rewrite Hattr.
  unfold mbind at 1, M_bind at 1, new_elem, ET.Element.
  cbn [elements processed_shapes xsd_root node_shape_map property_shape_map].
  unfold mbind at 1, M_bind at 1, on_store at 1, modify.
  cbn [elements processed_shapes xsd_root node_shape_map property_shape_map].
  rewrite ET_set_last. cbn [tag attrib children]. rewrite insert_empty.
  set (s1 := mkState _ _ _ _ _).
  set (rest := (_ ;; _) : M (option nat)).
  assert (Hmatch : match objects g u (NS.sh "or") with
                   | [] => rest
                   | _ :: _ => rest
                   end s1 = rest s1) by (by destruct (objects g u (NS.sh "or"))).
  rewrite Hmatch. subst rest. clear Hmatch.
  assert (Hs1 : ∃ el, (match value g u (NS.sh "datatype") with
                       | Some d => if truthy d
                                   then on_store (ET.set (length (elements st)) "type"
                                                         (local_name d))
                                   else mret tt
                       | None => mret tt
                       end) s1 = Ok tt (with_elements s1 (elements st ++ [el])) ∧
                      el = mkElem (NS.q "attribute")
                                  (typed g u {["name" := display_name g u]}) []).
  { eexists. split; [|reflexivity]. unfold typed.
    destruct (value g u (NS.sh "datatype")) as [d|]; [destruct (truthy d)|];
      subst s1; unfold on_store, modify; cbn [mret M_ret elements]; unfold with_elements;
      cbn [elements processed_shapes xsd_root node_shape_map property_shape_map];
      by rewrite ?ET_set_last. }
  destruct Hs1 as (el & Hs1 & Hel).
  unfold mbind at 1, M_bind at 1. rewrite Hs1.
  unfold mbind at 1, M_bind at 1.
  rewrite (cardinality_attribute_run g u (with_elements s1 (elements st ++ [el]))
             (elements st) el Hattr eq_refl).
  destruct (use_of g u) as [use|]; [|done].
  unfold mbind at 1, M_bind at 1, gets. cbn [elements with_elements].
  rewrite process_list_constraints_absent by done.
  unfold mbind at 1, M_bind at 1, of_walk. cbn [mret M_ret].
  unfold mbind, M_bind, on_store, store_property_shape, modify. subst s1 el.
  cbn [elements processed_shapes xsd_root node_shape_map property_shape_map with_elements
       tag attrib children].
  by rewrite process_facet_constraints_skip.
Qed.

Lemma attribute_use_witness :
  process_property_shape Ex7.required_attribute 1 Ex7.Q init =
    Ok (Some 0)
       (lowered_prop init Ex7.Q 0
          [mkElem (NS.q "attribute")
                  (<["use" := "required"]>
                     (<["type" := "string"]> {["name" := "id"]})) []]) ∧
  process_property_shape Ex7.bad_count 1 Ex7.Q init = Raise "ValueError" ∧
  process_property_shape Ex7.spaced_count 1 Ex7.Q init =
    Ok (Some 0)
       (lowered_prop init Ex7.Q 0
          [mkElem (NS.q "attribute") (<["use" := "required"]> {["name" := "id"]}) []]) ∧
  process_property_shape Ex7.separator_count 1 Ex7.Q init = Raise "ValueError".
Proof.
  split; [|split; [|split]].
  - refine (attribute_use Ex7.required_attribute 1 Ex7.Q init _ eq_refl eq_refl eq_refl
              eq_refl).
    set_solver.
  - refine (attribute_use Ex7.bad_count 1 Ex7.Q init _ eq_refl eq_refl eq_refl eq_refl).
    set_solver.
  - refine (attribute_use Ex7.spaced_count 1 Ex7.Q init _ eq_refl eq_refl eq_refl eq_refl).
    set_solver.
  - refine (attribute_use Ex7.separator_count 1 Ex7.Q init _ eq_refl eq_refl eq_refl
              eq_refl).
    set_solver.
Defined.

(** ** Where the properties of a node shape go *)

(** every registered property element has the tag of its kind *)
Definition registry_tagged (g : Graph) (s : state) : Prop :=
  ∀ v e, property_shape_map s !! v = Some e →
         ET.tag_of e (elements s) =
           NS.q (if is_attribute g v then "attribute" else "element").

(** [placements g reg ct container props p]: the elements that the loop of
    lines 137-147 appends to [p], in order: for each property shape with a
    registered element, element-kind ones go to [container], attribute-kind
    ones to the complex type [ct]. *)
Fixpoint placements (g : Graph) (reg : gmap term nat) (ct container : nat)
    (props : list term) (p : nat) : list nat :=
  match props with
  | [] => []
  | prop :: rest =>
      match reg !! prop with
      | Some e =>
          if decide ((if is_attribute g prop then ct else container) = p)
          then e :: placements g reg ct container rest p
          else placements g reg ct container rest p
      | None => placements g reg ct container rest p
      end
  end.

Lemma placements_app g reg ct container l1 l2 p :
  placements g reg ct container (l1 ++ l2) p =
  placements g reg ct container l1 p ++ placements g reg ct container l2 p.
Proof.
  induction l1 as [|x l1 IH]; [done|]. cbn [app placements].
  destruct (reg !! x); [|done]. case_decide; [|done]. by rewrite IH.
Qed.

Lemma placements_ext g reg reg' ct container props p :
  Forall (λ v, reg' !! v = reg !! v) props →
  placements g reg' ct container props p = placements g reg ct container props p.
Proof.
  induction 1 as [|x l Hx _ IH]; [done|]. cbn [placements]. by rewrite Hx, IH.
Qed.

Lemma registry_tagged_valid g s v e :
  registry_tagged g s → property_shape_map s !! v = Some e → e < length (elements s).
Proof.
  intros Hreg Hv. specialize (Hreg v e Hv). unfold ET.tag_of in Hreg.
  destruct (elements s !! e) as [el|] eqn:Hel; [by eapply lookup_lt_Some|].
  by destruct (is_attribute g v).
Qed.

(** the tags and the registry are all that [registry_tagged] looks at *)
Lemma registry_tagged_grows g s s' :
  registry_tagged g s → property_shape_map s' = property_shape_map s →
  grows 0 (elements s) (elements s') → registry_tagged g s'.
Proof.
  intros Hreg Hmap Hg v e Hv. rewrite Hmap in Hv.
  rewrite (grows_tag_of _ _ _ _ Hg) by (by eapply registry_tagged_valid).
  by apply Hreg.
Qed.

Lemma registry_tagged_lowered g v s r s' :
  inv g s → registry_tagged g s → prop_post g v s r s' → registry_tagged g s'.
Proof.
  intros Hinv Hreg Hpost x e Hx.
  destruct (decide (v ∈ processed_shapes s)) as [Hin|Hnin].
  { rewrite (pp_cached _ _ _ _ _ Hpost Hin) in *. by apply Hreg. }
  destruct (decide (x = v)) as [->|Hne].
  - destruct (pp_fresh _ _ _ _ _ Hpost e) as [_ Ht]; [|done|done].
    by rewrite (pp_result _ _ _ _ _ Hpost).
  - pose proof (pp_track _ _ _ _ _ Hpost) as [E I'].
    assert (Hx0 : property_shape_map s !! x = Some e).
    { assert (Hxp : x ∈ processed_shapes s).
      { pose proof (inv_pdom _ _ I' _ _ Hx) as Hin.
        rewrite (pp_processed _ _ _ _ _ Hpost) in Hin. set_solver. }
      by rewrite <- (ev_props _ _ _ _ E x Hxp). }
    rewrite (grows_tag_of _ _ _ _ (ev_store _ _ _ _ E))
      by (by eapply registry_tagged_valid).
    by apply Hreg.
Qed.

Lemma children_of_append_ne p q e h :
  p ≠ q → ET.children_of p (ET.append q e h) = ET.children_of p h.
Proof. intros. unfold ET.children_of. by rewrite lookup_append_ne. Qed.

Lemma tag_q_element : PyStr.endswith "element" (NS.q "element") = true.
Proof. reflexivity. Qed.
Lemma tag_q_attribute :
  PyStr.endswith "element" (NS.q "attribute") = false ∧
  PyStr.endswith "attribute" (NS.q "attribute") = true.
Proof. split; reflexivity. Qed.

Section Placement.
Variables (g : Graph) (fuel : nat) (ct container : nat).

(** the loop of lines 137-147 *)
Lemma placement_loop props s1 :
  inv g s1 → registry_tagged g s1 →
  ct < length (elements s1) → container < length (elements s1) →
  wp (for_each props (λ prop,
        prop_elem ← process_property_shape g fuel prop;
        match prop_elem with
        | Some e =>
            h ← gets elements;
            if PyStr.endswith "element" (ET.tag_of e h)
            then on_store (ET.append container e)
            else if PyStr.endswith "attribute" (ET.tag_of e h)
                 then on_store (ET.append ct e)
                 else mret tt
        | None => mret tt
        end)) s1
     (λ _ s', track g 0 0 s1 s' ∧ registry_tagged g s' ∧
              ∀ p, p < length (elements s1) →
                   ET.children_of p (elements s') =
                     ET.children_of p (elements s1) ++
                     placements g (property_shape_map s') ct container props p)
     True True.
Proof.
  intros Hinv Hreg Hct Hcon.
  eapply wp_mono; [| |done|done].
  { apply (wp_for_each_ind props _
             (λ done s', track g 0 0 s1 s' ∧ registry_tagged g s' ∧
                         Forall (λ v, v ∈ processed_shapes s') done ∧
                         ∀ p, p < length (elements s1) →
                              ET.children_of p (elements s') =
                                ET.children_of p (elements s1) ++
                                placements g (property_shape_map s') ct container done p)).
    { split; [by apply track_start|]. split; [done|]. split; [constructor|].
      intros p _. by rewrite app_nil_r. }
    intros pre prop post s2 _ (T & Hreg2 & Hdone & Hkids). apply wp_bind.
    eapply wp_mono;
      [apply (wp_returns _ _ _ _ _
                (process_property_shape_wp g fuel prop s2 (tr_inv _ _ _ _ _ T)))
      | | done | done].
    intros r s3 Hpost. cbn beta.
    pose proof (pp_track _ _ _ _ _ Hpost) as T3.
    pose proof (evolves_length _ _ _ _ (tr_ev _ _ _ _ _ T)) as Hlen2.
    pose proof (evolves_length _ _ _ _ (tr_ev _ _ _ _ _ T3)) as Hlen3.
    assert (T13 : track g 0 0 s1 s3) by (eapply track_trans; [| |exact T|exact T3]; lia).
    assert (Hreg3 : registry_tagged g s3)
      by (eapply registry_tagged_lowered; [exact (tr_inv _ _ _ _ _ T) | done | done]).
    assert (Hd3 : Forall (λ v, v ∈ processed_shapes s3) (pre ++ [prop])).
    { apply Forall_app. split.
      - eapply Forall_impl; [exact Hdone|]. cbn. intros x Hx.
        by apply (ev_processed _ _ _ _ (tr_ev _ _ _ _ _ T3)).
      - constructor; [|constructor]. rewrite (pp_processed _ _ _ _ _ Hpost). set_solver. }
    assert (Hk3 : ∀ p, p < length (elements s1) →
              ET.children_of p (elements s3) =
                ET.children_of p (elements s1) ++
                placements g (property_shape_map s3) ct container pre p).
    { intros p Hp.
      rewrite (placements_ext g (property_shape_map s2) (property_shape_map s3)).
      - rewrite <- Hkids by done. unfold ET.children_of.
        destruct T3 as [[_ _ _ [_ Hsame] _] _]. by rewrite Hsame by lia.
      - eapply Forall_impl; [exact Hdone|]. cbn. intros x Hx.
        by apply (ev_props _ _ _ _ (tr_ev _ _ _ _ _ T3)). }
    pose proof (pp_result _ _ _ _ _ Hpost) as Hr.
    assert (Hstep : ∀ p, placements g (property_shape_map s3) ct container (pre ++ [prop]) p =
                         placements g (property_shape_map s3) ct container pre p ++
                         match r with
                         | Some e => if decide ((if is_attribute g prop then ct
                                                 else container) = p) then [e] else []
                         | None => []
                         end).
    { intros p. rewrite placements_app. f_equal. cbn [placements]. rewrite <- Hr.
      destruct r; [|done]. by case_decide. }
    destruct r as [e|].
    2:{ apply wp_ret. split; [done|]. split; [done|]. split; [done|].
        intros p Hp. by rewrite Hstep, app_nil_r, Hk3. }
    apply wp_bind, wp_gets. cbn beta.
    rewrite (Hreg3 prop e) by done.
    assert (Happ : ∀ parent, parent < length (elements s1) →
              parent = (if is_attribute g prop then ct else container) →
              wp (on_store (ET.append parent e)) s3
                 (λ _ s', track g 0 0 s1 s' ∧ registry_tagged g s' ∧
                          Forall (λ v, v ∈ processed_shapes s') (pre ++ [prop]) ∧
                          ∀ p, p < length (elements s1) →
                               ET.children_of p (elements s') =
                                 ET.children_of p (elements s1) ++
                                 placements g (property_shape_map s') ct container
                                            (pre ++ [prop]) p) True True).
    { intros parent Hparent Hwhich. apply wp_on_store.
      split; [apply track_store; [done | apply grows_append; lia]|].
      split; [eapply registry_tagged_grows; [exact Hreg3 | done |];
              cbn [elements with_elements]; apply grows_append; lia|].
      split; [done|]. intros p Hp. cbn [elements with_elements property_shape_map].
      rewrite Hstep, app_assoc, <- Hk3 by done. rewrite <- Hwhich.
      case_decide as Hd.
      - subst p. by rewrite children_of_append by lia.
      - rewrite children_of_append_ne by done. by rewrite app_nil_r. }
    destruct (is_attribute g prop).
    - destruct tag_q_attribute as [-> ->]. by apply Happ.
    - rewrite tag_q_element. by apply Happ. }
  intros [] s' (T & Hreg' & _ & Hk). done.
Qed.
End Placement.

(** (X17) Property placement.  When a node shape has properties, they are
    lowered in declared order; every one that yields an element is attached:
    attribute-kind ones to the complex type, element-kind ones to a
    container.  The container is a new [all] group under the extension (or
    under the complex type when there is none) if the shape has neither
    [sh:xone] nor [sh:or]; otherwise it is the extension or complex type
    itself, beside the choice or union.  Nothing else that exists gets a
    new child. *)
Theorem property_placement g fuel u ct ext s s' :
  inv g s → registry_tagged g s →
  ct < length (elements s) → default ct ext < length (elements s) →
  objects g u (NS.sh "property") ≠ [] →
  lower_properties g fuel u ct ext s = Ok tt s' →
  let n0 := length (elements s) in
  let grouped :=
    match objects g u (NS.sh "xone"), objects g u (NS.sh "or") with
    | [], [] => true
    | _, _ => false
    end in
  let container := if grouped then n0 else default ct ext in
  let placed := placements g (property_shape_map s') ct container
                           (objects g u (NS.sh "property")) in
  registry_tagged g s' ∧
  (∀ p, p < n0 →
        ET.children_of p (elements s') =
          ET.children_of p (elements s) ++
          (if grouped && bool_decide (p = default ct ext) then [n0] else []) ++ placed p) ∧
  (grouped = true →
   ET.tag_of n0 (elements s') = NS.q "all" ∧ ET.children_of n0 (elements s') = placed n0).
Proof.
  intros Hinv Hreg Hct Hc0 Hprops. unfold lower_properties.
  destruct (objects g u (NS.sh "property")) as [|prop props] eqn:Hp; [done|].
  rewrite <- Hp. clear Hp prop props Hprops.
  replace (match ext with Some e => e | None => ct end) with (default ct ext)
    by (by destruct ext).
  intros Hrun. cbv zeta.
  remember (match objects g u (NS.sh "xone"), objects g u (NS.sh "or") with
            | [], [] => true
            | _, _ => false
            end) as grouped eqn:Hg.
  assert (Hcase : (match objects g u (NS.sh "xone"), objects g u (NS.sh "or") with
                   | [], [] => new_elem (ET.SubElement (default ct ext) (NS.q "all"))
                   | _, _ => mret (default ct ext)
                   end) s =
                  if grouped
                  then new_elem (ET.SubElement (default ct ext) (NS.q "all")) s
                  else Ok (default ct ext) s).
  { subst grouped. destruct (objects g u (NS.sh "xone")); [|done].
    by destruct (objects g u (NS.sh "or")). }
  revert Hrun. unfold mbind at 1, M_bind at 1. rewrite Hcase. clear Hcase Hg.
  destruct grouped; cbn [andb].
  - unfold new_elem.
    destruct (ET.SubElement (default ct ext) (NS.q "all") (elements s)) as [c h1] eqn:Hsub.
    destruct (lookup_lt_is_Some_2 _ _ Hc0) as [el Hel].
    pose proof (lookup_SubElement _ _ _ _ _ _ Hsub Hel) as (-> & Hp1 & Hc1).
    pose proof (SubElement_fresh _ _ _ _ _ Hsub) as [_ Hl1].
    assert (G1 : grows 0 (elements s) h1).
    { eapply grows_SubElement; [| |exact Hsub]; lia. }
    set (s1 := mkState _ _ _ _ h1).
    assert (T1 : track g 0 0 s s1).
    { apply (track_store g 0 0 s s h1 (track_start _ _ _ _ Hinv) G1). }
    assert (Hreg1 : registry_tagged g s1) by (by eapply registry_tagged_grows).
    intros Hrun.
    destruct (wp_Ok _ _ _ _ _ _ _
                (placement_loop g fuel ct (length (elements s))
                   (objects g u (NS.sh "property")) s1 (tr_inv _ _ _ _ _ T1) Hreg1
                   ltac:(subst s1; cbn; lia) ltac:(subst s1; cbn; lia)) Hrun)
      as (T' & Hreg' & Hk).
    split; [done|]. split.
    + intros p Hp. rewrite Hk by (subst s1; cbn; lia). subst s1. cbn [elements].
      rewrite app_assoc. f_equal.
      case_bool_decide as Hd.
      * subst p. unfold ET.children_of. by rewrite Hp1, Hel.
      * unfold ET.children_of.
        rewrite (lookup_SubElement_other _ _ _ _ _ p Hsub) by done.
        by rewrite app_nil_r.
    + intros _. split.
      * rewrite (grows_tag_of _ _ _ _ (ev_store _ _ _ _ (tr_ev _ _ _ _ _ T')))
          by (subst s1; cbn; lia).
        subst s1. cbn [elements]. unfold ET.tag_of. by rewrite Hc1.
      * rewrite Hk by (subst s1; cbn; lia). subst s1. cbn [elements].
        unfold ET.children_of at 1. by rewrite Hc1.
  - intros Hrun.
    destruct (wp_Ok _ _ _ _ _ _ _
                (placement_loop g fuel ct (default ct ext)
                   (objects g u (NS.sh "property")) s Hinv Hreg Hct Hc0) Hrun)
      as (T' & Hreg' & Hk).
    split; [done|]. split; [|done].
    intros p Hp. by rewrite Hk.
Qed.

Module Ex8.
Import Ex.
(** a node shape with an element-kind property, an attribute-kind one and
    one that has no path *)
Definition mixed_properties : Graph :=
  [ (A, RDF_type, NS.sh "NodeShape");
    (A, NS.sh "property", P);
    (A, NS.sh "property", Ex7.Q);
    (A, NS.sh "property", ex "PropertyShape/r");
    (P, NS.sh "path", ex "p");
    (Ex7.Q, NS.sh "path", ex "id") ].
End Ex8.

Lemma property_placement_witness :
  let s := Ex3.at_disjunction Ex8.mixed_properties in
  let run := lower_properties Ex8.mixed_properties 5 Ex.A 0 None s in
  Ex.value_of run = Some tt ∧
  ET.children_of 0 (elements (Ex.state_of run)) = [1; 3] ∧
  ET.tag_of 1 (elements (Ex.state_of run)) = NS.q "all" ∧
  ET.children_of 1 (elements (Ex.state_of run)) = [2].
Proof.
  intros s run.
  assert (Hrun : Ex.value_of run = Some tt) by (vm_compute; reflexivity).
  split; [exact Hrun|].
  destruct (property_placement Ex8.mixed_properties 5 Ex.A 0 None s (Ex.state_of run))
    as (_ & Hkids & Hall).
  - apply Ex3.inv_at_disjunction.
  - intros v e H. cbn in H. by rewrite lookup_empty in H.
  - cbn. lia.
  - cbn. lia.
  - vm_compute. discriminate.
  - exact (Ex.result_eq _ _ Hrun).
  - destruct (Hall eq_refl) as [Htag Hgroup].
    split; [exact (Hkids 0 (Nat.lt_0_succ 0))|]. split; [exact Htag | exact Hgroup].
Defined.

(** ** The target namespace ([load_shacl_file]) *)

(** What stands before the rightmost [sep] of [s], for a non-empty [sep];
    [None] when [sep] does not occur. *)
Fixpoint before_last (sep s : string) : option string :=
  match s with
  | EmptyString => None
  | String c s' =>
      match before_last sep s' with
      | Some head => Some (String c head)
      | None => if String.prefix sep s then Some EmptyString else None
      end
  end.

(** [s.rsplit(sep, 1)[0]], for a non-empty [sep] *)
Definition rsplit_head (sep s : string) : string :=
  match before_last sep s with Some head => head | None => s end.

(** [isinstance(o, URIRef)] *)
Definition is_URIRef (o : term) : bool :=
  match o with URIRef _ => true | _ => false end.

(** the objects of [SHACL.triples((None, p, None))], in the order in which
    the graph yields these triples *)
Definition objects_of (g : Graph) (p : term) : list term :=
  omap (λ t : triple, let '(_, p', o) := t in
          if decide (p' = p) then Some o else None) g.

(** the loop of lines 565-571: it stops at the first object that is a
    non-empty IRI *)
Fixpoint first_namespace (os : list term) : option string :=
  match os with
  | [] => None
  | o :: rest =>
      if truthy o && is_URIRef o
      then Some (rsplit_head "/" (str o) +:+ "/")
      else first_namespace rest
  end.

(** lines 564-571 of [load_shacl_file], on the parsed graph: [xsdTargetNS]
    and [xsd_nsmap['tns']] are set together, or both keep the value they
    have *)
Definition extract_target_namespace (c : converter) : converter :=
  match first_namespace (objects_of (SHACL c) (NS.sh "targetClass")) with
  | Some ns => mkConverter (SHACL c) (ns_prefix_map c) ns ns
  | None => c
  end.

Lemma before_last_none sep s :
  sep ≠ "" → before_last sep s = None → ¬ occurs_in sep s.
Proof.
  intros Hsep. induction s as [|c s IH]; intros Hnone (pre & post & Hs).
  - destruct pre; [|done]. rewrite string_app_nil in Hs. by destruct sep.
  - cbn [before_last] in Hnone.
    destruct (before_last sep s) as [head|] eqn:Hb; [done|].
    destruct (String.prefix sep (String c s)) eqn:Hp; [done|].
    destruct pre as [|x pre].
    + rewrite string_app_nil in Hs. by rewrite Hs, prefix_app in Hp.
    + rewrite string_app_cons in Hs. injection Hs as _ Hs.
      apply IH; [done|]. by exists pre, post.
Qed.

Lemma before_last_some sep s head :
  sep ≠ "" → before_last sep s = Some head →
  ∃ post, s = head +:+ sep +:+ post ∧ ¬ occurs_in sep post.
Proof.
  intros Hsep. revert head. induction s as [|c s IH]; intros head; [done|].
  cbn [before_last]. destruct (before_last sep s) as [h|] eqn:Hb.
  - intros [= <-]. destruct (IH h eq_refl) as (post & -> & Hpost).
    exists post. by rewrite string_app_cons.
  - destruct (String.prefix sep (String c s)) eqn:Hp; [|done]. intros [= <-].
    pose proof (prefix_drop _ _ Hp) as Hs.
    exists (PyStr.drop (String.length sep) (String c s)). split; [by rewrite string_app_nil|].
    intros (p1 & p2 & Hocc). apply (before_last_none sep s Hsep Hb).
    destruct sep as [|x sep']; [done|]. rewrite Hocc in Hs.
    rewrite string_app_cons in Hs. injection Hs as _ Hs.
    exists (sep' +:+ p1), p2. by rewrite string_app_assoc.
Qed.

Lemma rsplit_head_spec sep s :
  sep ≠ "" →
  if PyStr.contains sep s
  then ∃ post, s = rsplit_head sep s +:+ sep +:+ post ∧ ¬ occurs_in sep post
  else rsplit_head sep s = s.
Proof.
  intros Hsep. unfold rsplit_head.
  destruct (before_last sep s) as [head|] eqn:Hb.
  - destruct (before_last_some sep s head Hsep Hb) as (post & Hs & Hpost).
    assert (Hc : PyStr.contains sep s = true).
    { apply contains_occurs; [done|]. by exists head, post. }
    rewrite Hc. by exists post.
  - destruct (PyStr.contains sep s) eqn:Hc; [|done].
    apply contains_occurs in Hc; [|done]. by apply before_last_none in Hc.
Qed.

(** (X18) The target namespace is cut out of the first [sh:targetClass]
    object, as the graph yields them, that is a non-empty IRI: it is that
    IRI up to and including its last "/" (so an IRI that ends in "#Name"
    loses the part from the last "/" on, not from the "#"), and the whole
    IRI followed by "/" when the IRI has no "/".  [xsdTargetNS] and the
    [tns] prefix get the same value, which [create_xsd_root] then writes
    into the schema element; it raises [ValueError] instead when the prefix
    map holds a prefix that [ET.register_namespace] refuses.  Without such
    an object the converter keeps the namespace it has. *)
Theorem target_namespace_from_class c :
  let c' := extract_target_namespace c in
  SHACL c' = SHACL c ∧ ns_prefix_map c' = ns_prefix_map c ∧
  match List.find (λ o, truthy o && is_URIRef o)
                  (objects_of (SHACL c) (NS.sh "targetClass")) with
  | Some o =>
      xsdTargetNS c' = tns c' ∧
      (if PyStr.contains "/" (str o)
       then ∃ local, str o = tns c' +:+ local ∧ ¬ occurs_in "/" local
       else tns c' = str o +:+ "/") ∧
      ∀ st,
        if refused_prefix c then create_xsd_root c' st = Raise "ValueError"
        else ∃ r, create_xsd_root c' st =
                    Ok tt (mkState (processed_shapes st) (Some r) (node_shape_map st)
                                   (property_shape_map st) (elements st)) ∧
                  attrib r !! "targetNamespace" = Some (tns c') ∧
                  attrib r !! "xmlns:tns" = Some (tns c')
  | None => c' = c
  end.
Proof.
  cbv zeta. unfold extract_target_namespace.
  induction (objects_of (SHACL c) (NS.sh "targetClass")) as [|o os IH].
  { done. }
  cbn [first_namespace List.find].
  destruct (truthy o && is_URIRef o); [|exact IH].
  cbn [SHACL ns_prefix_map tns xsdTargetNS]. split; [done|]. split; [done|].
  split; [done|]. split.
  - pose proof (rsplit_head_spec "/" (str o) ltac:(done)) as Hspec.
    destruct (PyStr.contains "/" (str o)).
    + destruct Hspec as (post & Hs & Hpost). exists post.
      by rewrite string_app_assoc.
    + by rewrite Hspec.
  - intros st. set (c' := mkConverter _ _ _ _).
    destruct (refused_prefix c) eqn:Href.
    + by apply create_xsd_root_refused.
    + destruct (create_xsd_root_run c' st Href) as (r & Hrun & _ & _ & Htn & Htns & _).
      by exists r.
Qed.

Module Ex9.
Import Ex.
(** a literal and an empty IRI come first; the class IRI has a fragment *)
Definition classes : Graph :=
  [ (A, NS.sh "targetClass", Literal "http://example.com/x/Lit" None None None);
    (A, NS.sh "targetClass", URIRef "");
    (A, NS.sh "targetClass", URIRef "http://example.com/ns#Person");
    (B, NS.sh "targetClass", URIRef "http://other.org/B") ].
(** a class IRI without "/" *)
Definition urn_class : Graph :=
  [ (A, NS.sh "targetClass", URIRef "urn:example:Person") ].
(** a prefix map with a prefix of the kind rdflib generates *)
Definition generated_prefix : converter :=
  mkConverter urn_class {["ns1" := NsURIRef "http://example.com/gen#"]}
              "http://example.com/" "http://example.com/".
End Ex9.

Lemma target_namespace_from_class_witness :
  tns (extract_target_namespace (Ex.conv Ex9.classes)) = "http://example.com/" ∧
  xsdTargetNS (extract_target_namespace (Ex.conv Ex9.classes)) = "http://example.com/" ∧
  tns (extract_target_namespace (Ex.conv Ex9.urn_class)) = "urn:example:Person/" ∧
  extract_target_namespace (Ex.conv Ex.looping_list) = Ex.conv Ex.looping_list ∧
  create_xsd_root (extract_target_namespace Ex9.generated_prefix) init = Raise "ValueError".
Proof.
  pose proof (target_namespace_from_class (Ex.conv Ex9.classes)) as (_ & _ & H1).
  pose proof (target_namespace_from_class (Ex.conv Ex9.urn_class)) as (_ & _ & H2).
  pose proof (target_namespace_from_class (Ex.conv Ex.looping_list)) as (_ & _ & H3).
  pose proof (target_namespace_from_class Ex9.generated_prefix) as (_ & _ & H4).
  cbn in H1, H2, H3. destruct H1 as (Hx & _ & _). destruct H2 as (_ & Hu & _).
  split; [reflexivity|]. split; [by rewrite Hx|]. split; [exact Hu|].
  split; [exact H3|]. exact (proj2 (proj2 H4) init).
Defined.

(** ** Pretty printing ([indent]) *)

(** [elem.text] and [elem.tail], by address; an absent key is [None].  The
    converter never sets them: [indent] is the only code that does. *)
Record layout : Type := mkLayout {
  text_of : gmap nat string;
  tail_of : gmap nat string
}.

(** one of the two strings of an element *)
Inductive slot : Type :=
| Text (e : nat)
| Tail (e : nat).

#[global] Instance slot_eq_dec : EqDecision slot.
Proof. solve_decision. Defined.

Definition read (f : slot) (L : layout) : option string :=
  match f with
  | Text e => text_of L !! e
  | Tail e => tail_of L !! e
  end.

Definition assign (f : slot) (v : string) (L : layout) : layout :=
  match f with
  | Text e => mkLayout (<[e := v]> (text_of L)) (tail_of L)
  | Tail e => mkLayout (text_of L) (<[e := v]> (tail_of L))
  end.

Definition newline : string := String (Ascii.ascii_of_nat 10) EmptyString.

(** [n * s] *)
Fixpoint times (n : nat) (s : string) : string :=
  match n with
  | O => EmptyString
  | S n' => s +:+ times n' s
  end.

(** the string [i] of [indent] at level [k] *)
Definition indentation (k : nat) : string := newline +:+ times k "  ".

Section Indent.
(** [str.strip()] *)
Variable strip : string → string.

(** [not x or not x.strip()] *)
Definition blank (x : option string) : bool :=
  match x with
  | None => true
  | Some s => String.eqb s EmptyString || String.eqb (strip s) EmptyString
  end.

(** [if not x or not x.strip(): x = v] *)
Definition fill (f : slot) (v : string) (L : layout) : layout :=
  if blank (read f L) then assign f v L else L.

(** [indent(elem, level)]; the fuel bounds the depth of the recursion *)
Fixpoint indent (fuel : nat) (h : store) (elem level : nat) (L : layout) : option layout :=
  match fuel with
  | O => None
  | S fuel' =>
      let i := newline +:+ times level "  " in
      match ET.children_of elem h with
      | [] => Some (if negb (level =? 0) then fill (Tail elem) i L else L)
      | kid :: kids =>
          let L := fill (Text elem) (i +:+ "  ") L in
          let L := fill (Tail elem) i L in
          L ← foldl (λ acc child, acc ≫= indent fuel' h child (S level)) (Some L)
                    (kid :: kids);
          Some (fill (Tail (List.last kids kid)) i L)
      end
  end.

(** *** The assignments that a call attempts, in order *)

Definition run (ws : list (slot * string)) (L : layout) : layout :=
  foldl (λ L w, fill w.1 w.2 L) L ws.

Fixpoint attempts (fuel : nat) (h : store) (elem level : nat) : option (list (slot * string)) :=
  match fuel with
  | O => None
  | S fuel' =>
      let i := newline +:+ times level "  " in
      match ET.children_of elem h with
      | [] => Some (if negb (level =? 0) then [(Tail elem, i)] else [])
      | kid :: kids =>
          ws ← foldl (λ acc child,
                        a ← acc; w ← attempts fuel' h child (S level); Some (a ++ w))
                     (Some [(Text elem, i +:+ "  "); (Tail elem, i)]) (kid :: kids);
          Some (ws ++ [(Tail (List.last kids kid), i)])
      end
  end.

Lemma run_app ws1 ws2 L : run (ws1 ++ ws2) L = run ws2 (run ws1 L).
Proof. unfold run. by rewrite foldl_app. Qed.

Lemma foldl_none {A B} (f : B → A → option A) (l : list B) :
  foldl (λ acc x, acc ≫= f x) None l = None.
Proof. by induction l. Qed.

Lemma foldl_none' {A B} (f : B → option (list A)) (l : list B) :
  foldl (λ acc x, a ← acc; w ← f x; Some (a ++ w)) None l = None.
Proof. by induction l. Qed.

(** [indent] makes its attempts one after the other *)
Lemma indent_run fuel h elem level L :
  indent fuel h elem level L = (λ ws, run ws L) <$> attempts fuel h elem level.
Proof.
  revert elem level L. induction fuel as [|fuel IH]; intros elem level L; [done|].
  cbn [indent attempts]. destruct (ET.children_of elem h) as [|kid kids].
  { by destruct (negb (level =? 0)). }
  set (i := newline +:+ times level "  ").
  assert (Hloop : ∀ l a,
            foldl (λ acc child, acc ≫= indent fuel h child (S level)) (Some (run a L)) l =
            (λ ws, run ws L) <$>
              foldl (λ acc child,
                       a ← acc; w ← attempts fuel h child (S level); Some (a ++ w))
                    (Some a) l).
  { induction l as [|child l IHl]; intros a; [done|]. cbn [foldl].
    cbn [mbind option_bind]. rewrite IH.
    destruct (attempts fuel h child (S level)) as [w|];
      cbn [fmap option_fmap option_map mbind option_bind].
    - rewrite <- run_app. apply IHl.
    - by rewrite foldl_none, foldl_none'. }
  change (fill (Tail elem) i (fill (Text elem) (i +:+ "  ") L))
    with (run [(Text elem, i +:+ "  "); (Tail elem, i)] L).
  rewrite Hloop.
  destruct (foldl _ (Some [(Text elem, i +:+ "  "); (Tail elem, i)]) (kid :: kids)) as [ws|];
    [|done].
  cbn [fmap option_fmap option_map mbind option_bind]. by rewrite run_app.
Qed.

Lemma times_snoc n s : times n s +:+ s = s +:+ times n s.
Proof.
  induction n as [|n IH]; cbn [times].
  - rewrite string_app_nil. clear. induction s as [|c s IH]; [done|].
    by rewrite string_app_cons, <- IH.
  - by rewrite string_app_assoc, IH.
Qed.

Lemma indentation_S level : (newline +:+ times level "  ") +:+ "  " = indentation (S level).
Proof. unfold indentation. cbn [times]. by rewrite string_app_assoc, times_snoc. Qed.

(** every attempt writes the indentation of some level *)
Lemma attempts_indentation fuel h elem level ws :
  attempts fuel h elem level = Some ws →
  Forall (λ w : slot * string, ∃ k, w.2 = indentation k) ws.
Proof.
  revert elem level ws. induction fuel as [|fuel IH]; intros elem level ws; [done|].
  cbn [attempts]. destruct (ET.children_of elem h) as [|kid kids].
  { intros [= <-]. destruct (negb (level =? 0)); [|constructor].
    constructor; [by exists level | constructor]. }
  assert (Hloop : ∀ l a r,
            Forall (λ w : slot * string, ∃ k, w.2 = indentation k) a →
            foldl (λ acc child,
                     a ← acc; w ← attempts fuel h child (S level); Some (a ++ w))
                  (Some a) l = Some r →
            Forall (λ w : slot * string, ∃ k, w.2 = indentation k) r).
  { induction l as [|child l IHl]; intros a r Ha; cbn [foldl].
    - by intros [= <-].
    - cbn [mbind option_bind].
      destruct (attempts fuel h child (S level)) as [w|] eqn:Hw;
        cbn [mbind option_bind].
      + apply IHl. apply Forall_app. split; [done | by eapply IH].
      + by rewrite foldl_none'. }
  destruct (foldl _ _ (kid :: kids)) as [r|] eqn:Hr; [|done].
  cbn [mbind option_bind]. intros [= <-]. apply Forall_app. split.
  - eapply Hloop; [|exact Hr]. constructor; [|constructor; [|constructor]].
    + exists (S level). cbn [snd]. apply indentation_S.
    + by exists level.
  - constructor; [by exists level | constructor].
Qed.

(** *** What a sequence of attempts leaves in a slot *)

Lemma read_assign f f' v L :
  read f (assign f' v L) = if decide (f' = f) then Some v else read f L.
Proof.
  destruct f as [e|e], f' as [e'|e']; cbn [read assign text_of tail_of];
    case_decide as Hd; simplify_eq; try done;
    by rewrite ?lookup_insert_eq, ?lookup_insert_ne by congruence.
Qed.

Lemma layout_ext L L' : (∀ f, read f L = read f L') → L = L'.
Proof.
  intros H. destruct L as [t1 l1], L' as [t2 l2]. f_equal; apply map_eq; intros e.
  - apply (H (Text e)).
  - apply (H (Tail e)).
Qed.

(** the value of the last attempt on [f] *)
Fixpoint last_attempt (f : slot) (ws : list (slot * string)) : option string :=
  match ws with
  | [] => None
  | w :: ws' =>
      match last_attempt f ws' with
      | Some v => Some v
      | None => if decide (w.1 = f) then Some w.2 else None
      end
  end.

(** a slot with content keeps it; any other holds what was written last *)
Lemma read_run ws f L :
  read f (run ws L) = read f L ∨
  (blank (read f L) = true ∧ ∃ w, w ∈ ws ∧ w.1 = f ∧ read f (run ws L) = Some w.2).
Proof.
  revert L. induction ws as [|[f' v] ws IH]; intros L; [by left|].
  change (run ((f', v) :: ws) L) with (run ws (fill f' v L)).
  unfold fill. destruct (blank (read f' L)) eqn:Hb.
  - destruct (IH (assign f' v L)) as [Heq|(Hb' & w & Hw & Hf & Hr)].
    + rewrite Heq, read_assign. case_decide as Hd; [|by left]. subst f'.
      right. split; [done|]. exists (f, v). split; [by left | done].
    + rewrite read_assign in Hb'. right. split.
      * case_decide as Hd; [by subst f' | done].
      * exists w. split; [by right | done].
  - destruct (IH L) as [Heq|(Hb' & w & Hw & Hf & Hr)]; [by left|].
    right. split; [done|]. exists w. split; [by right | done].
Qed.

Hypothesis strip_indentation : ∀ k, strip (indentation k) = "".

Lemma read_run_last ws f L :
  Forall (λ w : slot * string, ∃ k, w.2 = indentation k) ws →
  read f (run ws L) =
    if blank (read f L)
    then match last_attempt f ws with Some v => Some v | None => read f L end
    else read f L.
Proof.
  intros Hws. revert L. induction Hws as [|[f' v] ws [k Hk] _ IH]; intros L.
  { by destruct (blank (read f L)). }
  cbn [snd] in Hk. subst v.
  change (run ((f', indentation k) :: ws) L) with (run ws (fill f' (indentation k) L)).
  rewrite IH. cbn [last_attempt fst snd]. unfold fill.
  destruct (decide (f' = f)) as [->|Hne].
  - destruct (blank (read f L)) eqn:Hb.
    + rewrite read_assign, decide_True by done. cbn [blank].
      rewrite strip_indentation. cbn [String.eqb orb]. rewrite orb_true_r.
      by destruct (last_attempt f ws).
    + by rewrite Hb.
  - assert (Hr : read f (if blank (read f' L) then assign f' (indentation k) L else L) =
                 read f L).
    { destruct (blank (read f' L)); [|done]. by rewrite read_assign, decide_False. }
    rewrite Hr. by destruct (last_attempt f ws).
Qed.

(** (X19) Pretty printing a second time changes nothing: when
    [indent(elem, level)] returns, a second [indent(elem, level)] on the
    result returns too and leaves every text and tail as the first call
    left it, also when elements are shared between parents. *)
Theorem indent_twice fuel h elem level L L' :
  indent fuel h elem level L = Some L' →
  indent fuel h elem level L' = Some L'.
Proof.
  rewrite !indent_run.
  destruct (attempts fuel h elem level) as [ws|] eqn:Hws; [|done].
  cbn [fmap option_fmap option_map]. intros [= <-]. f_equal.
  pose proof (attempts_indentation _ _ _ _ _ Hws) as Hind.
  apply layout_ext. intros f. rewrite !read_run_last by done.
  destruct (blank (read f L)) eqn:Hb.
  - destruct (last_attempt f ws) as [v|] eqn:Hl.
    + by destruct (blank (Some v)).
    + by rewrite Hb.
  - by rewrite Hb.
Qed.
End Indent.

(** (X20) Pretty printing only fills blanks with white space: a text or
    tail that has content (it is not [None], not empty and [strip] leaves
    something of it) is never changed, and a text or tail that has changed
    holds a line break followed by an even number of spaces. *)
Theorem indent_keeps_content strip fuel h elem level L L' :
  indent strip fuel h elem level L = Some L' →
  ∀ e,
    (blank strip (text_of L !! e) = false → text_of L' !! e = text_of L !! e) ∧
    (blank strip (tail_of L !! e) = false → tail_of L' !! e = tail_of L !! e) ∧
    (text_of L' !! e = text_of L !! e ∨
     ∃ k, text_of L' !! e = Some (newline +:+ times k "  ")) ∧
    (tail_of L' !! e = tail_of L !! e ∨
     ∃ k, tail_of L' !! e = Some (newline +:+ times k "  ")).
Proof.
  rewrite indent_run.
  destruct (attempts fuel h elem level) as [ws|] eqn:Hws; [|done].
  cbn [fmap option_fmap option_map]. intros [= <-] e.
  pose proof (attempts_indentation _ _ _ _ _ Hws) as Hind.
  rewrite Forall_forall in Hind.
  assert (Hslot : ∀ f,
            (blank strip (read f L) = false → read f (run strip ws L) = read f L) ∧
            (read f (run strip ws L) = read f L ∨
             ∃ k, read f (run strip ws L) = Some (newline +:+ times k "  "))).
  { intros f. destruct (read_run strip ws f L) as [Heq|(Hb & w & Hw & Hf & Hr)].
    - split; [done | by left].
    - split; [by rewrite Hb|]. right. destruct (Hind w Hw) as [k Hk].
      exists k. by rewrite Hr, Hk. }
  destruct (Hslot (Text e)) as [Ht1 Ht2], (Hslot (Tail e)) as [Hl1 Hl2]. done.
Qed.

(** [s.rstrip()] and [s.strip()] on ASCII text *)
Fixpoint rstrip (s : string) : string :=
  match s with
  | EmptyString => EmptyString
  | String c s' =>
      match rstrip s' with
      | EmptyString => if PyStr.is_ws c then EmptyString else String c EmptyString
      | r => String c r
      end
  end.

Definition ascii_strip (s : string) : string := rstrip (PyStr.lstrip s).

Lemma ascii_strip_indentation k : ascii_strip (indentation k) = "".
Proof.
  unfold ascii_strip, indentation.
  assert (H : PyStr.lstrip (times k "  ") = "").
  { induction k as [|k IH]; [done|]. cbn [times]. by rewrite !string_app_cons, string_app_nil. }
  unfold newline. rewrite string_app_cons, string_app_nil. cbn [PyStr.lstrip].
  change (PyStr.is_ws (ascii_of_nat 10)) with true. cbv iota. by rewrite H.
Qed.

Module Ex10.
(** a complex type with two children, the second of which is shared with a
    second parent, and a leaf that holds text *)
Definition tree : store :=
  [ mkElem (NS.q "schema") ∅ [1; 4];
    mkElem (NS.q "complexType") ∅ [2; 3];
    mkElem (NS.q "element") ∅ [];
    mkElem (NS.q "element") ∅ [];
    mkElem (NS.q "complexType") ∅ [3] ].
Definition written : layout := mkLayout {[ 2 := "documentation" ]} {[ 2 := "x" ]}.
Definition printed : layout :=
  match indent ascii_strip 4 tree 0 0 written with Some L => L | None => written end.
End Ex10.

Lemma indent_twice_witness :
  indent ascii_strip 4 Ex10.tree 0 0 Ex10.written = Some Ex10.printed ∧
  indent ascii_strip 4 Ex10.tree 0 0 Ex10.printed = Some Ex10.printed.
Proof.
  assert (Hrun : indent ascii_strip 4 Ex10.tree 0 0 Ex10.written = Some Ex10.printed)
    by (vm_compute; reflexivity).
  split; [exact Hrun|].
  exact (indent_twice ascii_strip ascii_strip_indentation 4 Ex10.tree 0 0
           Ex10.written Ex10.printed Hrun).
Defined.

Lemma indent_keeps_content_witness :
  indent ascii_strip 4 Ex10.tree 0 0 Ex10.written = Some Ex10.printed ∧
  text_of Ex10.printed !! 2 = Some "documentation" ∧
  tail_of Ex10.printed !! 2 = Some "x" ∧
  tail_of Ex10.printed !! 3 = Some (newline +:+ times 1 "  ").
Proof.
  assert (Hrun : indent ascii_strip 4 Ex10.tree 0 0 Ex10.written = Some Ex10.printed)
    by (vm_compute; reflexivity).
  split; [exact Hrun|].
  destruct (indent_keeps_content ascii_strip 4 Ex10.tree 0 0 Ex10.written Ex10.printed
              Hrun 2) as (Ht & Hl & _ & _).
  split; [exact (Ht eq_refl)|]. split; [exact (Hl eq_refl)|].
  vm_compute. reflexivity.
Defined.
